(** * Handwriting synthesis: attention, mixture density and decoder

    A shallow embedding of [modules.py] (the Graves-style handwriting
    synthesis network written with PyTorch) and the properties of it that
    the specification states.

    Reading conventions.
    - The Python level of the program (lists of per-layer states, indices,
      negative indices, slices, [zip], [enumerate], in-place item
      assignment, loops) is modelled exactly, in an error monad that carries
      the exceptions Python or torch raise.
    - Learned layers ([nn.LSTMCell], [nn.Linear], [nn.Embedding]) are
      parameters of the model: the source only calls them.
    - The numerical formulae of the mixture density and of the attention
      window are modelled over the real numbers, one batch row at a time
      (every tensor operation of the source acts on the rows of a batch
      independently). Where a statement bounds what [exp] and [tanh]
      return, their [float32] results are modelled: the real result
      rounded to the nearest [float32] number.
    - Shapes are modelled separately, as lists of dimensions, for the
      statements that are about shapes only. *)

From Stdlib Require Import Reals Lra Lia List ZArith Bool String Zfloor.
From stdpp Require Import base list sorting gmap.
Import ListNotations.

Set Default Proof Using "Type".

(* ================================================================== *)
(** * Part I: the program                                               *)
(* ================================================================== *)

(** ** Exceptions *)

(** The exceptions the modelled code can raise: [IndexError] (list index
    out of range), [ValueError] (unpacking the wrong number of values,
    operands of a loss with different sizes, [torch.cat] of an empty list)
    and torch's [RuntimeError] (operands whose shapes cannot be combined,
    [torch.stack] of an empty list). *)
Inductive error : Type :=
| IndexError
| ValueError
| RuntimeError.

Inductive result (A : Type) : Type :=
| Ok (a : A)
| Err (e : error).
Arguments Ok {A} a.
Arguments Err {A} e.

#[global] Instance result_ret : MRet result := fun A a => Ok a.
#[global] Instance result_bind : MBind result :=
  fun A B f m => match m with Ok a => f a | Err e => Err e end.

Definition is_ok {A} (r : result A) : bool :=
  match r with Ok _ => true | Err _ => false end.

(** ** Python lists *)

Module Py.

(** [l[i]] with Python's negative indices. *)
Definition norm_index {A} (l : list A) (i : Z) : Z :=
  if (i <? 0)%Z then (i + Z.of_nat (length l))%Z else i.

Definition getitem {A} (l : list A) (i : Z) : result A :=
  let i' := norm_index l i in
  if (i' <? 0)%Z then Err IndexError
  else match l !! Z.to_nat i' with
       | Some x => Ok x
       | None => Err IndexError
       end.

(** [l[i] = x]. *)
Definition setitem {A} (l : list A) (i : Z) (x : A) : result (list A) :=
  let i' := norm_index l i in
  if (i' <? 0)%Z then Err IndexError
  else if (i' <? Z.of_nat (length l))%Z then Ok (<[Z.to_nat i' := x]> l)
  else Err IndexError.

(** [zip(a, b, c)]: stops at the shortest. *)
Definition zip3 {A B C} (a : list A) (b : list B) (c : list C) : list (A * B * C) :=
  zip (zip a b) c.

End Py.

(** ** Tensor primitives *)

(** The torch operations that the decoder and the generation loop apply to
    whole tensors. [Tensor] stands for a batch of rows (a 2-D tensor whose
    first axis is the batch); a 3-D tensor (batch, time, features) is a
    [Seq]: its batch size and the list of its time steps, which is what
    [unbind(1)], [stack(_, 1)] and [cat(_, 1)] see of it. *)
Class Torch (Tensor Rng : Type) : Type := {
  cat : list Tensor -> Tensor;              (* torch.cat(_, 1) *)
  repeat_rows : nat -> Tensor -> Tensor;    (* p[None].repeat(bsz, ...) *)
  zeros : nat -> nat -> Tensor;             (* torch.zeros(B, n) *)
  rows : Tensor -> nat;                     (* t.size(0) *)
  mul_mask : Tensor -> Tensor -> Tensor;    (* t * mask.unsqueeze(-1) *)
  split5 : nat -> Tensor -> Tensor * Tensor * Tensor * Tensor * Tensor;
                                            (* t.split([2K, 2K, K, K, 1], -1) *)
  t_exp : Tensor -> Tensor;                 (* torch.exp *)
  t_tanh : Tensor -> Tensor;                (* torch.tanh *)
  t_sigmoid : Tensor -> Tensor;             (* torch.sigmoid *)
  log_softmax : Tensor -> Tensor;           (* F.log_softmax(_, dim=-1) *)
  view_K2 : nat -> Tensor -> Tensor;        (* t.view(-1, K, 2) *)
  bernoulli : Tensor -> Rng -> Tensor * Rng;  (* p.bernoulli() *)
}.

Record Seq (Tensor : Type) : Type := {
  size0 : nat;
  unbind1 : list Tensor;
}.
Arguments size0 {Tensor} s.
Arguments unbind1 {Tensor} s.

(** [torch.stack(ts, 1)] of 2-D tensors and [torch.cat(ss, 1)] of 3-D
    tensors. Both refuse an empty list: [stack] with a [RuntimeError],
    [cat] with a [ValueError]. *)
Definition stack1 {Tensor Rng} `{!Torch Tensor Rng} (ts : list Tensor)
    : result (Seq Tensor) :=
  match ts with
  | [] => Err RuntimeError
  | t :: _ => Ok {| size0 := rows t; unbind1 := ts |}
  end.

Definition cat1 {Tensor} (ss : list (Seq Tensor)) : result (Seq Tensor) :=
  match ss with
  | [] => Err ValueError
  | s :: _ => Ok {| size0 := size0 s; unbind1 := concat (map unbind1 ss) |}
  end.

(** [t.unsqueeze(1)] of a 2-D tensor, and [s.squeeze(1)] of a 3-D tensor
    with one time step (with any other number of steps [squeeze] leaves
    the tensor 3-D; the generation loop never meets that case, and it is
    reported here as an error). *)
Definition unsqueeze1 {Tensor Rng} `{!Torch Tensor Rng} (p : Tensor) : Seq Tensor :=
  {| size0 := rows p; unbind1 := [p] |}.

Definition squeeze1 {Tensor} (s : Seq Tensor) : result Tensor :=
  match unbind1 s with
  | [o] => Ok o
  | _ => Err RuntimeError
  end.

(** ** RNNDecoder *)

Module RNNDecoder.
Section Decoder.
Context {Tensor Rng : Type} `{!Torch Tensor Rng}.

(** [nn.LSTMCell.forward(input, (h, c))] returns the new [(h, c)]. *)
Definition LSTMCell : Type := Tensor -> Tensor * Tensor -> Tensor * Tensor.

(** The modules and parameters [__init__] creates. [attention h_t k_tm1 ctx]
    returns [(w, phi, kappa)]; [h_0] and [c_0] list the rows of the
    [(n_layers, hidden_size)] parameters. *)
Record t : Type := {
  layer_0 : LSTMCell;
  layer_n : list LSTMCell;
  attention : Tensor -> Tensor -> Tensor -> Tensor * Tensor * Tensor;
  output : Tensor -> Tensor;
  h_0 : list Tensor;
  c_0 : list Tensor;
  w_0 : Tensor;
  k_0 : Tensor;
}.

(** What [__init__] guarantees for [n_layers]: [layer_n] has
    [n_layers - 1] cells, [h_0] and [c_0] have [n_layers] rows. *)
Definition built_with (n_layers : nat) (d : t) : Prop :=
  length (layer_n d) = n_layers - 1 /\
  length (h_0 d) = n_layers /\
  length (c_0 d) = n_layers.

(** The carried state [(h_tm1, c_tm1, w_tm1, k_tm1)]. *)
Definition State : Type := (list Tensor * list Tensor * Tensor * Tensor)%type.

(** Lines 136-142: the state the step loop starts from. *)
Definition entry_state (d : t) (bsz : nat) (prev_states : option State) : State :=
  match prev_states with
  | None =>
      (map (repeat_rows bsz) (h_0 d),
       map (repeat_rows bsz) (c_0 d),
       repeat_rows bsz (w_0 d),
       repeat_rows bsz (k_0 d))
  | Some st => st
  end.

(** Lines 153-157: the loop over [enumerate(zip(layer_n, h_tm1[1:], c_tm1[1:]))].
    [zipped] is what is left of the zip (the slices were taken before the
    loop started), [j] the running index of [enumerate], which starts
    at 0. *)
Fixpoint layers_loop (x_t w_tm1 : Tensor) (j : nat)
    (zipped : list (LSTMCell * Tensor * Tensor))
    (h_tm1 c_tm1 : list Tensor) : result (list Tensor * list Tensor) :=
  match zipped with
  | [] => Ok (h_tm1, c_tm1)
  | (layer, prev_h, prev_c) :: zipped' =>
      h_jm1 ← Py.getitem h_tm1 (Z.of_nat j - 1);
      let '(h_j, c_j) := layer (cat [x_t; w_tm1; h_jm1]) (prev_h, prev_c) in
      h_tm1 ← Py.setitem h_tm1 (Z.of_nat j) h_j;
      c_tm1 ← Py.setitem c_tm1 (Z.of_nat j) c_j;
      layers_loop x_t w_tm1 (S j) zipped' h_tm1 c_tm1
  end.

(** Lines 146-160: the body of the loop over time steps. Returns the
    step's output and the state carried to the next step. *)
Definition step (d : t) (context : Tensor) (st : State) (x_t : Tensor)
    : result (Tensor * State) :=
  let '(h_tm1, c_tm1, w_tm1, k_tm1) := st in
  h0 ← Py.getitem h_tm1 0;
  c0 ← Py.getitem c_tm1 0;
  let '(h0', c0') := layer_0 d (cat [x_t; w_tm1]) (h0, c0) in
  h_tm1 ← Py.setitem h_tm1 0 h0';
  c_tm1 ← Py.setitem c_tm1 0 c0';
  h0 ← Py.getitem h_tm1 0;
  let '(w_tm1, phi, k_tm1) := attention d h0 k_tm1 context in
  '(h_tm1, c_tm1) ← layers_loop x_t w_tm1 0
      (Py.zip3 (layer_n d) (drop 1 h_tm1) (drop 1 c_tm1)) h_tm1 c_tm1;
  let out := output d (cat h_tm1) in
  Ok (out, (h_tm1, c_tm1, w_tm1, k_tm1)).

(** The loop over [strokes.unbind(1)], with the list [outputs]. *)
Fixpoint steps_loop (d : t) (context : Tensor) (xs : list Tensor)
    (st : State) (outputs : list Tensor) : result (list Tensor * State) :=
  match xs with
  | [] => Ok (outputs, st)
  | x_t :: xs' =>
      '(out, st) ← step d context st x_t;
      steps_loop d context xs' st (outputs ++ [out])
  end.

Definition forward (d : t) (strokes : Seq Tensor) (context : Tensor)
    (prev_states : option State) : result (Seq Tensor * State) :=
  let bsz := size0 strokes in
  let st := entry_state d bsz prev_states in
  '(outputs, st) ← steps_loop d context (unbind1 strokes) st [];
  out ← stack1 outputs;
  Ok (out, st).

End Decoder.
Arguments t Tensor : clear implicits.
Arguments State Tensor : clear implicits.
Arguments LSTMCell Tensor : clear implicits.
End RNNDecoder.

(** ** Seq2Seq: generation *)

Module Seq2Seq.
Section Model.
Context {Tensor Rng : Type} `{!Torch Tensor Rng}.

(** [MixtureOfBivariateNormal(log_pi, mu, sigma, rho).sample()] on the
    batched tensors of the generation loop; its arithmetic is modelled row
    by row in [MixtureOfBivariateNormal.sample] below. *)
Variable mixture_sample : Tensor -> Tensor -> Tensor -> Tensor -> Rng -> Tensor * Rng.

Record t : Type := {
  enc : Tensor -> Tensor -> Tensor;
  dec : RNNDecoder.t Tensor;
  n_mixtures_output : nat;
}.

(** The variables of the generation loop. *)
Record Loop : Type := {
  x_t : Seq Tensor;
  prev_states : option (RNNDecoder.State Tensor);
  strokes : list (Seq Tensor);
  rng : Rng;
}.

Definition encode (m : t) (chars chars_mask : Tensor) : Tensor :=
  mul_mask (enc m chars chars_mask) chars_mask.

(** Lines 209-224: one decoder step on [x_t] and the point built from its
    output. Returns the new [x_t], the carried state and the random
    source. *)
Definition next_point (m : t) (ctx : Tensor) (l : Loop)
    : result (Seq Tensor * RNNDecoder.State Tensor * Rng) :=
  let K := n_mixtures_output m in
  '(out, prev_states) ← RNNDecoder.forward (dec m) (x_t l) ctx (prev_states l);
  out ← squeeze1 out;
  let '(mu, sigma, pi, rho, eos) := split5 K out in
  let sigma := t_exp sigma in
  let rho := t_tanh rho in
  let log_pi := log_softmax pi in
  let mu := view_K2 K mu in
  let sigma := view_K2 K sigma in
  let '(xy, g) := mixture_sample log_pi mu sigma rho (rng l) in
  let '(pen, g) := bernoulli (t_sigmoid eos) g in
  Ok (unsqueeze1 (cat [xy; pen]), prev_states, g).

(** Lines 208-224: the body of [for i in range(maxlen)]. *)
Definition sample_body (m : t) (ctx : Tensor) (l : Loop) : result Loop :=
  let strokes := strokes l ++ [x_t l] in
  '(x_t, prev_states, g) ← next_point m ctx l;
  Ok {| x_t := x_t; prev_states := Some prev_states; strokes := strokes; rng := g |}.

Fixpoint sample_loop (m : t) (ctx : Tensor) (n : nat) (l : Loop) : result Loop :=
  match n with
  | O => Ok l
  | S n' => l ← sample_body m ctx l; sample_loop m ctx n' l
  end.

(** Lines 203-206: the loop variables before the first iteration. *)
Definition sample_init (ctx : Tensor) (g : Rng) : Loop :=
  {| x_t := {| size0 := rows ctx; unbind1 := [zeros (rows ctx) 3] |};
     prev_states := None;
     strokes := [];
     rng := g |}.

Definition sample (m : t) (chars chars_mask : Tensor) (maxlen : nat) (g : Rng)
    : result (Seq Tensor * Rng) :=
  let ctx := encode m chars chars_mask in
  l ← sample_loop m ctx maxlen (sample_init ctx g);
  out ← cat1 (strokes l);
  Ok (out, rng l).

End Model.
Arguments t Tensor : clear implicits.
Arguments Loop Tensor Rng : clear implicits.
End Seq2Seq.

(** ** A symbolic model of the tensor primitives *)

(** Tensors as the expressions that computed them: the data flow of a run
    can be read off its result. Used to run the decoder and the generation
    loop on concrete inputs. *)
Module Sym.
Local Open Scope string_scope.

#[warnings="-register-all"] Inductive tensor : Type :=
| Leaf (name : string)
| Num (n : nat)
| Op (f : string) (args : list tensor).

#[global] Instance torch : Torch tensor nat := {|
  cat := Op "cat";
  repeat_rows := fun bsz p => Op "repeat" [Num bsz; p];
  zeros := fun b n => Op "zeros" [Num b; Num n];
  rows := fun _ => 1;
  mul_mask := fun t mask => Op "mul" [t; mask];
  split5 := fun K t =>
    (Op "split.mu" [t], Op "split.sigma" [t], Op "split.pi" [t],
     Op "split.rho" [t], Op "split.eos" [t]);
  t_exp := fun t => Op "exp" [t];
  t_tanh := fun t => Op "tanh" [t];
  t_sigmoid := fun t => Op "sigmoid" [t];
  log_softmax := fun t => Op "log_softmax" [t];
  view_K2 := fun K t => Op "view" [Num K; t];
  bernoulli := fun p g => (Op "bernoulli" [p; Num g], S g);
|}.

(** The LSTM cell of decoder layer [i]. *)
Definition lstm (i : nat) : RNNDecoder.LSTMCell tensor :=
  fun x '(h, c) => (Op "lstm.h" [Num i; x; h; c], Op "lstm.c" [Num i; x; h; c]).

Definition attend (h_t k_tm1 ctx : tensor) : tensor * tensor * tensor :=
  (Op "attention.w" [h_t; k_tm1; ctx],
   Op "attention.phi" [h_t; k_tm1; ctx],
   Op "attention.kappa" [h_t; k_tm1; ctx]).

(** [RNNDecoder(enc_size, hidden_size, n_layers, ...)]. *)
Definition decoder (n_layers : nat) : RNNDecoder.t tensor :=
  {| RNNDecoder.layer_0 := lstm 0;
     RNNDecoder.layer_n := map (fun i => lstm (S i)) (seq 0 (n_layers - 1));
     RNNDecoder.attention := attend;
     RNNDecoder.output := fun t => Op "output" [t];
     RNNDecoder.h_0 := map (fun i => Op "h_0" [Num i]) (seq 0 n_layers);
     RNNDecoder.c_0 := map (fun i => Op "c_0" [Num i]) (seq 0 n_layers);
     RNNDecoder.w_0 := Leaf "w_0";
     RNNDecoder.k_0 := Leaf "k_0" |}.

Definition mixture_sample (log_pi mu sigma rho : tensor) (g : nat) : tensor * nat :=
  (Op "mixture.sample" [log_pi; mu; sigma; rho; Num g], S g).

Definition model (n_layers K : nat) : Seq2Seq.t tensor :=
  {| Seq2Seq.enc := fun chars mask => Op "emb" [chars];
     Seq2Seq.dec := decoder n_layers;
     Seq2Seq.n_mixtures_output := K |}.

(** A batch of one stroke sequence with the single point [x]. *)
Definition one_step (x : tensor) : Seq tensor := {| size0 := 1; unbind1 := [x] |}.

End Sym.

(** ** Rows of real numbers *)

(** The arithmetic of the mixture density and of the attention window, on
    one row of the batch. A vector is a list of reals; the operations are
    those of torch on one axis. *)
Module Row.
Local Open Scope R_scope.

(** An elementwise binary operation with torch's broadcasting on one axis:
    the sizes agree, or one of them is 1; anything else is a
    [RuntimeError]. *)
Definition broadcast {A B C} (f : A -> B -> C) (a : list A) (b : list B)
    : result (list C) :=
  if (length a =? length b)%nat then Ok (zip_with f a b)
  else match a, b with
       | [x], _ => Ok (map (f x) b)
       | _, [y] => Ok (map (fun x => f x y) a)
       | _, _ => Err RuntimeError
       end.

(** The in-place form ([a += b]): the result keeps the size of [a]. *)
Definition broadcast_inplace {A B} (f : A -> B -> A) (a : list A) (b : list B)
    : result (list A) :=
  if (length a =? length b)%nat then Ok (zip_with f a b)
  else match b with
       | [y] => Ok (map (fun x => f x y) a)
       | _ => Err RuntimeError
       end.

Definition sum (v : list R) : R := fold_right Rplus 0 v.

(** [amax] of a non-empty vector. *)
Definition amax (x : R) (v : list R) : R := fold_right Rmax x v.

(** [torch.logsumexp(v, dim=-1)]: torch subtracts the maximum before
    exponentiating and adds it back. Of an empty vector torch returns
    [log(0) = -inf], which no real number stands for ([ln 0] is an
    arbitrary real here). *)
Definition logsumexp (v : list R) : R :=
  match v with
  | [] => ln (sum (map exp v))
  | x :: v' =>
      let maxes := amax x v' in
      ln (sum (map (fun y => exp (y - maxes)) v)) + maxes
  end.

(** [F.log_softmax(v, dim=-1)]. *)
Definition log_softmax (v : list R) : list R :=
  map (fun y => y - logsumexp v) v.

(** [v.split(sizes, -1)]: the sizes must add up to the length. *)
Fixpoint pieces (sizes : list nat) (v : list R) : list (list R) :=
  match sizes with
  | [] => []
  | n :: sizes' => take n v :: pieces sizes' (drop n v)
  end.

Definition split (sizes : list nat) (v : list R) : result (list (list R)) :=
  if (sum_list sizes =? length v)%nat then Ok (pieces sizes v)
  else Err RuntimeError.

(** [v.chunk(chunks, -1)]: pieces of [ceil(n / chunks)] elements, the last
    one possibly shorter, and fewer pieces than [chunks] when the elements
    run out; [chunks] empty pieces of an empty vector. *)
Definition chunk (chunks : nat) (v : list R) : list (list R) :=
  let n := length v in
  let split_size := ((n + chunks - 1) / chunks)%nat in
  if (split_size =? 0)%nat then repeat [] chunks
  else
    let num_splits := Nat.max ((n + split_size - 1) / split_size) 1 in
    map (fun i => take split_size (drop (i * split_size) v)) (seq 0 num_splits).

(** [v.view(K, 2)]: [2 * K] elements read as [K] pairs. *)
Fixpoint pairs {A} (v : list A) : list (A * A) :=
  match v with
  | a :: b :: v' => (a, b) :: pairs v'
  | _ => []
  end.

Definition view_K2 {A} (K : nat) (v : list A) : result (list (A * A)) :=
  if (length v =? 2 * K)%nat then Ok (pairs v) else Err RuntimeError.

(** [m.sum(0)] of a matrix given by its rows, [width] columns wide. *)
Definition sum_rows (width : nat) (m : list (list R)) : list R :=
  fold_right (zip_with Rplus) (repeat 0 width) m.

End Row.

(** ** float32 numbers *)

(** What a [float32] tensor entry can hold, and the rounding of a real
    number to the nearest one (ties to the even significand, the IEEE 754
    default): 24 significant bits, exponents from -126 to 127, subnormal
    numbers with the spacing [2^-149] below, and an infinity past the
    largest finite number. [torch.exp] and [torch.tanh] are modelled as
    the correctly rounded functions. *)
Module Float32.
Local Open Scope R_scope.

Inductive t : Type :=
| Finite (x : R)
| PosInf
| NegInf
| NaN.

(** The integer nearest to [x]; of two nearest, the even one. *)
Definition round_half_even (x : R) : Z :=
  let n := Zfloor x in
  let r := x - IZR n in
  if Rlt_dec r (/ 2) then n
  else if Rlt_dec (/ 2) r then (n + 1)%Z
  else if Z.even n then n else (n + 1)%Z.

(** [floor (log2 |x|)]. *)
Definition exponent (x : R) : Z := Zfloor (ln (Rabs x) / ln 2).

(** The spacing of the [float32] numbers around [x]. *)
Definition ulp (x : R) : R := powerRZ 2 (Z.max (exponent x - 23) (-149)).

Definition round (x : R) : t :=
  let y := IZR (round_half_even (x / ulp x)) * ulp x in
  if Rle_dec (powerRZ 2 128) (Rabs y)
  then (if Rlt_dec 0 x then PosInf else NegInf)
  else Finite y.

Definition exp (x : R) : t := round (Rtrigo_def.exp x).
Definition tanh (x : R) : t := round (Rtrigo_def.tanh x).

(** Bounds on a [float32] number; the infinities and NaN are within no
    interval of reals, and NaN is not non-negative. *)
Definition nonnegative (v : t) : Prop :=
  match v with Finite y => 0 <= y | PosInf => True | _ => False end.
Definition strictly_positive (v : t) : Prop :=
  match v with Finite y => 0 < y | _ => False end.
Definition within (a b : R) (v : t) : Prop :=
  match v with Finite y => a <= y <= b | _ => False end.
Definition strictly_within (a b : R) (v : t) : Prop :=
  match v with Finite y => a < y < b | _ => False end.

End Float32.

(** ** The random source *)

(** The two draws [MixtureOfBivariateNormal.sample] makes for one row:
    [multinomial(1)] on a vector of weights and a standard normal number.
    [multinomial] returns the index of an entry whenever the weights are
    positive (torch refuses weights that are negative or all zero). *)
Class RandomSource (Rng : Type) : Type := {
  multinomial : list R -> Rng -> nat * Rng;
  randn : Rng -> R * Rng;
  multinomial_index : forall w g,
    w <> [] -> Forall (fun p => (0 < p)%R) w ->
    fst (multinomial w g) < length w;
}.

(** ** MixtureOfBivariateNormal *)

Module MixtureOfBivariateNormal.
Import Row.
Local Open Scope R_scope.

(** The four tensors of [__init__], at one position of the leading axes:
    what is left is the mixture axis, and the pair of coordinates of [mu]
    and [sigma]. [__init__] stores them unchecked. *)
Record t : Type := {
  log_pi : list R;
  mu : list (R * R);
  sigma : list (R * R);
  rho : list R;
}.

(** Lines 24-32. [x] is the observed point, whose mixture axis has size 1
    ([unsqueeze(-2)] in the caller). *)
Definition log_prob (d : t) (x : R * R) : result R :=
  let x_mu := map (fun m => (fst x - fst m, snd x - snd m)) (mu d) in
  t ← broadcast (fun a s => (fst a / fst s, snd a / snd s)) x_mu (sigma d);
  let t_sq_sum := map (fun p => fst p ^ 2 + snd p ^ 2) t in
  let t_prod := map (fun p => fst p * snd p) t in
  rho_prod ← broadcast Rmult (map (Rmult 2) (rho d)) t_prod;
  Z ← broadcast Rminus t_sq_sum rho_prod;
  num ← broadcast Rdiv (map Ropp Z) (map (fun r => 2 * (1 - r ^ 2)) (rho d));
  let log_sigma_sum := map (fun s => ln (fst s) + ln (snd s)) (sigma d) in
  denom ← broadcast Rplus
             (map (Rplus (ln (2 * PI))) log_sigma_sum)
             (map (fun r => / 2 * ln (1 - r ^ 2)) (rho d));
  log_N ← broadcast Rminus num denom;
  s ← broadcast Rplus (log_pi d) log_N;
  Ok (logsumexp s).

(** Lines 34-48, for one row of the batch. *)
Definition sample {Rng} `{!RandomSource Rng} (d : t) (g : Rng)
    : result ((R * R) * Rng) :=
  let '(index, g) := multinomial (map exp (log_pi d)) g in
  mu ← Py.getitem (mu d) (Z.of_nat index);
  sigma ← Py.getitem (sigma d) (Z.of_nat index);
  rho ← Py.getitem (rho d) (Z.of_nat index);
  let '(mu1, mu2) := mu in
  let '(sigma1, sigma2) := sigma in
  let '(z1, g) := randn g in
  let '(z2, g) := randn g in
  let x1 := mu1 + sigma1 * z1 in
  let mult := z2 * sqrt (1 - rho ^ 2) + z1 * rho in
  let x2 := mu2 + sigma2 * mult in
  Ok ((x1, x2), g).

(** The reference the specification compares [log_prob] with, in its own
    words: the log-density of one component and the logarithm of the plain
    sum of exponentials. *)
Definition Z_ref (x1 x2 mu1 mu2 sigma1 sigma2 rho : R) : R :=
  ((x1 - mu1) / sigma1) ^ 2 + ((x2 - mu2) / sigma2) ^ 2
  - 2 * rho * ((x1 - mu1) / sigma1) * ((x2 - mu2) / sigma2).

Definition log_N_ref (x1 x2 mu1 mu2 sigma1 sigma2 rho : R) : R :=
  - Z_ref x1 x2 mu1 mu2 sigma1 sigma2 rho / (2 * (1 - rho ^ 2))
  - (ln (2 * PI) + ln sigma1 + ln sigma2 + / 2 * ln (1 - rho ^ 2)).

(** The density of a bivariate normal distribution. *)
Definition pdf_ref (x1 x2 mu1 mu2 sigma1 sigma2 rho : R) : R :=
  exp (- Z_ref x1 x2 mu1 mu2 sigma1 sigma2 rho / (2 * (1 - rho ^ 2)))
  / (2 * PI * sigma1 * sigma2 * sqrt (1 - rho ^ 2)).

(** Component [k] of [d], with zeros past the end. *)
Definition component (d : t) (k : nat) : R * (R * R) * (R * R) * R :=
  (nth k (log_pi d) 0, nth k (mu d) (0, 0), nth k (sigma d) (0, 0), nth k (rho d) 0).

(** The terms [log_pi + log_N], one per component, with the log-density
    of the specification. *)
Definition log_terms (d : t) (x : R * R) : list R :=
  map (fun k =>
         let '(w, (mu1, mu2), (sigma1, sigma2), r) := component d k in
         w + log_N_ref (fst x) (snd x) mu1 mu2 sigma1 sigma2 r)
      (seq 0 (length (log_pi d))).

Definition brute_force_ref (d : t) (x : R * R) : R :=
  ln (sum (map (fun k =>
                  let '(w, (mu1, mu2), (sigma1, sigma2), r) := component d k in
                  exp (w + log_N_ref (fst x) (snd x) mu1 mu2 sigma1 sigma2 r))
               (seq 0 (length (log_pi d))))).

Definition mixture_pdf_ref (d : t) (x : R * R) : R :=
  sum (map (fun k =>
              let '(w, (mu1, mu2), (sigma1, sigma2), r) := component d k in
              exp w * pdf_ref (fst x) (snd x) mu1 mu2 sigma1 sigma2 r)
           (seq 0 (length (log_pi d)))).

(** The parameter sets the specification calls valid, with [K] components. *)
Definition valid (K : nat) (d : t) : Prop :=
  length (log_pi d) = K /\ length (mu d) = K /\
  length (sigma d) = K /\ length (rho d) = K /\
  Forall (fun s => 0 < fst s /\ 0 < snd s) (sigma d) /\
  Forall (fun r => -1 < r < 1) (rho d).

End MixtureOfBivariateNormal.

(** ** Seq2Seq: from the decoder output to the mixture parameters *)

Module Seq2SeqRow.
Import Row.
Local Open Scope R_scope.

(** The four tensors handed to [MixtureOfBivariateNormal], at one
    position of the leading axes. [sigma] and [rho] hold the [float32]
    numbers that [torch.exp] and [torch.tanh] return; [log_softmax] is
    taken in exact arithmetic. *)
Record Params : Type := {
  log_pi : list R;
  mu : list (R * R);
  sigma : list (Float32.t * Float32.t);
  rho : list Float32.t;
}.

(** Lines 186-195 of [forward] (and 211-220 of [sample]) on one row [out]
    of the decoder output, for [K] mixture components: the parameters of
    the distribution and the pen-lift logits. *)
Definition mixture_params (K : nat) (out : list R) : result (Params * list R) :=
  parts ← split [2 * K; 2 * K; K; K; 1]%nat out;
  match parts with
  | [mu; sigma; pi; rho; eos] =>
      let sigma := map Float32.exp sigma in
      let rho := map Float32.tanh rho in
      let log_pi := log_softmax pi in
      mu ← view_K2 K mu;
      sigma ← view_K2 K sigma;
      Ok (Build_Params log_pi mu sigma rho, eos)
  | _ => Err ValueError
  end.

End Seq2SeqRow.

(** ** GaussianAttention *)

Module GaussianAttention.
Import Row.
Local Open Scope R_scope.

(** [linear] is [nn.Linear(hidden_size, 3 * n_mixtures)]: whatever its
    weights, its output has [3 * n_mixtures] entries. *)
Record t : Type := {
  n_mixtures : nat;
  linear : list R -> list R;
  linear_out : forall h, length (linear h) = (3 * n_mixtures)%nat;
}.

(** One row of [ctx]: [T] positions of [enc_size] features each. *)
Record Context : Type := {
  enc_size : nat;
  positions : list (list R);
}.

Definition well_shaped (ctx : Context) : Prop :=
  Forall (fun p => length p = enc_size ctx) (positions ctx).

(** Lines 97-108 on one row of the batch. Returns
    [((phi * ctx).sum(1), phi, kappa)]. The three chunks have
    [n_mixtures] entries each; [k_tm1] comes from the caller and is added
    in place. *)
Definition forward (a : t) (h_t k_tm1 : list R) (ctx : Context)
    : result (list R * list R * list R) :=
  let T := length (positions ctx) in
  match chunk 3 (map exp (linear a h_t)) with
  | [alpha; beta; kappa] =>
      kappa ← broadcast_inplace Rplus kappa k_tm1;
      let u := map INR (seq 0 T) in
      let phi :=
        map (fun u_i =>
               let sq := map (fun k => (k - u_i) ^ 2) kappa in
               let e := map exp (zip_with Rmult (map Ropp beta) sq) in
               sum (zip_with Rmult alpha e)) u in
      let weighted := zip_with (fun p_u c_u => map (Rmult p_u) c_u) phi (positions ctx) in
      Ok (sum_rows (enc_size ctx) weighted, phi, kappa)
  | _ => Err ValueError
  end.

(** Successive calls that hand the returned [kappa] to the next call, as
    the decoder's step loop does with [k_tm1]; returns the [kappa] of
    every call. *)
Fixpoint thread (a : t) (calls : list (list R * Context)) (k_tm1 : list R)
    : result (list (list R)) :=
  match calls with
  | [] => Ok []
  | (h_t, ctx) :: calls' =>
      '(_, _, kappa) ← forward a h_t k_tm1 ctx;
      kappas ← thread a calls' kappa;
      Ok (kappa :: kappas)
  end.

(** The three chunks of [exp(linear(h_t))], entry by entry. *)
Definition alpha (a : t) (h_t : list R) (k : nat) : R :=
  exp (nth k (linear a h_t) 0).
Definition beta (a : t) (h_t : list R) (k : nat) : R :=
  exp (nth (n_mixtures a + k) (linear a h_t) 0).
Definition delta_kappa (a : t) (h_t : list R) (k : nat) : R :=
  exp (nth (2 * n_mixtures a + k) (linear a h_t) 0).

(** The window weight of the specification at position [u], for the
    positions [kappa]. *)
Definition phi_ref (a : t) (h_t kappa : list R) (u : nat) : R :=
  sum (map (fun k => alpha a h_t k * exp (- beta a h_t k * (nth k kappa 0 - INR u) ^ 2))
           (seq 0 (n_mixtures a))).

End GaussianAttention.

(** ** Shapes *)

(** The shapes of the tensors of [Seq2Seq.forward]: a shape is the list of
    the sizes of the axes, [[]] for a 0-dimensional tensor (a scalar). *)
Module Shape.

Definition shape : Type := list nat.

Fixpoint broadcast_rev (a b : list nat) : result (list nat) :=
  match a, b with
  | [], _ => Ok b
  | _, [] => Ok a
  | x :: a', y :: b' =>
      rest ← broadcast_rev a' b';
      if x =? y then Ok (x :: rest)
      else if x =? 1 then Ok (y :: rest)
      else if y =? 1 then Ok (x :: rest)
      else Err RuntimeError
  end.

(** The shape of an elementwise operation on two tensors: the axes are
    aligned on the right; sizes agree or one of them is 1. *)
Definition broadcast (a b : shape) : result shape :=
  r ← broadcast_rev (rev a) (rev b);
  Ok (rev r).

(** [sum(-1)], [prod(-1)], [logsumexp(dim=-1)]: the last axis goes. *)
Definition reduce_last (s : shape) : shape := removelast s.

(** [t.split(sizes, -1)]. *)
Definition split_last (sizes : list nat) (s : shape) : result (list shape) :=
  match last s with
  | Some n =>
      if sum_list sizes =? n then Ok (map (fun k => removelast s ++ [k]) sizes)
      else Err RuntimeError
  | None => Err IndexError
  end.

Definition numel (s : shape) : nat := fold_right Nat.mul 1 s.

(** [t.view(new)]: the number of elements must not change. *)
Definition view (new s : shape) : result shape :=
  if numel s =? numel new then Ok new else Err RuntimeError.

(** [t[..., start:stop]] (Python clips a slice to the axis). *)
Definition slice_last (start stop : nat) (s : shape) : result shape :=
  match last s with
  | Some n => Ok (removelast s ++ [Nat.min stop n - Nat.min start n])
  | None => Err IndexError
  end.

(** [t.unsqueeze(-2)]. *)
Definition unsqueeze_m2 (s : shape) : result shape :=
  match last s with
  | Some n => Ok (removelast s ++ [1; n])
  | None => Err IndexError
  end.

(** [t.mean()]: one number, whatever the shape. *)
Definition mean (s : shape) : shape := [].

(** [F.binary_cross_entropy_with_logits(input, target)] with its default
    [reduction='mean']: the sizes must agree; one number. *)
Definition binary_cross_entropy_with_logits (input target : shape) : result shape :=
  if decide (input = target) then Ok [] else Err ValueError.

(** The hyperparameters of [Seq2Seq.__init__] that shapes depend on.
    [dec_layer_n] is the number of cells of [RNNDecoder.layer_n], that is
    [dec_n_layers - 1]: the decoder has [dec_layer_n + 1] layers (one
    built with [dec_n_layers = 0] has empty state lists and raises
    [IndexError] in its first step, whatever the shapes). *)
Record Config : Type := {
  enc_emb_size : nat;
  dec_hidden_size : nat;
  dec_layer_n : nat;
  n_mixtures_attention : nat;
  n_mixtures_output : nat;
}.

Definition dec_n_layers (cfg : Config) : nat := S (dec_layer_n cfg).

(** The shapes of the 2-D and 3-D tensors of the decoder. *)
Definition shape2 : Type := (nat * nat)%type.
Definition shape3 : Type := (nat * nat * nat)%type.

(** [torch.cat(ts, 1)] of 2-D tensors: the numbers of rows must agree;
    the widths add up. *)
Definition cat_1 (ts : list shape2) : result shape2 :=
  match ts with
  | [] => Err ValueError
  | (B, _) :: ts' =>
      if forallb (fun t => fst t =? B) ts'
      then Ok (B, sum_list (map snd ts))
      else Err RuntimeError
  end.

(** [torch.stack(ts, 1)] of 2-D tensors: the shapes must agree. *)
Definition stack_1 (ts : list shape2) : result shape3 :=
  match ts with
  | [] => Err RuntimeError
  | (B, n) :: ts' =>
      if forallb (fun t => bool_decide (t = (B, n))) ts'
      then Ok (B, length ts, n)
      else Err RuntimeError
  end.

(** [nn.LSTMCell(input_size, hidden_size)] on a 2-D input and the two
    states: torch checks the width of the input against [input_size], and
    the states against the number of rows of the input and
    [hidden_size]. *)
Definition lstm_cell (input_size hidden_size : nat)
    (input : shape2) (hx : shape2 * shape2) : result (shape2 * shape2) :=
  let '(B, n) := input in
  if (n =? input_size)
     && bool_decide (fst hx = (B, hidden_size))
     && bool_decide (snd hx = (B, hidden_size))
  then Ok ((B, hidden_size), (B, hidden_size))
  else Err RuntimeError.

(** [nn.Linear(in_features, out_features)] on a 2-D tensor. *)
Definition linear (in_features out_features : nat) (x : shape2) : result shape2 :=
  if snd x =? in_features then Ok (fst x, out_features) else Err RuntimeError.

(** Broadcasting on one axis, and on 3-D tensors; [broadcast3_inplace]
    is the in-place form ([a += b]), which must not change the shape of
    [a]. *)
Definition broadcast_dim (x y : nat) : result nat :=
  if x =? y then Ok x
  else if x =? 1 then Ok y
  else if y =? 1 then Ok x
  else Err RuntimeError.

Definition broadcast3 (a b : shape3) : result shape3 :=
  let '(a0, a1, a2) := a in
  let '(b0, b1, b2) := b in
  d0 ← broadcast_dim a0 b0;
  d1 ← broadcast_dim a1 b1;
  d2 ← broadcast_dim a2 b2;
  Ok (d0, d1, d2).

Definition broadcast3_inplace (a b : shape3) : result shape3 :=
  r ← broadcast3 a b;
  if bool_decide (r = a) then Ok a else Err RuntimeError.

(** The sizes of the pieces of [t.chunk(chunks, -1)] for a last axis of
    size [n] (see [Row.chunk]). *)
Definition chunk_sizes (chunks n : nat) : list nat :=
  let split_size := (n + chunks - 1) / chunks in
  if split_size =? 0 then repeat 0 chunks
  else
    let num_splits := Nat.max ((n + split_size - 1) / split_size) 1 in
    map (fun i => Nat.min split_size (n - i * split_size)) (seq 0 num_splits).

(** The shapes of [RNNDecoder.forward] and of the attention it calls,
    with the carried state. *)
Module Decoder.

(** [(h_tm1, c_tm1, w_tm1, k_tm1)]. *)
Definition State : Type := (list shape2 * list shape2 * shape2 * shape3)%type.

(** Lines 97-108: [GaussianAttention.forward(h_t, k_tm1, ctx)]. *)
Definition attention (cfg : Config) (h_t : shape2) (k_tm1 ctx : shape3)
    : result (shape2 * shape3 * shape3) :=
  let '(B, T, _) := ctx in
  e ← linear (dec_hidden_size cfg) (3 * n_mixtures_attention cfg) h_t;
  let '(Bh, n) := e in
  match chunk_sizes 3 n with
  | [a; b; k] =>
      let alpha := (Bh, 1, a) in
      let beta := (Bh, 1, b) in
      let kappa := (Bh, 1, k) in
      kappa ← broadcast3_inplace kappa k_tm1;
      let u := (B, T, 1) in
      d ← broadcast3 kappa u;
      d ← broadcast3 beta d;
      phi ← broadcast3 alpha d;
      let '(Bp, Tp, _) := phi in
      let phi := (Bp, Tp, 1) in
      weighted ← broadcast3 phi ctx;
      let '(Bw, _, E) := weighted in
      Ok ((Bw, E), phi, kappa)
  | _ => Err ValueError
  end.

(** The cells of [layer_n]: [nn.LSTMCell(3 + enc_size + hidden_size,
    hidden_size)], [n_layers - 1] of them. *)
Definition layer_n (cfg : Config)
    : list (shape2 -> shape2 * shape2 -> result (shape2 * shape2)) :=
  repeat (lstm_cell (3 + enc_emb_size cfg + dec_hidden_size cfg) (dec_hidden_size cfg))
         (dec_layer_n cfg).

(** Lines 136-142. *)
Definition entry_state (cfg : Config) (bsz : nat) (prev_states : option State) : State :=
  match prev_states with
  | None =>
      (repeat (bsz, dec_hidden_size cfg) (dec_n_layers cfg),
       repeat (bsz, dec_hidden_size cfg) (dec_n_layers cfg),
       (bsz, enc_emb_size cfg),
       (bsz, 1, n_mixtures_attention cfg))
  | Some st => st
  end.

(** Lines 153-157. *)
Fixpoint layers_loop (x_t w_tm1 : shape2) (j : nat)
    (zipped : list ((shape2 -> shape2 * shape2 -> result (shape2 * shape2))
                    * shape2 * shape2))
    (h_tm1 c_tm1 : list shape2) : result (list shape2 * list shape2) :=
  match zipped with
  | [] => Ok (h_tm1, c_tm1)
  | (layer, prev_h, prev_c) :: zipped' =>
      h_jm1 ← Py.getitem h_tm1 (Z.of_nat j - 1);
      input ← cat_1 [x_t; w_tm1; h_jm1];
      '(h_j, c_j) ← layer input (prev_h, prev_c);
      h_tm1 ← Py.setitem h_tm1 (Z.of_nat j) h_j;
      c_tm1 ← Py.setitem c_tm1 (Z.of_nat j) c_j;
      layers_loop x_t w_tm1 (S j) zipped' h_tm1 c_tm1
  end.

(** Lines 146-160. The arguments of a call are evaluated from left to
    right: [torch.cat] runs before [h_tm1[0]] is read. *)
Definition step (cfg : Config) (context : shape3) (st : State) (x_t : shape2)
    : result (shape2 * State) :=
  let '(h_tm1, c_tm1, w_tm1, k_tm1) := st in
  input ← cat_1 [x_t; w_tm1];
  h0 ← Py.getitem h_tm1 0;
  c0 ← Py.getitem c_tm1 0;
  '(h0', c0') ← lstm_cell (3 + enc_emb_size cfg) (dec_hidden_size cfg) input (h0, c0);
  h_tm1 ← Py.setitem h_tm1 0 h0';
  c_tm1 ← Py.setitem c_tm1 0 c0';
  h0 ← Py.getitem h_tm1 0;
  '(w_tm1, phi, k_tm1) ← attention cfg h0 k_tm1 context;
  '(h_tm1, c_tm1) ← layers_loop x_t w_tm1 0
      (Py.zip3 (layer_n cfg) (drop 1 h_tm1) (drop 1 c_tm1)) h_tm1 c_tm1;
  hs ← cat_1 h_tm1;
  out ← linear (dec_hidden_size cfg * dec_n_layers cfg)
               (n_mixtures_output cfg * 6 + 1) hs;
  Ok (out, (h_tm1, c_tm1, w_tm1, k_tm1)).

Fixpoint steps_loop (cfg : Config) (context : shape3) (xs : list shape2)
    (st : State) (outputs : list shape2) : result (list shape2 * State) :=
  match xs with
  | [] => Ok (outputs, st)
  | x_t :: xs' =>
      '(out, st) ← step cfg context st x_t;
      steps_loop cfg context xs' st (outputs ++ [out])
  end.

(** Lines 133-162, for [strokes] of shape [(B, T, F)]: [unbind(1)] gives
    [T] tensors of shape [(B, F)]. *)
Definition forward (cfg : Config) (strokes context : shape3)
    (prev_states : option State) : result (shape3 * State) :=
  let '(B, T, F) := strokes in
  let st := entry_state cfg B prev_states in
  '(outputs, st) ← steps_loop cfg context (repeat (B, F) T) st [];
  out ← stack_1 outputs;
  Ok (out, st).

End Decoder.

(** [RNNDecoder.forward(strokes, ctx)[0]] for 3-D [strokes] and [ctx]. *)
Definition dec (cfg : Config) (strokes ctx : shape) : result shape :=
  match strokes, ctx with
  | [B; T; F], [B'; L; E] =>
      '(out, _) ← Decoder.forward cfg (B, T, F) (B', L, E) None;
      let '(B, T, n) := out in
      Ok [B; T; n]
  | _, _ => Err RuntimeError
  end.

(** Lines 24-32: the shape of [MixtureOfBivariateNormal.log_prob(x)]. *)
Definition log_prob (log_pi mu sigma rho x : shape) : result shape :=
  x_mu ← broadcast x mu;
  t ← broadcast x_mu sigma;
  rho_prod ← broadcast rho (reduce_last t);
  Z ← broadcast (reduce_last t) rho_prod;
  num ← broadcast Z rho;
  denom ← broadcast (reduce_last sigma) rho;
  log_N ← broadcast num denom;
  s ← broadcast log_pi log_N;
  Ok (reduce_last s).

(** Lines 180-198: the shapes of the two values [Seq2Seq.forward]
    returns. *)
Definition forward (cfg : Config) (strokes chars chars_mask : shape)
    : result (shape * shape) :=
  let K := n_mixtures_output cfg in
  ctx ← broadcast (chars ++ [enc_emb_size cfg]) (chars_mask ++ [1]);
  out ← dec cfg strokes ctx;
  parts ← split_last [2 * K; 2 * K; K; K; 1] out;
  match parts with
  | [mu; sigma; pi; rho; eos] =>
      let log_pi := pi in
      mu ← view (take 2 mu ++ [K; 2]) mu;
      sigma ← view (take 2 sigma ++ [K; 2]) sigma;
      xy ← slice_last 0 2 strokes;
      x ← unsqueeze_m2 xy;
      stroke_loss ← log_prob log_pi mu sigma rho x;
      pen ← slice_last 2 3 strokes;
      eos_loss ← binary_cross_entropy_with_logits eos pen;
      Ok (mean stroke_loss, eos_loss)
  | _ => Err ValueError
  end.

End Shape.

(** ** SimpleEncoder and the masked context *)

Module SimpleEncoder.
Local Open Scope R_scope.

(** [nn.Embedding(vocab_size, emb_size)]: [weight] lists the [vocab_size]
    rows of the table. *)
Record t : Type := {
  emb_size : nat;
  weight : list (list R);
}.

Definition vocab_size (enc : t) : nat := length (weight enc).

Definition well_shaped (enc : t) : Prop :=
  Forall (fun row => length row = emb_size enc) (weight enc).

(** [self.emb(src)] on one row of token ids: a token outside the table is
    an [IndexError]. *)
Fixpoint emb (enc : t) (src : list nat) : result (list (list R)) :=
  match src with
  | [] => Ok []
  | token :: src' =>
      row ← Py.getitem (weight enc) (Z.of_nat token);
      rows ← emb enc src';
      Ok (row :: rows)
  end.

(** Lines 56-57: the mask is not used. *)
Definition forward (enc : t) (src : list nat) (mask : list R) : result (list (list R)) :=
  emb enc src.

(** Line 183 (and 203) on one row of the batch:
    [self.enc(chars, chars_mask) * chars_mask.unsqueeze(-1)]. *)
Definition masked_context (enc : t) (chars : list nat) (chars_mask : list R)
    : result GaussianAttention.Context :=
  e ← forward enc chars chars_mask;
  ctx ← Row.broadcast (fun row mask_u => map (fun y => y * mask_u) row) e chars_mask;
  Ok {| GaussianAttention.enc_size := emb_size enc; GaussianAttention.positions := ctx |}.

End SimpleEncoder.

(** ** RNNEncoder: sorting a batch by length and back *)

Module RNNEncoder.
Local Open Scope R_scope.

#[global] Instance Rle_decision (x y : R) : Decision (x <= y) := Rle_dec x y.

(** The entries of a vector with their positions. *)
Definition indexed {A} (v : list A) : list (A * nat) := zip v (seq 0 (length v)).

(** [torch.sort(v, 0, descending=True)]: the sorted values and, for each,
    the position it came from. torch leaves the order of equal values
    open; this model orders them as a merge sort does. *)
Definition value_ge (p q : R * nat) : Prop := fst q <= fst p.
#[global] Instance value_ge_dec : RelDecision value_ge :=
  fun p q => Rle_dec (fst q) (fst p).

Definition sort_descending (v : list R) : list R * list nat :=
  let s := merge_sort value_ge (indexed v) in
  (map fst s, map snd s).

(** [torch.argsort(v, 0)] of a vector of indices. *)
Definition value_le (p q : nat * nat) : Prop := (fst p <= fst q)%nat.
#[global] Instance value_le_dec : RelDecision value_le :=
  fun p q => decide (fst p <= fst q)%nat.

Definition argsort (v : list nat) : list nat :=
  map snd (merge_sort value_le (indexed v)).

(** [src[idx]]: the rows of [src] at the positions [idx]; a position
    outside [src] is an [IndexError]. *)
Fixpoint gather {A} (src : list A) (idx : list nat) : result (list A) :=
  match idx with
  | [] => Ok []
  | i :: idx' =>
      row ← Py.getitem src (Z.of_nat i);
      rows ← gather src idx';
      Ok (row :: rows)
  end.

(** Lines 71-73. [mask] lists the rows of the mask; [mask.sum(-1)] is the
    length of each sequence. *)
Definition sort {A} (src : list A) (mask : list (list R))
    : result (list A * list R * list nat) :=
  let '(lengths, idx) := sort_descending (map Row.sum mask) in
  sorted ← gather src idx;
  Ok (sorted, lengths, idx).

(** Lines 75-77. *)
Definition unsort {A} (src : list A) (idx : list nat) : result (list A) :=
  let idx := argsort idx in
  gather src idx.

End RNNEncoder.

(** ** utils.py *)

Module Utils.

(** *** concatenate_dict *)

(** The lists that are the values of [main_dict] are objects on the heap:
    two keys may hold the same list. [main_dict] is its keys, in
    iteration order, with the list each one refers to; [new_dict] maps
    keys to the values to append. *)
Abbreviation heap V := (gmap nat (list V)).
Abbreviation dict_of_lists K := (list (K * nat)).

Section ConcatenateDict.
Context {K V : Type} `{Countable K}.

(** Lines 5-7. Returns the heap when the function ends and, if it ended
    with a [KeyError], the key that raised it. [main_dict[key] += [v]]
    extends the list object in place. *)
Fixpoint concatenate_dict (main_dict : dict_of_lists K) (new_dict : gmap K V)
    (hp : heap V) : heap V * option K :=
  match main_dict with
  | [] => (hp, None)
  | (key, l) :: main_dict' =>
      match new_dict !! key with
      | None => (hp, Some key)
      | Some v => concatenate_dict main_dict' new_dict (alter (fun old => old ++ [v]) l hp)
      end
  end.

End ConcatenateDict.

(** *** draw *)

Local Open Scope R_scope.

(** A row of [offsets]: column 0 is the end-of-stroke flag, columns 1 and 2
    the offsets in x and y. *)
Definition Row3 : Type := (R * R * R)%type.

(** [np.cumsum(offsets[:, 1:], axis=0)], started from [acc]. *)
Fixpoint cumsum_from (acc : R * R) (xy : list (R * R)) : list (R * R) :=
  match xy with
  | [] => []
  | (dx, dy) :: xy' =>
      let acc' := (fst acc + dx, snd acc + dy) in
      acc' :: cumsum_from acc' xy'
  end.

(** Lines 30-33: the flag of every row with the position reached. *)
Definition positions (offsets : list Row3) : list Row3 :=
  zip_with (fun row p => (fst (fst row), fst p, snd p))
    offsets
    (cumsum_from (0, 0) (map (fun row => (snd (fst row), snd row)) offsets)).

(** The unzipping of [stroke] into [xs, ys] and [ax.plot(xs, ys, ...)]: the call is
    recorded as the two coordinate lists; unpacking the zip of an empty
    list is a [ValueError]. *)
Definition plot (stroke : list (R * R)) : result (list R * list R) :=
  match stroke with
  | [] => Err ValueError
  | _ => Ok (map fst stroke, map snd stroke)
  end.

(** Lines 37-44: the loop over the rows, with the points of the stroke
    under way and the calls of [ax.plot] made so far. *)
Fixpoint draw_loop (rows : list Row3) (stroke : list (R * R))
    (plots : list (list R * list R)) : result (list (R * R) * list (list R * list R)) :=
  match rows with
  | [] => Ok (stroke, plots)
  | (eos, x, y) :: rows' =>
      let stroke := stroke ++ [(x, y)] in
      if Req_dec_T eos 1 then
        p ← plot stroke;
        draw_loop rows' [] (plots ++ [p])
      else draw_loop rows' stroke plots
  end.

(** Lines 30-50 of [draw]: the calls of [ax.plot], in order. *)
Definition draw (offsets : list Row3) : result (list (list R * list R)) :=
  '(stroke, plots) ← draw_loop (positions offsets) [] [];
  match stroke with
  | [] => Ok plots
  | _ => p ← plot stroke; Ok (plots ++ [p])
  end.

End Utils.

(* ================================================================== *)
(** * Part II: properties                                               *)
(* ================================================================== *)

(** ** Python lists *)

Module PyFacts.
Import Py.

Lemma getitem_nat {A} (l : list A) (i : nat) (x : A) :
  l !! i = Some x -> getitem l (Z.of_nat i) = Ok x.
Proof.
  intros Hx. unfold getitem, norm_index.
  destruct (Z.ltb_spec (Z.of_nat i) 0) as [?|_]; [lia|].
  destruct (Z.ltb_spec (Z.of_nat i) 0) as [?|_]; [lia|].
  rewrite Nat2Z.id, Hx. reflexivity.
Qed.

Lemma getitem_pred {A} (l : list A) (j : nat) (x : A) :
  l !! j = Some x -> getitem l (Z.of_nat (S j) - 1) = Ok x.
Proof.
  intros Hx. replace (Z.of_nat (S j) - 1)%Z with (Z.of_nat j) by lia.
  now apply getitem_nat.
Qed.

(** [l[-1]] is the last element. *)
Lemma getitem_minus_one {A} (l : list A) (x : A) :
  l !! (length l - 1) = Some x -> getitem l (-1) = Ok x.
Proof.
  intros Hx. pose proof (lookup_lt_Some _ _ _ Hx) as Hlt.
  unfold getitem, norm_index.
  change (-1 <? 0)%Z with true. cbv iota.
  destruct (Z.ltb_spec (-1 + Z.of_nat (length l)) 0) as [?|_]; [lia|].
  replace (Z.to_nat (-1 + Z.of_nat (length l))) with (length l - 1) by lia.
  rewrite Hx. reflexivity.
Qed.

Lemma setitem_nat {A} (l : list A) (i : nat) (x : A) :
  i < length l -> setitem l (Z.of_nat i) x = Ok (<[i := x]> l).
Proof.
  intros Hi. unfold setitem, norm_index.
  destruct (Z.ltb_spec (Z.of_nat i) 0) as [?|_]; [lia|].
  destruct (Z.ltb_spec (Z.of_nat i) 0) as [?|_]; [lia|].
  destruct (Z.ltb_spec (Z.of_nat i) (Z.of_nat (length l))) as [_|?]; [|lia].
  rewrite Nat2Z.id. reflexivity.
Qed.

Lemma getitem_0 {A} (l : list A) (x : A) :
  l !! 0 = Some x -> getitem l 0 = Ok x.
Proof. exact (getitem_nat l 0 x). Qed.

Lemma setitem_0 {A} (l : list A) (x : A) :
  0 < length l -> setitem l 0 x = Ok (<[0 := x]> l).
Proof. exact (setitem_nat l 0 x). Qed.

Lemma length_zip3 {A B C} (a : list A) (b : list B) (c : list C) :
  length (zip3 a b c) = Nat.min (Nat.min (length a) (length b)) (length c).
Proof. unfold zip3. now rewrite !length_zip_with. Qed.

End PyFacts.

(** ** RNNDecoder: which entries of the carried state a step writes *)

Module RNNDecoderFacts.
Import Py PyFacts RNNDecoder.
Section Decoder.
Context {Tensor Rng : Type} `{!Torch Tensor Rng}.
Implicit Types (d : RNNDecoder.t Tensor) (h c : list Tensor).

(** The inner loop writes the entries [j .. j + m - 1] of both lists,
    [m] being the length of the zip, and nothing else. *)
Lemma layers_loop_frame x w zipped : forall m j h c,
  length zipped = m ->
  j + m < length h ->
  j + m < length c ->
  exists h' c',
    layers_loop x w j zipped h c = Ok (h', c') /\
    length h' = length h /\ length c' = length c /\
    (forall i, j + m <= i -> h' !! i = h !! i) /\
    (forall i, j + m <= i -> c' !! i = c !! i).
Proof.
  induction zipped as [|[[layer prev_h] prev_c] zipped IH]; intros m j h c Hm Hh Hc.
  - exists h, c. simpl. auto.
  - destruct m as [|m]; [discriminate Hm|]. injection Hm as Hm.
    cbn [layers_loop].
    assert (exists hp, getitem h (Z.of_nat j - 1) = Ok hp) as [hp Hp].
    { destruct j as [|j].
      - destruct (lookup_lt_is_Some_2 h (length h - 1)) as [hp Hp]; [lia|].
        exists hp. now apply getitem_minus_one.
      - destruct (lookup_lt_is_Some_2 h j) as [hp Hp]; [lia|].
        exists hp. now apply getitem_pred. }
    rewrite Hp. cbn [mbind result_bind].
    destruct (layer _ _) as [h_j c_j].
    rewrite !setitem_nat by lia. cbn [mbind result_bind].
    destruct (IH m (S j) (<[j:=h_j]> h) (<[j:=c_j]> c)) as (h' & c' & Hrun & Lh & Lc & Fh & Fc).
    { exact Hm. }
    { rewrite length_insert. lia. }
    { rewrite length_insert. lia. }
    exists h', c'. rewrite Hrun. rewrite length_insert in Lh, Lc.
    repeat split; try assumption.
    + intros i Hi. rewrite Fh by lia. apply list_lookup_insert_ne. lia.
    + intros i Hi. rewrite Fc by lia. apply list_lookup_insert_ne. lia.
Qed.

(** One time step on a state with [n_layers] entries: it returns, keeps
    the two lists at [n_layers] entries, projects the concatenation of the
    new hidden list, and leaves every entry from [max 1 (n_layers - 1)] on
    as it was. *)
Lemma step_frame d n_layers context h c w k x :
  1 <= n_layers ->
  length (layer_n d) = n_layers - 1 ->
  length h = n_layers -> length c = n_layers ->
  exists h' c' w' k',
    step d context (h, c, w, k) x = Ok (output d (cat h'), (h', c', w', k')) /\
    length h' = n_layers /\ length c' = n_layers /\
    (forall i, 1 <= i -> n_layers - 1 <= i -> h' !! i = h !! i) /\
    (forall i, 1 <= i -> n_layers - 1 <= i -> c' !! i = c !! i).
Proof.
  intros Hn Hl Hh Hc. unfold step.
  destruct (lookup_lt_is_Some_2 h 0) as [h0 Hh0]; [lia|].
  destruct (lookup_lt_is_Some_2 c 0) as [c0 Hc0]; [lia|].
  rewrite (getitem_0 h h0 Hh0), (getitem_0 c c0 Hc0). cbn [mbind result_bind].
  destruct (layer_0 d _ _) as [h0' c0'].
  rewrite (setitem_0 h), (setitem_0 c) by lia. cbn [mbind result_bind].
  rewrite (getitem_0 _ h0') by (apply list_lookup_insert_eq; lia).
  cbn [mbind result_bind].
  destruct (attention d _ _ _) as [[w' phi] k'].
  set (h1 := <[0:=h0']> h). set (c1 := <[0:=c0']> c).
  set (zipped := zip3 _ _ _).
  assert (length zipped = n_layers - 1) as Hz.
  { unfold zipped. rewrite length_zip3, !length_drop. unfold h1, c1.
    rewrite !length_insert. lia. }
  destruct (layers_loop_frame x w' zipped (n_layers - 1) 0 h1 c1) as (h' & c' & Hrun & Lh & Lc & Fh & Fc).
  { exact Hz. }
  { unfold h1. rewrite length_insert. lia. }
  { unfold c1. rewrite length_insert. lia. }
  rewrite Hrun. cbn [mbind result_bind].
  unfold h1, c1 in *. rewrite length_insert in Lh, Lc.
  exists h', c', w', k'. repeat split; try lia.
  - intros i H1 Hi. rewrite Fh by lia. apply list_lookup_insert_ne. lia.
  - intros i H1 Hi. rewrite Fc by lia. apply list_lookup_insert_ne. lia.
Qed.

(** What every output of a run looks like: the projection of a hidden
    list whose entries from [max 1 (n_layers - 1)] on are those of [h]. *)
Definition projects_frozen d n_layers h (o : Tensor) : Prop :=
  exists hs, o = output d (cat hs) /\ length hs = n_layers /\
    forall i, 1 <= i -> n_layers - 1 <= i -> hs !! i = h !! i.

Lemma steps_loop_frame d n_layers context xs : forall h c w k outputs,
  1 <= n_layers ->
  length (layer_n d) = n_layers - 1 ->
  length h = n_layers -> length c = n_layers ->
  exists outs h' c' w' k',
    steps_loop d context xs (h, c, w, k) outputs = Ok (outputs ++ outs, (h', c', w', k')) /\
    length outs = length xs /\
    Forall (projects_frozen d n_layers h) outs /\
    length h' = n_layers /\ length c' = n_layers /\
    (forall i, 1 <= i -> n_layers - 1 <= i -> h' !! i = h !! i) /\
    (forall i, 1 <= i -> n_layers - 1 <= i -> c' !! i = c !! i).
Proof.
  induction xs as [|x xs IH]; intros h c w k outputs Hn Hl Hh Hc.
  - exists [], h, c, w, k. cbn. rewrite app_nil_r. repeat split; auto.
  - cbn [steps_loop].
    destruct (step_frame d n_layers context h c w k x Hn Hl Hh Hc)
      as (h1 & c1 & w1 & k1 & Hstep & Lh & Lc & Fh & Fc).
    rewrite Hstep. cbn [mbind result_bind].
    destruct (IH h1 c1 w1 k1 (outputs ++ [output d (cat h1)]) Hn Hl Lh Lc)
      as (outs & h' & c' & w' & k' & Hrun & Lo & Fo & Lh' & Lc' & Fh' & Fc').
    exists (output d (cat h1) :: outs), h', c', w', k'.
    rewrite Hrun, <- app_assoc. cbn [app length].
    repeat split; auto.
    + constructor.
      * exists h1. auto.
      * eapply Forall_impl; [exact Fo|].
        intros o (hs & -> & Ls & Fs). exists hs. repeat split; auto.
        intros i H1 Hi. rewrite Fs by lia. auto.
    + intros i H1 Hi. rewrite Fh' by lia. auto.
    + intros i H1 Hi. rewrite Fc' by lia. auto.
Qed.

(** A call on at least one time step returns, with one output per step
    and the state lists as long as on entry. *)
Lemma forward_frame d n_layers strokes context prev_states h c w k :
  1 <= n_layers ->
  length (layer_n d) = n_layers - 1 ->
  entry_state d (size0 strokes) prev_states = (h, c, w, k) ->
  length h = n_layers -> length c = n_layers ->
  1 <= length (unbind1 strokes) ->
  exists out h' c' w' k',
    forward d strokes context prev_states = Ok (out, (h', c', w', k')) /\
    length (unbind1 out) = length (unbind1 strokes) /\
    Forall (projects_frozen d n_layers h) (unbind1 out) /\
    length h' = n_layers /\ length c' = n_layers /\
    (forall i, 1 <= i -> n_layers - 1 <= i -> h' !! i = h !! i) /\
    (forall i, 1 <= i -> n_layers - 1 <= i -> c' !! i = c !! i).
Proof.
  intros Hn Hl He Hh Hc Hs. unfold forward. rewrite He.
  destruct (steps_loop_frame d n_layers context (unbind1 strokes) h c w k [] Hn Hl Hh Hc)
    as (outs & h' & c' & w' & k' & Hrun & Lo & Fo & Lh' & Lc' & Fh' & Fc').
  rewrite Hrun. cbn [mbind result_bind app].
  destruct outs as [|o outs]; [cbn in Lo; lia|].
  cbn [stack1 mbind result_bind].
  eexists _, h', c', w', k'. split; [reflexivity|]. cbn [unbind1].
  repeat split; auto.
Qed.

(** C7. With at least two layers, a call on one or more time steps
    returns and never writes the last layer's entry of the carried state:
    the returned hidden and cell lists hold at index [n_layers - 1] what
    they held on entry (the repeated rows of [h_0] and [c_0] when the call
    starts from no state), and every step's output is the projection of a
    hidden list whose last entry is that entry value. *)
Theorem last_layer_state_never_written d n_layers strokes context prev_states h c w k :
  2 <= n_layers ->
  length (layer_n d) = n_layers - 1 ->
  entry_state d (size0 strokes) prev_states = (h, c, w, k) ->
  length h = n_layers -> length c = n_layers ->
  1 <= length (unbind1 strokes) ->
  exists out h' c' w' k',
    forward d strokes context prev_states = Ok (out, (h', c', w', k')) /\
    h' !! (n_layers - 1) = h !! (n_layers - 1) /\
    c' !! (n_layers - 1) = c !! (n_layers - 1) /\
    (prev_states = None ->
       h !! (n_layers - 1) = repeat_rows (size0 strokes) <$> h_0 d !! (n_layers - 1) /\
       c !! (n_layers - 1) = repeat_rows (size0 strokes) <$> c_0 d !! (n_layers - 1)) /\
    length (unbind1 out) = length (unbind1 strokes) /\
    Forall (fun o => exists hs, o = output d (cat hs) /\ length hs = n_layers /\
                       hs !! (n_layers - 1) = h !! (n_layers - 1))
           (unbind1 out).
Proof.
  intros Hn Hl He Hh Hc Hs.
  destruct (forward_frame d n_layers strokes context prev_states h c w k)
    as (out & h' & c' & w' & k' & Hrun & Lo & Fo & _ & _ & Fh & Fc);
    try assumption; try lia.
  exists out, h', c', w', k'. repeat split.
  - exact Hrun.
  - apply Fh; lia.
  - apply Fc; lia.
  - subst prev_states. cbn in He. injection He as <- _ _ _.
    apply list_lookup_fmap.
  - subst prev_states. cbn in He. injection He as _ <- _ _.
    apply list_lookup_fmap.
  - exact Lo.
  - eapply Forall_impl; [exact Fo|].
    intros o (hs & -> & Ls & Fs). exists hs. repeat split; auto.
    apply Fs; lia.
Qed.

End Decoder.
End RNNDecoderFacts.

(** ** The decoder on concrete inputs *)

Module RNNDecoderRuns.
Import RNNDecoder RNNDecoderFacts.
Local Open Scope string_scope.

(** The first step of a two-layer decoder: the entry state, the hidden
    state layer 0 computes, and the context vector the attention returns. *)
Definition H (i : nat) : Sym.tensor := Sym.Op "repeat" [Sym.Num 1; Sym.Op "h_0" [Sym.Num i]].
Definition C (i : nat) : Sym.tensor := Sym.Op "repeat" [Sym.Num 1; Sym.Op "c_0" [Sym.Num i]].
Definition W0 : Sym.tensor := Sym.Op "repeat" [Sym.Num 1; Sym.Leaf "w_0"].
Definition K0 : Sym.tensor := Sym.Op "repeat" [Sym.Num 1; Sym.Leaf "k_0"].
Definition x : Sym.tensor := Sym.Leaf "x".
Definition ctx : Sym.tensor := Sym.Leaf "ctx".
Definition h0_new : Sym.tensor := fst (Sym.lstm 0 (cat [x; W0]) (H 0, C 0)).
Definition w_new : Sym.tensor := Sym.Op "attention.w" [h0_new; K0; ctx].

(** The hidden list the specification describes after that step: layer 0's
    new state, then layer 1 run on [x, w, h0_new] from its previous
    state. *)
Definition h_specified : list Sym.tensor :=
  [h0_new; fst (Sym.lstm 1 (cat [x; w_new; h0_new]) (H 1, C 1))].

(** The hidden list the code returns: the cell of layer 1 is run on
    [x, w, h_tm1[-1]], that is on the last layer's own entry state, and
    its result is stored at index 0, over layer 0's new state. *)
Definition h_returned : list Sym.tensor :=
  [fst (Sym.lstm 1 (cat [x; w_new; H 1]) (H 1, C 1)); H 1].

Definition c_returned : list Sym.tensor :=
  [snd (Sym.lstm 1 (cat [x; w_new; H 1]) (H 1, C 1)); C 1].

Definition k_new : Sym.tensor := Sym.Op "attention.kappa" [h0_new; K0; ctx].

(** C1 (the code at a failing input). With two layers and one time step,
    the cell of layer 1 does not consume the current step's h_0 and does
    not produce the new (h_1, c_1): the returned hidden list is
    [h_returned], not [h_specified]. *)
Theorem layer_loop_index_off_by_one :
  forward (Sym.decoder 2) (Sym.one_step x) ctx None
    = Ok ({| size0 := 1; unbind1 := [Sym.Op "output" [cat h_returned]] |},
          (h_returned, c_returned, w_new, k_new)) /\
  h_returned <> h_specified.
Proof. split; [reflexivity | discriminate]. Qed.

(** The frame property at that input: index 1 of both lists is untouched
    and the frozen [H 1] is what the output projection sees. *)
Lemma last_layer_state_never_written_witness :
  exists out h' c' w' k',
    forward (Sym.decoder 2) (Sym.one_step x) ctx None = Ok (out, (h', c', w', k')) /\
    h' !! (2 - 1) = [H 0; H 1] !! (2 - 1) /\
    c' !! (2 - 1) = [C 0; C 1] !! (2 - 1) /\
    (@None (State Sym.tensor) = None ->
       [H 0; H 1] !! (2 - 1)
         = repeat_rows (size0 (Sym.one_step x)) <$> h_0 (Sym.decoder 2) !! (2 - 1) /\
       [C 0; C 1] !! (2 - 1)
         = repeat_rows (size0 (Sym.one_step x)) <$> c_0 (Sym.decoder 2) !! (2 - 1)) /\
    length (unbind1 out) = length (unbind1 (Sym.one_step x)) /\
    Forall (fun o => exists hs, o = output (Sym.decoder 2) (cat hs) /\ length hs = 2 /\
                       hs !! (2 - 1) = [H 0; H 1] !! (2 - 1))
           (unbind1 out).
Proof.
  apply (last_layer_state_never_written (Sym.decoder 2) 2 (Sym.one_step x) ctx None
           [H 0; H 1] [C 0; C 1] W0 K0).
  - lia.
  - reflexivity.
  - reflexivity.
  - reflexivity.
  - reflexivity.
  - simpl. lia.
Defined.

End RNNDecoderRuns.

(** ** Seq2Seq.sample: what the returned sequence holds *)

Module Seq2SeqFacts.
Import RNNDecoder RNNDecoderFacts Seq2Seq.
Section Model.
Context {Tensor Rng : Type} `{!Torch Tensor Rng}.
Variable mixture_sample : Tensor -> Tensor -> Tensor -> Tensor -> Rng -> Tensor * Rng.
Variable m : Seq2Seq.t Tensor.
Variable n_layers : nat.
Variable ctx : Tensor.
Hypothesis n_layers_pos : 1 <= n_layers.
Hypothesis dec_built : built_with n_layers (dec m).

Abbreviation Loop := (Seq2Seq.Loop Tensor Rng).
Abbreviation next_point := (Seq2Seq.next_point mixture_sample m ctx).
Abbreviation sample_body := (Seq2Seq.sample_body mixture_sample m ctx).
Abbreviation sample_loop := (Seq2Seq.sample_loop mixture_sample m ctx).

(** A 3-D tensor with exactly one time step. *)
Definition one_point (s : Seq Tensor) : Prop := exists p, unbind1 s = [p].

(** What holds of the loop variables at the top of every iteration. *)
Definition loop_inv (l : Loop) : Prop :=
  one_point (x_t l) /\
  match prev_states l with
  | None => True
  | Some (h, c, _, _) => length h = n_layers /\ length c = n_layers
  end.

Lemma next_point_ok (l : Loop) :
  loop_inv l ->
  exists p h c w k g,
    next_point l = Ok (unsqueeze1 p, (h, c, w, k), g) /\
    length h = n_layers /\ length c = n_layers.
Proof using n_layers_pos dec_built.
  intros [[x Hx] Hst]. destruct dec_built as (Hl & Hh0 & Hc0).
  unfold Seq2Seq.next_point.
  destruct (entry_state (dec m) (size0 (x_t l)) (prev_states l)) as [[[h c] w] k] eqn:He.
  destruct (forward_frame (dec m) n_layers (x_t l) ctx (prev_states l) h c w k)
    as (out & h' & c' & w' & k' & Hrun & Lo & _ & Lh & Lc & _); try assumption.
  - destruct (prev_states l) as [[[[h1 c1] w1] k1]|]; cbn in He.
    + injection He as -> -> -> ->. tauto.
    + injection He as <- _ _ _. now rewrite length_map.
  - destruct (prev_states l) as [[[[h1 c1] w1] k1]|]; cbn in He.
    + injection He as -> -> -> ->. tauto.
    + injection He as _ <- _ _. now rewrite length_map.
  - rewrite Hx. cbn. lia.
  - rewrite Hrun. cbn [mbind result_bind].
    rewrite Hx in Lo. cbn in Lo.
    destruct out as [b [|o [|o' outs]]]; cbn in Lo; try lia.
    cbn [squeeze1 unbind1 mbind result_bind].
    destruct (split5 _ o) as [[[[mu sigma] pi] rho] eos].
    destruct (mixture_sample _ _ _ _ _) as [xy g1].
    destruct (bernoulli _ g1) as [pen g2].
    eexists _, h', c', w', k', g2. split; [reflexivity|]. auto.
Qed.

Lemma sample_body_ok (l : Loop) :
  loop_inv l ->
  exists l' st,
    sample_body l = Ok l' /\ loop_inv l' /\
    strokes l' = strokes l ++ [x_t l] /\
    next_point l = Ok (x_t l', st, rng l').
Proof using n_layers_pos dec_built.
  intros Hl. destruct (next_point_ok l Hl) as (p & h & c & w & k & g & Hp & Lh & Lc).
  unfold Seq2Seq.sample_body. rewrite Hp. cbn [mbind result_bind].
  eexists _, _. split; [reflexivity|]. cbn. repeat split; auto.
  exists p. reflexivity.
Qed.

(** [n + 1] iterations are [n] iterations followed by one more. *)
Lemma sample_loop_S n : forall l,
  sample_loop (S n) l = (l' ← sample_loop n l; sample_body l').
Proof.
  induction n as [|n IH]; intros l.
  - cbn. destruct (sample_body l); reflexivity.
  - change (sample_loop (S (S n)) l) with (l1 ← sample_body l; sample_loop (S n) l1).
    change (sample_loop (S n) l) with (l1 ← sample_body l; sample_loop n l1).
    destruct (sample_body l) as [l1|e]; cbn [mbind result_bind]; [apply IH | reflexivity].
Qed.

(** After [n] iterations [strokes] has grown by the [n] values [x_t] had
    at the top of the iterations 0 .. n-1. *)
Lemma sample_loop_ok (l0 : Loop) :
  loop_inv l0 ->
  forall n, exists l,
    sample_loop n l0 = Ok l /\ loop_inv l /\
    length (strokes l) = length (strokes l0) + n /\
    (forall i, i < length (strokes l0) -> strokes l !! i = strokes l0 !! i) /\
    (forall i, i < n -> exists li,
        sample_loop i l0 = Ok li /\ loop_inv li /\
        strokes l !! (length (strokes l0) + i) = Some (x_t li)).
Proof using n_layers_pos dec_built.
  intros H0. induction n as [|n (l & Hrun & Hl & Len & Old & New)].
  - exists l0. split; [reflexivity|]. split; [exact H0|]. split; [lia|].
    split; [auto | intros; lia].
  - destruct (sample_body_ok l Hl) as (l' & st & Hb & Hl' & Hs & _).
    exists l'. rewrite sample_loop_S, Hrun. cbn [mbind result_bind].
    split; [exact Hb|]. split; [exact Hl'|]. split; [|split].
    + rewrite Hs, length_app, Len. cbn. lia.
    + intros i Hi. rewrite Hs, lookup_app_l by lia. auto.
    + intros i Hi. destruct (decide (i = n)) as [->|Hne].
      * exists l. split; [exact Hrun|]. split; [exact Hl|].
        rewrite Hs, <- Len. apply list_lookup_middle. reflexivity.
      * destruct (New i) as (li & Hi1 & Hinv & Hi2); [lia|].
        exists li. split; [exact Hi1|]. split; [exact Hinv|].
        rewrite Hs, lookup_app_l by lia. exact Hi2.
Qed.

(** The point an iteration forms is the value of [x_t] at the top of the
    next one. *)
Lemma formed_in_previous_iteration (l0 : Loop) t lt :
  loop_inv l0 ->
  sample_loop (S t) l0 = Ok lt ->
  exists l p st,
    sample_loop t l0 = Ok l /\
    next_point l = Ok (unsqueeze1 p, st, rng lt) /\
    x_t lt = unsqueeze1 p.
Proof using n_layers_pos dec_built.
  intros H0 Hrun. rewrite sample_loop_S in Hrun.
  destruct (sample_loop_ok l0 H0 t) as (l & Hl & Hinv & _).
  rewrite Hl in Hrun. cbn [mbind result_bind] in Hrun.
  destruct (sample_body_ok l Hinv) as (l' & st & Hb & _ & _ & Hnext).
  rewrite Hb in Hrun. injection Hrun as ->.
  destruct (next_point_ok l Hinv) as (p & h & c & w & k & g & Hp & _).
  rewrite Hp in Hnext. injection Hnext as Hx Hst Hg.
  exists l, p, (h, c, w, k). rewrite <- Hg, <- Hx. auto.
Qed.

Lemma concat_one_point (ss : list (Seq Tensor)) :
  Forall one_point ss ->
  length (concat (map unbind1 ss)) = length ss /\
  forall i s, ss !! i = Some s -> concat (map unbind1 ss) !! i = head (unbind1 s).
Proof.
  induction 1 as [|s ss [p Hp] _ [IHl IHi]]; cbn [map concat].
  - split; [reflexivity | intros i s Hs; rewrite lookup_nil in Hs; discriminate].
  - rewrite Hp. cbn [app length]. split; [congruence|].
    intros [|i] s' Hs'; cbn in Hs'.
    + injection Hs' as <-. rewrite Hp. reflexivity.
    + cbn. now apply IHi.
Qed.

End Model.

(** C8. A generation call with [maxlen >= 1] returns a sequence of exactly
    [maxlen] time steps, [cat(strokes, 1)] of a list of [maxlen] entries.
    Its first step is the all-zero start point; its step [t], for
    [1 <= t < maxlen], is the point iteration [t - 1] formed; the point the
    last iteration formed is the final value of [x_t] and was never
    appended. *)
Theorem sample_returns_the_inputs_of_its_iterations
    {Tensor Rng : Type} `{!Torch Tensor Rng}
    (mixture_sample : Tensor -> Tensor -> Tensor -> Tensor -> Rng -> Tensor * Rng)
    (m : Seq2Seq.t Tensor) (n_layers : nat) (chars chars_mask : Tensor)
    (maxlen : nat) (g : Rng) :
  1 <= maxlen ->
  1 <= n_layers ->
  built_with n_layers (dec m) ->
  let ctx := encode m chars chars_mask in
  let run n := sample_loop mixture_sample m ctx n (sample_init ctx g) in
  exists out final,
    sample mixture_sample m chars chars_mask maxlen g = Ok (out, rng final) /\
    run maxlen = Ok final /\
    unbind1 out = concat (map unbind1 (strokes final)) /\
    length (strokes final) = maxlen /\
    length (unbind1 out) = maxlen /\
    unbind1 out !! 0 = Some (zeros (rows ctx) 3) /\
    (forall t, 1 <= t -> t < maxlen ->
       exists l p st g',
         run (t - 1) = Ok l /\
         next_point mixture_sample m ctx l = Ok (unsqueeze1 p, st, g') /\
         unbind1 out !! t = Some p) /\
    (exists l p st,
       run (maxlen - 1) = Ok l /\
       next_point mixture_sample m ctx l = Ok (unsqueeze1 p, st, rng final) /\
       x_t final = unsqueeze1 p).
Proof.
  intros Hmax Hn Hb ctx run. subst run. cbv beta.
  assert (loop_inv n_layers (sample_init ctx g)) as H0.
  { split; [eexists; reflexivity | exact I]. }
  destruct (sample_loop_ok mixture_sample m n_layers ctx Hn Hb _ H0 maxlen)
    as (final & Hrun & Hinv & Len & _ & New).
  cbn [strokes sample_init length] in Len, New.
  assert (Forall (one_point (Tensor:=Tensor)) (strokes final)) as Hone.
  { apply Forall_lookup_2. intros i s Hs.
    destruct (New i) as (li & _ & [Hp _] & Hi).
    - apply lookup_lt_Some in Hs. lia.
    - cbn in Hi. rewrite Hi in Hs. injection Hs as <-. exact Hp. }
  destruct (concat_one_point _ Hone) as [Lcat Icat].
  destruct (strokes final) as [|s0 ss] eqn:Hs; [cbn in Len; lia|].
  exists {| size0 := size0 s0; unbind1 := concat (map unbind1 (s0 :: ss)) |}, final.
  split; [|split; [|split; [|split; [|split; [|split; [|split]]]]]].
  - unfold sample. change (encode m chars chars_mask) with ctx. rewrite Hrun.
    cbn [mbind result_bind]. rewrite Hs. reflexivity.
  - exact Hrun.
  - rewrite Hs. reflexivity.
  - rewrite Hs. exact Len.
  - cbn [unbind1]. rewrite Lcat. exact Len.
  - cbn [unbind1]. destruct (New 0) as (l0 & Hl0 & _ & Hi); [lia|].
    cbn in Hl0. injection Hl0 as <-.
    rewrite (Icat 0 _ Hi). reflexivity.
  - intros t Ht1 Ht. destruct (New t Ht) as (lt & Hlt & _ & Hi).
    destruct t as [|t]; [lia|]. cbn [Nat.sub]. rewrite Nat.sub_0_r.
    destruct (formed_in_previous_iteration mixture_sample m n_layers ctx Hn Hb _ t lt H0 Hlt)
      as (l & p & st & Hl & Hnext & Hx).
    exists l, p, st, (rng lt). split; [exact Hl|]. split; [exact Hnext|].
    cbn [unbind1]. rewrite (Icat (S t) _ Hi), Hx. reflexivity.
  - destruct maxlen as [|n]; [lia|]. cbn [Nat.sub]. rewrite Nat.sub_0_r.
    exact (formed_in_previous_iteration mixture_sample m n_layers ctx Hn Hb _ n final H0 Hrun).
Qed.

(** Two iterations of a one-layer model on symbolic tensors. *)
Lemma sample_returns_the_inputs_of_its_iterations_witness :
  let m := Sym.model 1 1 in
  let chars := Sym.Leaf "chars" in
  let chars_mask := Sym.Leaf "mask" in
  let ctx := encode m chars chars_mask in
  let run n := sample_loop Sym.mixture_sample m ctx n (sample_init ctx 0) in
  exists out final,
    sample Sym.mixture_sample m chars chars_mask 2 0 = Ok (out, rng final) /\
    run 2 = Ok final /\
    unbind1 out = concat (map unbind1 (strokes final)) /\
    length (strokes final) = 2 /\
    length (unbind1 out) = 2 /\
    unbind1 out !! 0 = Some (zeros (rows ctx) 3) /\
    (forall t, 1 <= t -> t < 2 ->
       exists l p st g',
         run (t - 1) = Ok l /\
         next_point Sym.mixture_sample m ctx l = Ok (unsqueeze1 p, st, g') /\
         unbind1 out !! t = Some p) /\
    (exists l p st,
       run (2 - 1) = Ok l /\
       next_point Sym.mixture_sample m ctx l = Ok (unsqueeze1 p, st, rng final) /\
       x_t final = unsqueeze1 p).
Proof.
  apply (sample_returns_the_inputs_of_its_iterations
           Sym.mixture_sample (Sym.model 1 1) 1 (Sym.Leaf "chars") (Sym.Leaf "mask") 2 0).
  - lia.
  - lia.
  - repeat split; reflexivity.
Defined.

(** On that run the point the second (last) iteration formed is the final
    [x_t] and occurs nowhere in the returned sequence. *)
Lemma last_point_is_dropped :
  let m := Sym.model 1 1 in
  let ctx := encode m (Sym.Leaf "chars") (Sym.Leaf "mask") in
  exists out g final p,
    sample Sym.mixture_sample m (Sym.Leaf "chars") (Sym.Leaf "mask") 2 0 = Ok (out, g) /\
    sample_loop Sym.mixture_sample m ctx 2 (sample_init ctx 0) = Ok final /\
    unbind1 (x_t final) = [p] /\
    ~ In p (unbind1 out).
Proof.
  cbv zeta. eexists _, _, _, _. split; [reflexivity|]. split; [reflexivity|].
  split; [reflexivity|].
  cbn. intros [H|[H|[]]]; discriminate H.
Qed.

End Seq2SeqFacts.

(** ** Rows of real numbers *)

Module RowFacts.
Import Row.
Local Open Scope R_scope.

Lemma nth_map_seq {A} (F : nat -> A) (K k : nat) (d : A) :
  (k < K)%nat -> nth k (map F (seq 0 K)) d = F k.
Proof.
  intros Hk. rewrite (nth_indep _ d (F 0%nat)) by now rewrite length_map, length_seq.
  rewrite (map_nth F), seq_nth by assumption. reflexivity.
Qed.

(** A list is the list of its entries. *)
Lemma map_seq_nth {A} (l : list A) (d : A) :
  l = map (fun k => nth k l d) (seq 0 (length l)).
Proof.
  apply (nth_ext _ _ d d).
  - now rewrite length_map, length_seq.
  - intros k Hk. now rewrite nth_map_seq.
Qed.

Lemma zip_with_nth {A B C} (f : A -> B -> C) (a : list A) (b : list B) da db K :
  length a = K -> length b = K ->
  zip_with f a b = map (fun k => f (nth k a da) (nth k b db)) (seq 0 K).
Proof.
  revert b K. induction a as [|x a IH]; intros [|y b] K Ha Hb; cbn in Ha, Hb; subst K;
    try discriminate; [reflexivity|].
  cbn [zip_with length seq map nth]. f_equal.
  rewrite <- seq_shift, map_map. apply IH; [reflexivity | congruence].
Qed.

Lemma broadcast_nth {A B C} (f : A -> B -> C) (a : list A) (b : list B) da db K :
  length a = K -> length b = K ->
  broadcast f a b = Ok (map (fun k => f (nth k a da) (nth k b db)) (seq 0 K)).
Proof.
  intros Ha Hb. unfold broadcast. rewrite Ha, Hb, Nat.eqb_refl.
  f_equal. now apply zip_with_nth.
Qed.

Lemma broadcast_inplace_nth {A B} (f : A -> B -> A) (a : list A) (b : list B) da db K :
  length a = K -> length b = K ->
  broadcast_inplace f a b = Ok (map (fun k => f (nth k a da) (nth k b db)) (seq 0 K)).
Proof.
  intros Ha Hb. unfold broadcast_inplace. rewrite Ha, Hb, Nat.eqb_refl.
  f_equal. now apply zip_with_nth.
Qed.

(** *** Sums *)

Lemma sum_scal (c : R) (v : list R) : sum (map (Rmult c) v) = c * sum v.
Proof. unfold sum. induction v as [|x v IH]; cbn; [ring | rewrite IH; ring]. Qed.

Lemma sum_pos (v : list R) :
  v <> [] -> Forall (fun x => 0 < x) v -> 0 < sum v.
Proof.
  intros Hne Hv. induction Hv as [|x v Hx Hv IH]; [congruence|].
  change (0 < x + sum v). destruct v as [|y v]; [cbn; lra|].
  assert (0 < sum (y :: v)) by (apply IH; discriminate). lra.
Qed.

Lemma sum_exp_pos (v : list R) : v <> [] -> 0 < sum (map exp v).
Proof.
  intros Hne. apply sum_pos.
  - destruct v; [congruence | discriminate].
  - clear Hne. induction v as [|x v IH]; constructor; [apply exp_pos | exact IH].
Qed.

Lemma sum_map_ext_in {A} (f g : A -> R) (l : list A) :
  (forall a, In a l -> f a = g a) -> sum (map f l) = sum (map g l).
Proof. intros H. f_equal. now apply map_ext_in. Qed.

(** *** log-sum-exp *)

(** Subtracting the maximum changes nothing: [logsumexp] is the logarithm
    of the plain sum of exponentials. *)
Lemma logsumexp_plain (v : list R) :
  v <> [] -> logsumexp v = ln (sum (map exp v)).
Proof.
  destruct v as [|x v]; [congruence|]. intros _. unfold logsumexp.
  set (m := amax x v). set (l := x :: v).
  assert (map (fun y => exp (y - m)) l = map (Rmult (exp (- m))) (map exp l)) as ->.
  { rewrite map_map. apply map_ext. intros y.
    rewrite <- exp_plus. f_equal. ring. }
  rewrite sum_scal, ln_mult, ln_exp.
  - ring.
  - apply exp_pos.
  - apply sum_exp_pos. discriminate.
Qed.

(** The weights [log_softmax] yields add up to one. *)
Lemma log_softmax_normalized (v : list R) :
  v <> [] -> sum (map exp (log_softmax v)) = 1.
Proof.
  intros Hne. unfold log_softmax. rewrite logsumexp_plain by assumption.
  pose proof (sum_exp_pos v Hne) as Hpos.
  assert (map exp (map (fun y => y - ln (sum (map exp v))) v)
          = map (Rmult (/ sum (map exp v))) (map exp v)) as ->.
  { rewrite !map_map. apply map_ext. intros y.
    unfold Rminus. rewrite exp_plus, exp_Ropp, exp_ln by assumption. ring. }
  rewrite sum_scal. field. lra.
Qed.

(** *** tanh *)

Lemma tanh_bounds (x : R) : -1 < tanh x < 1.
Proof.
  unfold tanh, sinh, cosh.
  pose proof (exp_pos x) as Hp. pose proof (exp_pos (- x)) as Hn.
  set (s := (exp x - exp (- x)) / 2). set (c := (exp x + exp (- x)) / 2).
  assert (0 < c) as Hc by (unfold c; lra).
  assert (- c < s < c) as Hs by (unfold s, c; lra).
  assert (s / c * c = s) as Hq by (field; lra).
  revert Hq. generalize (s / c). intros q Hq. split; nra.
Qed.

(** *** split, view *)

Lemma length_pairs {A} (v : list A) (K : nat) :
  length v = (2 * K)%nat -> length (pairs v) = K.
Proof.
  revert v. induction K as [|K IH]; intros v Hv.
  - destruct v; [reflexivity | discriminate].
  - destruct v as [|a [|b v]]; cbn in Hv; try lia.
    cbn. f_equal. apply IH. lia.
Qed.

Lemma Forall_pairs {A} (P : A -> Prop) (v : list A) :
  Forall P v -> Forall (fun s => P (fst s) /\ P (snd s)) (pairs v).
Proof.
  revert v. fix IH 1. intros [|a [|b v]] H; cbn; try constructor.
  - inversion H as [|? ? Ha H']. inversion H' as [|? ? Hb H'']. cbn. auto.
  - apply IH. inversion H as [|? ? _ H']. now inversion H'.
Qed.

End RowFacts.

(** ** MixtureOfBivariateNormal.log_prob *)

Module MixtureFacts.
Import Row RowFacts MixtureOfBivariateNormal.
Local Open Scope R_scope.

Lemma nth_map_lt {A B} (f : A -> B) (l : list A) (k : nat) (d : A) (d' : B) :
  (k < length l)%nat -> nth k (map f l) d' = f (nth k l d).
Proof.
  intros Hk. rewrite (nth_indep _ d' (f d)) by now rewrite length_map.
  apply map_nth.
Qed.

Lemma exp_half_ln (y : R) : 0 < y -> exp (/ 2 * ln y) = sqrt y.
Proof.
  intros Hy. pose proof (sqrt_lt_R0 y Hy) as Hs.
  rewrite <- (sqrt_sqrt y) at 1 by lra.
  rewrite ln_mult by assumption.
  replace (/ 2 * (ln (sqrt y) + ln (sqrt y))) with (ln (sqrt y)) by field.
  now apply exp_ln.
Qed.

(** The log-density of the specification is the logarithm of the bivariate
    normal density. *)
Lemma exp_log_N_ref (x1 x2 mu1 mu2 sigma1 sigma2 r : R) :
  0 < sigma1 -> 0 < sigma2 -> -1 < r < 1 ->
  exp (log_N_ref x1 x2 mu1 mu2 sigma1 sigma2 r)
  = pdf_ref x1 x2 mu1 mu2 sigma1 sigma2 r.
Proof.
  intros H1 H2 Hr. unfold log_N_ref, pdf_ref.
  assert (0 < 1 - r ^ 2) as Hq by nra.
  pose proof PI_RGT_0 as Hpi.
  unfold Rminus at 1. rewrite exp_plus, exp_Ropp, !exp_plus, !exp_ln, exp_half_ln;
    try assumption; try lra.
Qed.

Ltac broadcast_step da db K :=
  rewrite (broadcast_nth _ _ _ da db K)
    by (rewrite ?length_map, ?length_seq; first [assumption | reflexivity]);
  cbn [mbind result_bind].

(** With the four tensors of one size along the mixture axis, every
    elementwise operation of [log_prob] goes through, whatever the values
    of [sigma] and [rho]. *)
Lemma log_prob_terms (d : t) (x : R * R) (K : nat) :
  length (log_pi d) = K -> length (mu d) = K ->
  length (sigma d) = K -> length (rho d) = K ->
  log_prob d x = Ok (logsumexp (log_terms d x)).
Proof.
  intros Hp Hm Hs Hr. unfold log_prob, log_terms.
  broadcast_step (0, 0) (0, 0) K.
  broadcast_step 0 0 K.
  broadcast_step 0 0 K.
  broadcast_step 0 0 K.
  broadcast_step 0 0 K.
  broadcast_step 0 0 K.
  broadcast_step 0 0 K.
  rewrite Hp. f_equal. f_equal. apply map_ext_in. intros k Hk.
  apply in_seq in Hk. cbn in Hk.
  rewrite ?map_map.
  repeat (rewrite nth_map_seq by lia).
  rewrite ?map_map.
  repeat (rewrite nth_map_seq by lia).
  rewrite !(nth_map_lt _ (rho d) k 0) by lia.
  rewrite !(nth_map_lt _ (sigma d) k (0, 0)) by lia.
  rewrite !(nth_map_lt _ (mu d) k (0, 0)) by lia.
  unfold component.
  destruct (nth k (mu d) (0, 0)) as [mu1 mu2].
  destruct (nth k (sigma d) (0, 0)) as [sigma1 sigma2].
  cbn [fst snd]. unfold log_N_ref, Z_ref, Rdiv. ring.
Qed.

Lemma brute_force_ref_terms (d : t) (x : R * R) :
  brute_force_ref d x = ln (sum (map exp (log_terms d x))).
Proof.
  unfold brute_force_ref, log_terms. rewrite map_map. do 2 f_equal.
  apply map_ext. intros k. destruct (component d k) as [[[w [mu1 mu2]] [s1 s2]] r].
  reflexivity.
Qed.

Lemma mixture_pdf_ref_terms (d : t) (x : R * R) (K : nat) :
  valid K d -> mixture_pdf_ref d x = sum (map exp (log_terms d x)).
Proof.
  intros (Hp & Hm & Hs & Hr & Fs & Fr).
  unfold mixture_pdf_ref, log_terms. rewrite map_map. f_equal.
  apply map_ext_in. intros k Hk. apply in_seq in Hk. cbn in Hk.
  unfold component.
  assert (0 < fst (nth k (sigma d) (0, 0)) /\ 0 < snd (nth k (sigma d) (0, 0))) as [H1 H2].
  { apply (proj1 (List.Forall_nth _ _) Fs). lia. }
  assert (-1 < nth k (rho d) 0 < 1) as H3.
  { apply (proj1 (List.Forall_nth _ _) Fr). lia. }
  destruct (nth k (mu d) (0, 0)) as [mu1 mu2].
  destruct (nth k (sigma d) (0, 0)) as [s1 s2]. cbn [fst snd] in *.
  rewrite exp_plus, exp_log_N_ref by assumption. reflexivity.
Qed.

(** C2. For a valid parameter set with [K >= 1] components and any
    observed point, [log_prob] returns the log-sum-exp over the components
    of (log-weight + log-density), the log-density being the reference
    formula; that value is the brute-force reference (the logarithm of the
    plain sum of exponentials), which is the logarithm of the mixture of
    the bivariate normal densities. *)
Theorem log_prob_equals_brute_force_reference (d : t) (x : R * R) (K : nat) :
  (1 <= K)%nat ->
  valid K d ->
  exists v,
    log_prob d x = Ok v /\
    v = logsumexp (log_terms d x) /\
    v = brute_force_ref d x /\
    v = ln (mixture_pdf_ref d x).
Proof.
  intros HK Hv. pose proof Hv as (Hp & Hm & Hs & Hr & _).
  exists (logsumexp (log_terms d x)).
  assert (log_terms d x <> []) as Hne.
  { unfold log_terms. rewrite Hp. destruct K; [lia|]. discriminate. }
  split; [now apply (log_prob_terms d x K)|].
  split; [reflexivity|].
  rewrite (mixture_pdf_ref_terms d x K Hv), brute_force_ref_terms.
  split; now apply logsumexp_plain.
Qed.

(** A distribution with one standard component, at the origin. *)
Definition standard : t :=
  {| log_pi := [0]; mu := [(0, 0)]; sigma := [(1, 1)]; rho := [0] |}.

Lemma standard_valid : valid 1 standard.
Proof.
  repeat split; try reflexivity; repeat constructor; cbn; lra.
Defined.

Lemma log_prob_equals_brute_force_reference_witness :
  exists v,
    log_prob standard (0, 0) = Ok v /\
    v = logsumexp (log_terms standard (0, 0)) /\
    v = brute_force_ref standard (0, 0) /\
    v = ln (mixture_pdf_ref standard (0, 0)).
Proof.
  apply (log_prob_equals_brute_force_reference standard (0, 0) 1).
  - lia.
  - exact standard_valid.
Defined.

(** *** sample *)

Section Sample.
Context {Rng : Type} `{!RandomSource Rng}.

(** The quadratic form of the density at a sampled point is that of the
    two independent draws: [x] is distributed as the selected component
    when [z1], [z2] are independent standard normal numbers. *)
Lemma Z_ref_of_sample (mu1 mu2 sigma1 sigma2 r z1 z2 : R) :
  sigma1 <> 0 -> sigma2 <> 0 -> -1 < r < 1 ->
  Z_ref (mu1 + sigma1 * z1) (mu2 + sigma2 * (z2 * sqrt (1 - r ^ 2) + z1 * r))
        mu1 mu2 sigma1 sigma2 r
  = (1 - r ^ 2) * (z1 ^ 2 + z2 ^ 2).
Proof.
  intros H1 H2 Hr. unfold Z_ref.
  assert (0 <= 1 - r ^ 2) as Hq by nra.
  pose proof (sqrt_sqrt _ Hq) as Hsq. revert Hsq.
  generalize (sqrt (1 - r ^ 2)). intros q Hsq.
  replace ((mu1 + sigma1 * z1 - mu1) / sigma1) with z1 by (field; assumption).
  replace ((mu2 + sigma2 * (z2 * q + z1 * r) - mu2) / sigma2)
    with (z2 * q + z1 * r) by (field; assumption).
  replace ((z2 * q + z1 * r) ^ 2)
    with (z2 ^ 2 * (q * q) + 2 * z1 * z2 * r * q + z1 ^ 2 * r ^ 2) by ring.
  rewrite Hsq. ring.
Qed.

(** C5. [sample] draws a component index from the categorical
    distribution whose weights are the exponentiated log-weights, gathers
    that component's mean, sigma and rho, draws two standard normal
    numbers z1, z2 and returns x1 = mu1 + sigma1 z1,
    x2 = mu2 + sigma2 (z2 sqrt(1 - rho^2) + z1 rho). The coefficients of
    (z1, z2) are the Cholesky factor of the correlation matrix
    ((1, rho), (rho, 1)), and the quadratic form of the component's
    density at the returned point is (1 - rho^2)(z1^2 + z2^2). *)
Theorem sample_draws_from_the_selected_component (d : t) (K : nat) (g : Rng) :
  (1 <= K)%nat ->
  length (log_pi d) = K -> length (mu d) = K ->
  length (sigma d) = K -> length (rho d) = K ->
  exists index g1 z1 g2 z2 g3 mu1 mu2 sigma1 sigma2 r,
    multinomial (map exp (log_pi d)) g = (index, g1) /\
    (index < K)%nat /\
    randn g1 = (z1, g2) /\
    randn g2 = (z2, g3) /\
    mu d !! index = Some (mu1, mu2) /\
    sigma d !! index = Some (sigma1, sigma2) /\
    rho d !! index = Some r /\
    let x1 := mu1 + sigma1 * z1 in
    let x2 := mu2 + sigma2 * (z2 * sqrt (1 - r ^ 2) + z1 * r) in
    sample d g = Ok ((x1, x2), g3) /\
    (-1 < r < 1 ->
       1 * 1 + 0 * 0 = 1 /\
       r * 1 + sqrt (1 - r ^ 2) * 0 = r /\
       r * r + sqrt (1 - r ^ 2) * sqrt (1 - r ^ 2) = 1 /\
       (sigma1 <> 0 -> sigma2 <> 0 ->
        Z_ref x1 x2 mu1 mu2 sigma1 sigma2 r = (1 - r ^ 2) * (z1 ^ 2 + z2 ^ 2))).
Proof.
  intros HK Hp Hm Hs Hr. unfold sample.
  pose proof (multinomial_index (map exp (log_pi d)) g) as Hi.
  destruct (multinomial (map exp (log_pi d)) g) as [index g1]. cbn [fst] in Hi.
  rewrite length_map, Hp in Hi.
  assert (index < K)%nat as Hlt.
  { apply Hi.
    - destruct (log_pi d); [cbn in Hp; lia | discriminate].
    - clear. induction (log_pi d); constructor; [apply exp_pos | assumption]. }
  destruct (lookup_lt_is_Some_2 (mu d) index) as [[mu1 mu2] Hmu]; [lia|].
  destruct (lookup_lt_is_Some_2 (sigma d) index) as [[sigma1 sigma2] Hsigma]; [lia|].
  destruct (lookup_lt_is_Some_2 (rho d) index) as [r Hrho]; [lia|].
  rewrite (PyFacts.getitem_nat _ _ _ Hmu), (PyFacts.getitem_nat _ _ _ Hsigma),
    (PyFacts.getitem_nat _ _ _ Hrho).
  cbn [mbind result_bind].
  destruct (randn g1) as [z1 g2] eqn:Hz1. destruct (randn g2) as [z2 g3] eqn:Hz2.
  exists index, g1, z1, g2, z2, g3, mu1, mu2, sigma1, sigma2, r.
  repeat (split; [first [reflexivity | assumption]|]).
  intros Hb. split; [ring|]. split; [ring|]. split.
  - rewrite sqrt_sqrt by nra. ring.
  - intros H1 H2. now apply Z_ref_of_sample.
Qed.

End Sample.

(** A random source that reads its normal numbers from a tape and always
    selects the last component. *)
Definition tape_multinomial (w : list R) (g : list R) : nat * list R :=
  ((length w - 1)%nat, g).

Lemma tape_multinomial_index (w g : list R) :
  w <> [] -> Forall (fun p => 0 < p) w ->
  (fst (tape_multinomial w g) < length w)%nat.
Proof. destruct w; [congruence|]. intros _ _. cbn. lia. Qed.

#[local] Instance tape : RandomSource (list R) := {|
  multinomial := tape_multinomial;
  randn := fun g => (hd 0 g, tl g);
  multinomial_index := tape_multinomial_index;
|}.

Definition two_components : t :=
  {| log_pi := [0; 0]; mu := [(0, 0); (1, 2)]; sigma := [(1, 1); (3, 4)]; rho := [0; / 2] |}.

Lemma sample_draws_from_the_selected_component_witness :
  exists index g1 z1 g2 z2 g3 mu1 mu2 sigma1 sigma2 r,
    multinomial (map exp (log_pi two_components)) [5; 7] = (index, g1) /\
    (index < 2)%nat /\
    randn g1 = (z1, g2) /\
    randn g2 = (z2, g3) /\
    mu two_components !! index = Some (mu1, mu2) /\
    sigma two_components !! index = Some (sigma1, sigma2) /\
    rho two_components !! index = Some r /\
    let x1 := mu1 + sigma1 * z1 in
    let x2 := mu2 + sigma2 * (z2 * sqrt (1 - r ^ 2) + z1 * r) in
    sample two_components [5; 7] = Ok ((x1, x2), g3) /\
    (-1 < r < 1 ->
       1 * 1 + 0 * 0 = 1 /\
       r * 1 + sqrt (1 - r ^ 2) * 0 = r /\
       r * r + sqrt (1 - r ^ 2) * sqrt (1 - r ^ 2) = 1 /\
       (sigma1 <> 0 -> sigma2 <> 0 ->
        Z_ref x1 x2 mu1 mu2 sigma1 sigma2 r = (1 - r ^ 2) * (z1 ^ 2 + z2 ^ 2))).
Proof.
  apply (sample_draws_from_the_selected_component two_components 2 [5; 7]).
  - lia.
  - reflexivity.
  - reflexivity.
  - reflexivity.
  - reflexivity.
Defined.

End MixtureFacts.

(** ** float32 rounding *)

Module Float32Facts.
Import Float32.
Local Open Scope R_scope.

(** *** The nearest integer *)

Lemma round_half_even_error (z : R) :
  - / 2 <= IZR (round_half_even z) - z <= / 2.
Proof.
  unfold round_half_even. pose proof (Zfloor_bound z) as Hb.
  destruct (Rlt_dec _ _) as [H1|H1]; [lra|].
  destruct (Rlt_dec _ _) as [H2|H2]; [rewrite plus_IZR; lra|].
  destruct (Z.even _); [lra | rewrite plus_IZR; lra].
Qed.

Lemma round_half_even_ge (n : Z) (z : R) :
  IZR n <= z -> (n <= round_half_even z)%Z.
Proof.
  intros H. pose proof (round_half_even_error z) as He.
  assert (n < round_half_even z + 1)%Z; [|lia].
  apply lt_IZR. rewrite plus_IZR. lra.
Qed.

Lemma round_half_even_le (n : Z) (z : R) :
  z <= IZR n -> (round_half_even z <= n)%Z.
Proof.
  intros H. pose proof (round_half_even_error z) as He.
  assert (round_half_even z < n + 1)%Z; [|lia].
  apply lt_IZR. rewrite plus_IZR. lra.
Qed.

(** *** Powers of two, the exponent and the spacing *)

Lemma ulp_pos (x : R) : 0 < ulp x.
Proof. apply powerRZ_lt. lra. Qed.

Lemma ln_2_bounds : 0 < ln 2 < 1.
Proof.
  split.
  - rewrite <- ln_1. apply ln_increasing; lra.
  - apply Rlt_le_trans with (ln (Rtrigo_def.exp 1)); [|rewrite ln_exp; lra].
    apply ln_increasing; [lra|]. pose proof (exp_ineq1 1). lra.
Qed.

Lemma ln_nonpos (a : R) : a <= 1 -> ln a <= 0.
Proof.
  intros Ha. destruct (Rlt_dec 0 a) as [Hp|Hn].
  - destruct (Req_dec a 1) as [->|Hne]; [rewrite ln_1; lra|].
    rewrite <- ln_1. left. apply ln_increasing; lra.
  - unfold ln. destruct (Rlt_dec 0 a); [contradiction | lra].
Qed.

Lemma powerRZ_2_ln (k : Z) : powerRZ 2 k = Rtrigo_def.exp (IZR k * ln 2).
Proof. rewrite powerRZ_Rpower by lra. reflexivity. Qed.

Lemma powerRZ_2_le (j k : Z) : (j <= k)%Z -> powerRZ 2 j <= powerRZ 2 k.
Proof.
  intros H. rewrite !powerRZ_2_ln.
  destruct (Z.eq_dec j k) as [->|Hne]; [lra|].
  left. apply exp_increasing. pose proof ln_2_bounds.
  apply Rmult_lt_compat_r; [lra|]. apply IZR_lt. lia.
Qed.

Lemma powerRZ_2_nat (n : nat) : powerRZ 2 (Z.of_nat n) = 2 ^ n.
Proof. symmetry. apply pow_powerRZ. Qed.

Lemma powerRZ_2_IZR (k : Z) : (0 <= k)%Z -> powerRZ 2 k = IZR (2 ^ k).
Proof.
  intros Hk. rewrite <- (Z2Nat.id k Hk) at 1 2.
  rewrite powerRZ_2_nat, <- pow_IZR. reflexivity.
Qed.

Lemma powerRZ_2_opp (k : Z) : powerRZ 2 (- k) = / powerRZ 2 k.
Proof. apply powerRZ_neg'. Qed.

(** The exponent of a number of magnitude at most 1. *)
Lemma exponent_le_0 (x : R) : Rabs x <= 1 -> (exponent x <= 0)%Z.
Proof.
  intros Hx. unfold exponent.
  pose proof (ln_nonpos _ Hx) as Hl. pose proof ln_2_bounds as H2.
  pose proof (Zfloor_bound (ln (Rabs x) / ln 2)) as Hb.
  assert (ln (Rabs x) / ln 2 <= 0).
  { unfold Rdiv. assert (0 < / ln 2) by (apply Rinv_0_lt_compat; lra). nra. }
  assert (exponent x < 1)%Z; [|unfold exponent in *; lia].
  apply lt_IZR. unfold exponent. lra.
Qed.

Lemma exponent_bounds (x : R) :
  x <> 0 -> powerRZ 2 (exponent x) <= Rabs x < powerRZ 2 (exponent x + 1).
Proof.
  intros Hx. assert (0 < Rabs x) as Ha by now apply Rabs_pos_lt.
  pose proof ln_2_bounds as H2.
  pose proof (Zfloor_bound (ln (Rabs x) / ln 2)) as Hb. fold (exponent x) in Hb.
  assert (ln (Rabs x) / ln 2 * ln 2 = ln (Rabs x)) as Hq by (field; lra).
  rewrite !powerRZ_2_ln, plus_IZR. pose proof (exp_ln (Rabs x) Ha) as Hel.
  split.
  - apply Rle_trans with (Rtrigo_def.exp (ln (Rabs x))); [|lra].
    destruct (proj1 Hb) as [Hlt|Heq].
    + left. apply exp_increasing. nra.
    + rewrite Heq, Hq. lra.
  - apply Rle_lt_trans with (Rtrigo_def.exp (ln (Rabs x))); [lra|].
    apply exp_increasing. nra.
Qed.

Lemma exponent_eq (k : Z) (x : R) :
  powerRZ 2 k <= Rabs x < powerRZ 2 (k + 1) -> exponent x = k.
Proof.
  intros [Hl Hu]. pose proof ln_2_bounds as H2.
  assert (0 < Rabs x) as Ha.
  { eapply Rlt_le_trans; [|exact Hl]. apply powerRZ_lt. lra. }
  apply Zfloor_eq.
  rewrite !powerRZ_2_ln in *. rewrite plus_IZR in Hu.
  rewrite <- (exp_ln (Rabs x) Ha) in Hl, Hu.
  assert (IZR k * ln 2 <= ln (Rabs x)) as H1.
  { destruct Hl as [Hl|Hl]; [left; now apply exp_lt_inv | right; now apply exp_inv]. }
  assert (ln (Rabs x) < (IZR k + 1) * ln 2) as H3 by now apply exp_lt_inv.
  assert (0 < / ln 2) as Hi by (apply Rinv_0_lt_compat; lra).
  assert (ln (Rabs x) / ln 2 * ln 2 = ln (Rabs x)) as Hq by (field; lra).
  split; nra.
Qed.

(** The spacing is at most [2^-23] times the magnitude of a normal
    number. *)
Lemma ulp_le (x : R) :
  powerRZ 2 (-126) <= Rabs x -> ulp x <= Rabs x * powerRZ 2 (-23).
Proof.
  intros Hx.
  assert (x <> 0) as Hne.
  { intros ->. rewrite Rabs_R0 in Hx. pose proof (powerRZ_lt 2 (-126)). lra. }
  destruct (exponent_bounds x Hne) as [Hl Hu].
  assert (-126 <= exponent x)%Z as He.
  { destruct (Z_lt_le_dec (exponent x) (-126)) as [Hlt|]; [|assumption].
    assert (exponent x + 1 <= -126)%Z as Hle by lia.
    pose proof (powerRZ_2_le _ _ Hle). lra. }
  unfold ulp. rewrite Z.max_l by lia.
  replace (exponent x - 23)%Z with (exponent x + -23)%Z by lia.
  rewrite powerRZ_add by lra.
  pose proof (powerRZ_lt 2 (-23)). nra.
Qed.

(** Around a number of magnitude at most 1 the spacing is one over a
    power of two. *)
Lemma ulp_unit (x : R) :
  Rabs x <= 1 -> exists k, (23 <= k)%Z /\ ulp x = / IZR (2 ^ k).
Proof.
  intros Hx. pose proof (exponent_le_0 x Hx) as He.
  unfold ulp. set (e := Z.max _ _).
  exists (- e)%Z. split; [lia|].
  rewrite <- powerRZ_2_IZR by lia. rewrite powerRZ_2_opp. rewrite Rinv_inv. reflexivity.
Qed.

(** *** The three outcomes of rounding *)

Lemma round_cases (x : R) :
  let y := IZR (round_half_even (x / ulp x)) * ulp x in
  (Rabs y < powerRZ 2 128 /\ round x = Finite y) \/
  (powerRZ 2 128 <= Rabs y /\ 0 < x /\ round x = PosInf) \/
  (powerRZ 2 128 <= Rabs y /\ x <= 0 /\ round x = NegInf).
Proof.
  intros y. unfold round. fold y.
  destruct (Rle_dec _ _) as [Ho|Ho].
  - right. destruct (Rlt_dec 0 x); [left | right]; repeat split; auto; lra.
  - left. split; [lra | reflexivity].
Qed.

Lemma rounded_error (x : R) :
  - (ulp x / 2) <= IZR (round_half_even (x / ulp x)) * ulp x - x <= ulp x / 2.
Proof.
  pose proof (ulp_pos x) as Hu. pose proof (round_half_even_error (x / ulp x)) as He.
  assert (x / ulp x * ulp x = x) as Hq by (field; lra).
  split; nra.
Qed.

Lemma pow2_128_big : 1 < powerRZ 2 128.
Proof.
  rewrite powerRZ_2_IZR by lia. apply IZR_lt. reflexivity.
Qed.

(** *** What holds of every rounded value *)

Lemma round_nonnegative (x : R) : 0 <= x -> nonnegative (round x).
Proof.
  intros Hx. pose proof (ulp_pos x) as Hu.
  assert (0 <= IZR (round_half_even (x / ulp x))) as Hr.
  { apply IZR_le, round_half_even_ge. apply Rmult_le_pos; [lra|].
    left. now apply Rinv_0_lt_compat. }
  destruct (round_cases x) as [[_ ->]|[(_ & _ & ->)|(Ho & Hx0 & _)]]; cbn.
  - nra.
  - exact I.
  - assert (x = 0) as -> by lra. exfalso.
    unfold Rdiv in Ho. rewrite Rmult_0_l in Ho.
    replace (round_half_even 0) with 0%Z in Ho.
    + rewrite Rmult_0_l, Rabs_R0 in Ho. pose proof pow2_128_big. lra.
    + symmetry. apply Z.le_antisymm;
        [apply round_half_even_le | apply round_half_even_ge]; lra.
Qed.

Lemma round_within_unit (x : R) : -1 <= x <= 1 -> within (-1) 1 (round x).
Proof.
  intros Hx. assert (Rabs x <= 1) as Ha by (apply Rabs_le; lra).
  destruct (ulp_unit x Ha) as (k & Hk & Hu). pose proof (ulp_pos x) as Hp.
  set (N := (2 ^ k)%Z) in *.
  assert (0 < IZR N) as HN.
  { apply IZR_lt. unfold N. apply Z.pow_pos_nonneg; lia. }
  assert (x / ulp x = x * IZR N) as Hq.
  { rewrite Hu. field. lra. }
  assert (round_half_even (x / ulp x) <= N)%Z as H1.
  { apply round_half_even_le. rewrite Hq. nra. }
  assert (- N <= round_half_even (x / ulp x))%Z as H2.
  { apply round_half_even_ge. rewrite Hq, opp_IZR. nra. }
  apply IZR_le in H1, H2. rewrite opp_IZR in H2.
  assert (IZR N * ulp x = 1) as H3 by (rewrite Hu; field; lra).
  assert (-1 <= IZR (round_half_even (x / ulp x)) * ulp x <= 1) as Hy by (split; nra).
  destruct (round_cases x) as [[_ ->]|[(Ho & _)|(Ho & _)]]; cbn.
  - exact Hy.
  - pose proof pow2_128_big. apply Rabs_le in Hy. lra.
  - pose proof pow2_128_big. apply Rabs_le in Hy. lra.
Qed.


(** *** Rounding at given places *)

Lemma round_half_even_down (n : Z) (z : R) :
  IZR n <= z < IZR n + / 2 -> round_half_even z = n.
Proof.
  intros Hz. unfold round_half_even.
  rewrite (Zfloor_eq n z) by lra.
  destruct (Rlt_dec _ _); [reflexivity | lra].
Qed.

Lemma round_half_even_up (n : Z) (z : R) :
  IZR n + / 2 < z < IZR n + 1 -> round_half_even z = (n + 1)%Z.
Proof.
  intros Hz. unfold round_half_even.
  rewrite (Zfloor_eq n z) by lra.
  destruct (Rlt_dec _ _); [lra|].
  destruct (Rlt_dec _ _); [reflexivity | lra].
Qed.

Lemma round_finite (x y : R) :
  IZR (round_half_even (x / ulp x)) * ulp x = y ->
  Rabs y < powerRZ 2 128 ->
  round x = Finite y.
Proof.
  intros Hy Hb. destruct (round_cases x) as [[_ ->]|[(Ho & _)|(Ho & _)]].
  - now rewrite Hy.
  - rewrite Hy in Ho. lra.
  - rewrite Hy in Ho. lra.
Qed.

Lemma exponent_lt (k : Z) (x : R) :
  x <> 0 -> Rabs x < powerRZ 2 k -> (exponent x < k)%Z.
Proof.
  intros Hx Hk. destruct (exponent_bounds x Hx) as [Hl _].
  destruct (Z_lt_le_dec (exponent x) k) as [|Hge]; [assumption|].
  pose proof (powerRZ_2_le _ _ Hge). lra.
Qed.

Lemma ulp_small (k : Z) (x : R) :
  (-149 <= k - 24)%Z -> x <> 0 -> Rabs x < powerRZ 2 k -> ulp x <= powerRZ 2 (k - 24).
Proof.
  intros Hk Hx Hb. pose proof (exponent_lt k x Hx Hb).
  unfold ulp. apply powerRZ_2_le. lia.
Qed.

Lemma powerRZ_2_neg (p : positive) : powerRZ 2 (Z.neg p) = / IZR (2 ^ Z.pos p).
Proof.
  change (Z.neg p) with (- Z.pos p)%Z.
  rewrite powerRZ_2_opp, powerRZ_2_IZR by lia. reflexivity.
Qed.

(** *** exp and tanh *)

Lemma exp_INR_mult (n : nat) (x : R) :
  Rtrigo_def.exp (INR n * x) = Rtrigo_def.exp x ^ n.
Proof.
  induction n as [|n IH].
  - cbn. rewrite Rmult_0_l. apply exp_0.
  - rewrite S_INR, Rmult_plus_distr_r, Rmult_1_l, exp_plus, IH. cbn. ring.
Qed.

Lemma exp_1_bounds : 2 < Rtrigo_def.exp 1 <= 3.
Proof. split; [pose proof (exp_ineq1 1); lra | apply exp_le_3]. Qed.

Lemma exp_le_pow3 (n : nat) (x : R) :
  x <= INR n -> Rtrigo_def.exp x <= 3 ^ n.
Proof.
  intros Hx. apply Rle_trans with (Rtrigo_def.exp (INR n)).
  - destruct Hx as [Hx| ->]; [left; now apply exp_increasing | lra].
  - rewrite <- (Rmult_1_r (INR n)), exp_INR_mult.
    apply pow_incr. pose proof exp_1_bounds. lra.
Qed.

Lemma exp_ge_pow3 (n : nat) (x : R) :
  - INR n <= x -> / 3 ^ n <= Rtrigo_def.exp x.
Proof.
  intros Hx. pose proof (exp_le_pow3 n (- x)) as H. rewrite exp_Ropp in H.
  pose proof (exp_pos x) as Hp. assert (0 < 3 ^ n) as H3 by (apply pow_lt; lra).
  assert (/ Rtrigo_def.exp x <= 3 ^ n) as Hi by (apply H; lra).
  apply Rinv_le_contravar in Hi; [|now apply Rinv_0_lt_compat].
  now rewrite Rinv_inv in Hi.
Qed.

Lemma tanh_exp (x : R) :
  Rtrigo_def.tanh x = 1 - 2 / (Rtrigo_def.exp (2 * x) + 1).
Proof.
  unfold Rtrigo_def.tanh, sinh, cosh.
  replace (2 * x) with (x + x) by ring. rewrite exp_plus, exp_Ropp.
  pose proof (exp_pos x). field. nra.
Qed.

Lemma tanh_opp (x : R) : Rtrigo_def.tanh (- x) = - Rtrigo_def.tanh x.
Proof.
  unfold Rtrigo_def.tanh, sinh, cosh. rewrite Ropp_involutive.
  pose proof (exp_pos x). pose proof (exp_pos (- x)). field. lra.
Qed.

Lemma tanh_upper (x : R) :
  x <= 8 -> Rtrigo_def.tanh x <= 1 - 2 / (3 ^ 16 + 1).
Proof.
  intros Hx. rewrite tanh_exp.
  pose proof (exp_le_pow3 16 (2 * x)) as H. cbn [INR] in H.
  pose proof (exp_pos (2 * x)) as Hp.
  assert (Rtrigo_def.exp (2 * x) <= 3 ^ 16) as Hle by (apply H; lra).
  assert (/ (3 ^ 16 + 1) <= / (Rtrigo_def.exp (2 * x) + 1)).
  { apply Rinv_le_contravar; lra. }
  unfold Rdiv. lra.
Qed.

Lemma tanh_moderate (x : R) :
  -8 <= x <= 8 ->
  - (1 - 2 / (3 ^ 16 + 1)) <= Rtrigo_def.tanh x <= 1 - 2 / (3 ^ 16 + 1).
Proof.
  intros Hx. split.
  - pose proof (tanh_upper (- x)) as H. rewrite tanh_opp in H.
    assert (- x <= 8) as Hn by lra. specialize (H Hn). lra.
  - apply tanh_upper. lra.
Qed.

Lemma round_0 : round 0 = Finite 0.
Proof.
  apply round_finite.
  - unfold Rdiv. rewrite Rmult_0_l, (round_half_even_down 0 0) by lra. ring.
  - rewrite Rabs_R0. apply powerRZ_lt. lra.
Qed.

(** The exponential of a moderate number is rounded to a positive finite
    number. *)
Lemma exp_positive (x : R) : -8 <= x <= 8 -> strictly_positive (Float32.exp x).
Proof.
  intros Hx. unfold Float32.exp. set (v := Rtrigo_def.exp x).
  assert (/ 3 ^ 8 <= v <= 3 ^ 8) as Hv.
  { split; [apply exp_ge_pow3 | apply exp_le_pow3]; cbn [INR]; lra. }
  assert (0 < v) as Hp by apply exp_pos.
  assert (Rabs v = v) as Ha by (apply Rabs_right; lra).
  pose proof (ulp_le v) as Hu. rewrite Ha in Hu.
  rewrite !powerRZ_2_neg in Hu.
  assert (ulp v <= v * / IZR (2 ^ 23)) as Hu' by (apply Hu; cbn; lra).
  cbn in Hu'. pose proof (ulp_pos v) as Hup.
  pose proof (rounded_error v) as He.
  set (y := IZR (round_half_even (v / ulp v)) * ulp v) in *.
  assert (0 < y <= 2 * v) as Hy by (split; lra).
  rewrite (round_finite v y eq_refl).
  - cbn. lra.
  - rewrite Rabs_right by lra. rewrite powerRZ_2_IZR by lia. cbn. lra.
Qed.

(** [tanh] of a moderate number is rounded to a number strictly between
    -1 and 1. *)
Lemma tanh_strictly_within (x : R) :
  -8 <= x <= 8 -> strictly_within (-1) 1 (Float32.tanh x).
Proof.
  intros Hx. unfold Float32.tanh. set (v := Rtrigo_def.tanh x).
  pose proof (tanh_moderate x Hx) as Hv. fold v in Hv.
  destruct (Req_dec v 0) as [->|Hne]; [rewrite round_0; cbn; lra|].
  assert (Rabs v < powerRZ 2 0) as Hlt by (cbn; apply Rabs_def1; lra).
  pose proof (ulp_small 0 v ltac:(lia) Hne Hlt) as Hu.
  change (0 - 24)%Z with (Z.neg 24) in Hu. rewrite powerRZ_2_neg in Hu. cbn in Hu.
  pose proof (rounded_error v) as He.
  set (y := IZR (round_half_even (v / ulp v)) * ulp v) in *.
  assert (-1 < y < 1) as Hy by (split; lra).
  rewrite (round_finite v y eq_refl).
  - cbn. lra.
  - pose proof pow2_128_big. apply Rabs_def1; lra.
Qed.

(** [tanh 12] differs from 1 by less than half the spacing of the
    float32 numbers below 1: it is rounded to 1. *)
Lemma tanh_12 : Float32.tanh 12 = Finite 1.
Proof.
  unfold Float32.tanh. set (v := Rtrigo_def.tanh 12).
  assert (1 - / 2 ^ 25 < v < 1) as Hv.
  { unfold v. rewrite tanh_exp. replace (2 * 12) with (INR 48 * / 2).
    2:{ rewrite INR_IZR_INZ. change (Z.of_nat 48) with 48%Z. lra. }
    rewrite exp_INR_mult. pose proof (exp_ineq1 (/ 2)) as H.
    assert ((3 / 2) ^ 48 <= Rtrigo_def.exp (/ 2) ^ 48) as H1 by (apply pow_incr; lra).
    set (p := Rtrigo_def.exp (/ 2) ^ 48) in *. clearbody p.
    assert (2 ^ 26 < p) as Hp by lra.
    split.
    - assert (2 / (p + 1) < / 2 ^ 25); [|lra].
      apply Rmult_lt_reg_r with (p + 1); [lra|]. unfold Rdiv.
      rewrite Rmult_assoc, Rinv_l by lra. lra.
    - assert (0 < 2 / (p + 1)); [|lra]. apply Rdiv_lt_0_compat; lra. }
  clearbody v.
  assert (exponent v = (-1)%Z) as He.
  { apply exponent_eq. rewrite Rabs_right by lra.
    change (-1 + 1)%Z with 0%Z. rewrite (powerRZ_2_neg 1), powerRZ_O.
    change (IZR (2 ^ 1)) with 2. lra. }
  assert (ulp v = / 16777216) as Hu.
  { unfold ulp. rewrite He. exact (powerRZ_2_neg 24). }
  apply round_finite.
  - rewrite Hu. rewrite (round_half_even_up 16777215).
    + change (16777215 + 1)%Z with 16777216%Z. lra.
    + lra.
  - rewrite Rabs_R1. apply pow2_128_big.
Qed.

(** [exp (-200)] is below half the smallest positive float32 number: it
    is rounded to 0. *)
Lemma exp_minus_200 : Float32.exp (-200) = Finite 0.
Proof.
  unfold Float32.exp. set (v := Rtrigo_def.exp (-200)).
  assert (0 < v < / 2 ^ 151) as Hv.
  { split; [apply exp_pos|]. unfold v.
    replace (-200) with (- (INR 200 * 1)).
    2:{ rewrite INR_IZR_INZ. change (Z.of_nat 200) with 200%Z. lra. }
    rewrite exp_Ropp, exp_INR_mult.
    assert (2 ^ 200 <= Rtrigo_def.exp 1 ^ 200) as H1.
    { apply pow_incr. pose proof exp_1_bounds. lra. }
    set (p := Rtrigo_def.exp 1 ^ 200) in *. clearbody p.
    apply Rinv_lt_contravar; [nra | lra]. }
  clearbody v.
  assert (ulp v = / IZR (2 ^ 149)) as Hu.
  { unfold ulp. rewrite Z.max_r; [apply (powerRZ_2_neg 149)|].
    assert (exponent v < -126)%Z; [|lia].
    apply exponent_lt; [lra|]. rewrite Rabs_right by lra.
    rewrite powerRZ_2_neg. cbn in Hv |- *. lra. }
  apply round_finite.
  - rewrite Hu, (round_half_even_down 0); [ring|].
    unfold Rdiv. rewrite Rinv_inv. cbn in Hv |- *. lra.
  - rewrite Rabs_R0. apply powerRZ_lt. lra.
Qed.

End Float32Facts.

(** ** The mixture parameters derived from the decoder output *)

Module Seq2SeqRowFacts.
Import Row RowFacts Seq2SeqRow.
Local Open Scope R_scope.

Lemma sum_list_widths (K : nat) :
  sum_list [2 * K; 2 * K; K; K; 1]%nat = (6 * K + 1)%nat.
Proof. cbn. lia. Qed.

(** What [mixture_params] returns on a row of the right width, slice by
    slice. *)
Lemma mixture_params_ok (K : nat) (out : list R) :
  length out = (6 * K + 1)%nat ->
  mixture_params K out
  = Ok ({| log_pi := log_softmax (take K (drop (4 * K) out));
           mu := pairs (take (2 * K) out);
           sigma := pairs (map Float32.exp (take (2 * K) (drop (2 * K) out)));
           rho := map Float32.tanh (take K (drop (5 * K) out)) |},
        take 1 (drop (6 * K) out)).
Proof.
  intros Hout. unfold mixture_params, split.
  rewrite sum_list_widths, Hout, Nat.eqb_refl. cbn [mbind result_bind pieces].
  rewrite !drop_drop.
  replace (2 * K + 2 * K)%nat with (4 * K)%nat by lia.
  replace (4 * K + K)%nat with (5 * K)%nat by lia.
  replace (5 * K + K)%nat with (6 * K)%nat by lia.
  unfold view_K2. rewrite length_map, !length_take, !length_drop.
  replace ((2 * K) `min` length out)%nat with (2 * K)%nat by lia.
  replace ((2 * K) `min` (length out - 2 * K))%nat with (2 * K)%nat by lia.
  rewrite Nat.eqb_refl. reflexivity.
Qed.

Lemma Forall_map_f32_exp (v : list R) :
  Forall Float32.nonnegative (map Float32.exp v).
Proof.
  induction v; constructor; [|assumption].
  apply Float32Facts.round_nonnegative. left. apply exp_pos.
Qed.

Lemma Forall_map_f32_tanh (v : list R) :
  Forall (Float32.within (-1) 1) (map Float32.tanh v).
Proof.
  induction v; constructor; [|assumption].
  apply Float32Facts.round_within_unit. pose proof (tanh_bounds a). lra.
Qed.

Lemma Forall_map_moderate {P : Float32.t -> Prop} (f : R -> Float32.t) (v : list R) :
  (forall x, -8 <= x <= 8 -> P (f x)) ->
  Forall (fun x => -8 <= x <= 8) v -> Forall P (map f v).
Proof.
  intros Hf Hv. induction Hv; constructor; auto.
Qed.

(** C6 (counterexample). The decoder output row [(0, 0, -200, -200, 0,
    12, 0)] for one mixture component: [exp (-200)] underflows to 0 and
    [tanh 12] is rounded to 1, so the standard deviations are not
    strictly positive and the correlation is not strictly below 1. *)
Lemma strict_bounds_fail_in_float32 :
  exists d eos,
    mixture_params 1 [0; 0; -200; -200; 0; 12; 0] = Ok (d, eos) /\
    sigma d = [(Float32.Finite 0, Float32.Finite 0)] /\
    rho d = [Float32.Finite 1] /\
    ~ Forall (fun s => Float32.strictly_positive (fst s) /\
                       Float32.strictly_positive (snd s)) (sigma d) /\
    ~ Forall (Float32.strictly_within (-1) 1) (rho d).
Proof.
  eexists _, _. split; [apply (mixture_params_ok 1); reflexivity|].
  cbn [sigma rho Nat.mul Nat.add take drop map pairs].
  rewrite Float32Facts.exp_minus_200, Float32Facts.tanh_12.
  split; [reflexivity|]. split; [reflexivity|]. split.
  - intros H. inversion H as [|? ? [H1 _] _]. cbn in H1. lra.
  - intros H. inversion H as [|? ? H1 _]. cbn in H1. lra.
Qed.

(** C6, as the code has it. From any raw decoder output row of [6 K + 1]
    values, [K >= 1], the slicing and the elementwise transforms yield
    mixture parameters whose exponentiated log-weights add up to 1 (in
    exact arithmetic), whose standard deviations are non-negative or
    [+inf], and whose correlations lie in the closed interval from -1 to
    1. The strict bounds hold when every raw value lies between -8 and 8:
    then the standard deviations are finite and strictly positive and the
    correlations lie strictly between -1 and 1. *)
Theorem mixture_params_bounds_in_float32 (K : nat) (out : list R) :
  (1 <= K)%nat ->
  length out = (6 * K + 1)%nat ->
  exists d eos,
    mixture_params K out = Ok (d, eos) /\
    sum (map exp (log_pi d)) = 1 /\
    Forall (fun s => Float32.nonnegative (fst s) /\ Float32.nonnegative (snd s))
           (sigma d) /\
    Forall (Float32.within (-1) 1) (rho d) /\
    (Forall (fun x => -8 <= x <= 8) out ->
     Forall (fun s => Float32.strictly_positive (fst s) /\
                      Float32.strictly_positive (snd s)) (sigma d) /\
     Forall (Float32.strictly_within (-1) 1) (rho d)) /\
    length (log_pi d) = K /\ length (mu d) = K /\
    length (sigma d) = K /\ length (rho d) = K /\
    length eos = 1%nat.
Proof.
  intros HK Hout. eexists _, _. split; [now apply mixture_params_ok|].
  cbn [log_pi mu sigma rho].
  split.
  { apply log_softmax_normalized. intros Hnil.
    apply (f_equal length) in Hnil. rewrite length_take, length_drop in Hnil.
    cbn in Hnil. lia. }
  split; [apply (Forall_pairs Float32.nonnegative), Forall_map_f32_exp|].
  split; [apply Forall_map_f32_tanh|].
  split.
  { intros Hmod. split.
    - apply (Forall_pairs Float32.strictly_positive).
      apply (Forall_map_moderate _ _ Float32Facts.exp_positive).
      now apply Forall_take, Forall_drop.
    - apply (Forall_map_moderate _ _ Float32Facts.tanh_strictly_within).
      now apply Forall_take, Forall_drop. }
  unfold log_softmax.
  rewrite !(length_pairs _ K), !length_map, !length_take, !length_drop;
    rewrite ?length_map, ?length_take, ?length_drop; lia.
Qed.

(** The row of zeros, for one component: every raw value is moderate, so
    the strict bounds hold as well. *)
Lemma mixture_params_bounds_in_float32_witness :
  exists d eos,
    mixture_params 1 [0; 0; 0; 0; 0; 0; 0] = Ok (d, eos) /\
    sum (map exp (log_pi d)) = 1 /\
    Forall (fun s => Float32.nonnegative (fst s) /\ Float32.nonnegative (snd s))
           (sigma d) /\
    Forall (Float32.within (-1) 1) (rho d) /\
    Forall (fun s => Float32.strictly_positive (fst s) /\
                     Float32.strictly_positive (snd s)) (sigma d) /\
    Forall (Float32.strictly_within (-1) 1) (rho d) /\
    length (sigma d) = 1%nat /\ length (rho d) = 1%nat.
Proof.
  destruct (mixture_params_bounds_in_float32 1 [0; 0; 0; 0; 0; 0; 0])
    as (d & eos & Hp & Hpi & Hs & Hr & Hstrict & _ & _ & Ls & Lr & _).
  - lia.
  - reflexivity.
  - destruct Hstrict as [Hs' Hr']; [repeat constructor; lra|].
    exists d, eos. repeat split; assumption.
Defined.

End Seq2SeqRowFacts.

(** ** GaussianAttention *)

Module GaussianAttentionFacts.
Import Row RowFacts GaussianAttention.
Local Open Scope R_scope.

(** *** The three chunks *)

Lemma chunk_3 (v : list R) (K : nat) :
  length v = (3 * K)%nat ->
  chunk 3 v = [take K v; take K (drop K v); take K (drop (2 * K) v)].
Proof.
  intros Hv. unfold chunk. rewrite Hv.
  replace ((3 * K + 3 - 1) / 3)%nat with K
    by (apply (Nat.div_unique _ 3 K 2); lia).
  destruct K as [|K].
  - reflexivity.
  - cbn [Nat.eqb].
    replace ((3 * S K + S K - 1) / S K)%nat with 3%nat
      by (apply (Nat.div_unique _ (S K) 3 K); lia).
    cbn [Nat.max seq map]. rewrite Nat.mul_0_l, Nat.mul_1_l. reflexivity.
Qed.

(** [exp(linear(h_t))] and its three chunks, entry by entry. *)
Definition e (a : t) (h_t : list R) : list R := map exp (linear a h_t).

Lemma length_e a h_t : length (e a h_t) = (3 * n_mixtures a)%nat.
Proof. unfold e. rewrite length_map. apply linear_out. Qed.

Lemma nth_e a h_t (i : nat) :
  (i < 3 * n_mixtures a)%nat -> nth i (e a h_t) 0 = exp (nth i (linear a h_t) 0).
Proof.
  intros Hi. unfold e. apply MixtureFacts.nth_map_lt. rewrite linear_out. exact Hi.
Qed.

Lemma nth_alpha a h_t (k : nat) :
  (k < n_mixtures a)%nat ->
  nth k (take (n_mixtures a) (e a h_t)) 0 = alpha a h_t k.
Proof.
  intros Hk. rewrite nth_firstn. destruct (Nat.ltb_spec k (n_mixtures a)); [|lia].
  apply nth_e. lia.
Qed.

Lemma nth_beta a h_t (k : nat) :
  (k < n_mixtures a)%nat ->
  nth k (take (n_mixtures a) (drop (n_mixtures a) (e a h_t))) 0 = beta a h_t k.
Proof.
  intros Hk. rewrite nth_firstn. destruct (Nat.ltb_spec k (n_mixtures a)); [|lia].
  rewrite nth_skipn. apply nth_e. lia.
Qed.

Lemma nth_delta_kappa a h_t (k : nat) :
  (k < n_mixtures a)%nat ->
  nth k (take (n_mixtures a) (drop (2 * n_mixtures a) (e a h_t))) 0 = delta_kappa a h_t k.
Proof.
  intros Hk. rewrite nth_firstn. destruct (Nat.ltb_spec k (n_mixtures a)); [|lia].
  rewrite nth_skipn. apply nth_e. lia.
Qed.

Lemma length_chunks a h_t :
  length (take (n_mixtures a) (e a h_t)) = n_mixtures a /\
  length (take (n_mixtures a) (drop (n_mixtures a) (e a h_t))) = n_mixtures a /\
  length (take (n_mixtures a) (drop (2 * n_mixtures a) (e a h_t))) = n_mixtures a.
Proof.
  pose proof (length_e a h_t) as He.
  rewrite !length_take, !length_drop, He. lia.
Qed.

(** *** Sums over the positions *)

Lemma length_sum_rows (D : nat) (m : list (list R)) :
  Forall (fun p => length p = D) m -> length (sum_rows D m) = D.
Proof.
  induction 1 as [|p m Hp _ IH]; cbn.
  - apply repeat_length.
  - rewrite length_zip_with. unfold sum_rows in IH. lia.
Qed.

Lemma nth_sum_rows (D : nat) (m : list (list R)) (j : nat) :
  Forall (fun p => length p = D) m -> (j < D)%nat ->
  nth j (sum_rows D m) 0 = sum (map (fun p => nth j p 0) m).
Proof.
  intros Hm Hj. induction Hm as [|p m Hp Hm IH]; cbn.
  - apply nth_repeat.
  - pose proof (length_sum_rows D m Hm) as Hl. unfold sum_rows in Hl, IH.
    rewrite (zip_with_nth Rplus p _ 0 0 D) by assumption.
    rewrite nth_map_seq by assumption. unfold sum in IH |- *.
    rewrite IH. reflexivity.
Qed.

(** *** What a call returns *)

(** The position state, the window weights and the context vector that a
    call returns, written out. *)
Definition kappa_of (a : t) (h_t k_tm1 : list R) : list R :=
  map (fun k => delta_kappa a h_t k + nth k k_tm1 0) (seq 0 (n_mixtures a)).

Definition phi_of (a : t) (h_t kappa : list R) (T : nat) : list R :=
  map (phi_ref a h_t kappa) (seq 0 T).

Definition weighted_sum (ctx : Context) (phi : list R) : list R :=
  sum_rows (enc_size ctx)
    (zip_with (fun p_u c_u => map (Rmult p_u) c_u) phi (positions ctx)).

Lemma length_kappa_of a h_t k_tm1 : length (kappa_of a h_t k_tm1) = n_mixtures a.
Proof. unfold kappa_of. now rewrite length_map, length_seq. Qed.

Lemma nth_kappa_of a h_t k_tm1 (k : nat) :
  (k < n_mixtures a)%nat ->
  nth k (kappa_of a h_t k_tm1) 0 = delta_kappa a h_t k + nth k k_tm1 0.
Proof. intros Hk. unfold kappa_of. now rewrite nth_map_seq. Qed.

(** The window weight at one position, as the code computes it. *)
Lemma phi_at a h_t (kappa : list R) (u : R) :
  length kappa = n_mixtures a ->
  sum (zip_with Rmult (take (n_mixtures a) (e a h_t))
         (map exp (zip_with Rmult
                     (map Ropp (take (n_mixtures a) (drop (n_mixtures a) (e a h_t))))
                     (map (fun k => (k - u) ^ 2) kappa))))
  = sum (map (fun k => alpha a h_t k * exp (- beta a h_t k * (nth k kappa 0 - u) ^ 2))
             (seq 0 (n_mixtures a))).
Proof.
  intros Hk. destruct (length_chunks a h_t) as (La & Lb & _).
  rewrite (zip_with_nth Rmult (map Ropp _) _ 0 0 (n_mixtures a))
    by (rewrite length_map; assumption).
  rewrite map_map.
  rewrite (zip_with_nth Rmult _ _ 0 0 (n_mixtures a))
    by (rewrite ?length_map, ?length_seq; first [assumption | reflexivity]).
  apply sum_map_ext_in. intros k Hin. apply in_seq in Hin. cbn in Hin.
  rewrite nth_map_seq, nth_alpha by lia.
  rewrite (MixtureFacts.nth_map_lt Ropp _ k 0), nth_beta by lia.
  rewrite (MixtureFacts.nth_map_lt _ kappa k 0) by lia.
  reflexivity.
Qed.

(** A call whose carried position state has one entry per mixture
    component returns, for every context. *)
Lemma forward_ok a h_t k_tm1 ctx :
  length k_tm1 = n_mixtures a ->
  forward a h_t k_tm1 ctx
  = Ok (weighted_sum ctx (phi_of a h_t (kappa_of a h_t k_tm1) (length (positions ctx))),
        phi_of a h_t (kappa_of a h_t k_tm1) (length (positions ctx)),
        kappa_of a h_t k_tm1).
Proof.
  intros Hk. unfold forward. change (map exp (linear a h_t)) with (e a h_t).
  rewrite (chunk_3 _ (n_mixtures a)) by apply length_e.
  destruct (length_chunks a h_t) as (La & Lb & Ld).
  rewrite (broadcast_inplace_nth Rplus _ _ 0 0 (n_mixtures a)) by assumption.
  cbn [mbind result_bind].
  assert (map (fun k => nth k (take (n_mixtures a) (drop (2 * n_mixtures a) (e a h_t))) 0
                        + nth k k_tm1 0) (seq 0 (n_mixtures a))
          = kappa_of a h_t k_tm1) as ->.
  { apply map_ext_in. intros k Hin. apply in_seq in Hin.
    rewrite nth_delta_kappa by lia. reflexivity. }
  assert (map (fun u_i =>
                 sum (zip_with Rmult (take (n_mixtures a) (e a h_t))
                        (map exp (zip_with Rmult
                           (map Ropp (take (n_mixtures a) (drop (n_mixtures a) (e a h_t))))
                           (map (fun k => (k - u_i) ^ 2) (kappa_of a h_t k_tm1))))))
              (map INR (seq 0 (length (positions ctx))))
          = phi_of a h_t (kappa_of a h_t k_tm1) (length (positions ctx))) as ->.
  { rewrite map_map. apply map_ext. intros u.
    apply phi_at, length_kappa_of. }
  reflexivity.
Qed.

Lemma weighted_sum_at (ctx : Context) (phi : list R) (j : nat) :
  well_shaped ctx -> length phi = length (positions ctx) -> (j < enc_size ctx)%nat ->
  length (weighted_sum ctx phi) = enc_size ctx /\
  nth j (weighted_sum ctx phi) 0
  = sum (map (fun u => nth u phi 0 * nth j (nth u (positions ctx) []) 0)
             (seq 0 (length (positions ctx)))).
Proof.
  intros Hw Hphi Hj. unfold weighted_sum.
  set (T := length (positions ctx)) in *.
  rewrite (zip_with_nth _ phi (positions ctx) 0 [] T) by (assumption || reflexivity).
  assert (Forall (fun p => length p = enc_size ctx)
            (map (fun k => map (Rmult (nth k phi 0)) (nth k (positions ctx) []))
                 (seq 0 T))) as Hrows.
  { apply List.Forall_forall. intros p Hp. apply in_map_iff in Hp as (u & <- & Hu).
    apply in_seq in Hu. rewrite length_map.
    apply (proj1 (List.Forall_nth _ _) Hw). unfold T in Hu. lia. }
  split; [now apply length_sum_rows|].
  rewrite nth_sum_rows by assumption. rewrite map_map.
  apply sum_map_ext_in. intros u Hu. apply in_seq in Hu.
  apply MixtureFacts.nth_map_lt.
  rewrite (proj1 (List.Forall_nth _ _) Hw u [] ltac:(unfold T in Hu; lia)). exact Hj.
Qed.

(** C3. For every hidden state, carried position state (one entry per
    mixture component) and context of [T] positions, the call returns the
    window weights [phi(u) = sum_k alpha_k exp(- beta_k (kappa_k - u)^2)]
    for [u] in [0, T), exactly as summed (nothing divides them by their
    total), and the context vector [sum_u phi(u) context[u]]. *)
Theorem forward_returns_the_unnormalized_window a h_t k_tm1 ctx :
  length k_tm1 = n_mixtures a ->
  well_shaped ctx ->
  exists w phi kappa,
    forward a h_t k_tm1 ctx = Ok (w, phi, kappa) /\
    length phi = length (positions ctx) /\
    (forall u, (u < length (positions ctx))%nat ->
       nth u phi 0
       = sum (map (fun k => alpha a h_t k
                            * exp (- beta a h_t k * (nth k kappa 0 - INR u) ^ 2))
                  (seq 0 (n_mixtures a)))) /\
    length w = enc_size ctx /\
    (forall j, (j < enc_size ctx)%nat ->
       nth j w 0
       = sum (map (fun u => nth u phi 0 * nth j (nth u (positions ctx) []) 0)
                  (seq 0 (length (positions ctx))))).
Proof.
  intros Hk Hw. eexists _, _, _. split; [now apply forward_ok|].
  assert (length (phi_of a h_t (kappa_of a h_t k_tm1) (length (positions ctx)))
          = length (positions ctx)) as Hphi.
  { unfold phi_of. now rewrite length_map, length_seq. }
  split; [exact Hphi|]. split; [|split].
  - intros u Hu. unfold phi_of. now rewrite nth_map_seq.
  - unfold weighted_sum. apply length_sum_rows.
    apply Forall_forall.
    intros p (u & pu & cu & -> & _ & Hc)%elem_of_lookup_zip_with.
    rewrite length_map.
    apply (proj1 (Forall_forall _ _) Hw). eapply list_elem_of_lookup_2, Hc.
  - intros j Hj. now apply weighted_sum_at.
Qed.

(** An attention with one component whose linear layer returns zeros, and
    contexts of one and of two positions. *)
Definition zero_linear : list R -> list R := fun _ => [0; 0; 0].

Definition unit_attention : t :=
  {| n_mixtures := 1; linear := zero_linear; linear_out := fun _ => eq_refl |}.

Definition ctx_1 : Context := {| enc_size := 1; positions := [[1]] |}.
Definition ctx_2 : Context := {| enc_size := 1; positions := [[1]; [1]] |}.

Lemma ctx_1_well_shaped : well_shaped ctx_1.
Proof. repeat constructor. Defined.

Lemma forward_returns_the_unnormalized_window_witness :
  exists w phi kappa,
    forward unit_attention [] [0] ctx_1 = Ok (w, phi, kappa) /\
    length phi = length (positions ctx_1) /\
    (forall u, (u < length (positions ctx_1))%nat ->
       nth u phi 0
       = sum (map (fun k => alpha unit_attention [] k
                            * exp (- beta unit_attention [] k * (nth k kappa 0 - INR u) ^ 2))
                  (seq 0 (n_mixtures unit_attention)))) /\
    length w = enc_size ctx_1 /\
    (forall j, (j < enc_size ctx_1)%nat ->
       nth j w 0
       = sum (map (fun u => nth u phi 0 * nth j (nth u (positions ctx_1) []) 0)
                  (seq 0 (length (positions ctx_1))))).
Proof.
  apply (forward_returns_the_unnormalized_window unit_attention [] [0] ctx_1).
  - reflexivity.
  - exact ctx_1_well_shaped.
Defined.

(** On that input the single window weight is [exp (-1)]: the weights do
    not add up to 1. *)
Lemma window_weights_need_not_sum_to_one :
  exists w phi kappa,
    forward unit_attention [] [0] ctx_1 = Ok (w, phi, kappa) /\ sum phi <> 1.
Proof.
  eexists _, _, _. split; [now apply forward_ok|].
  unfold phi_of, phi_ref, kappa_of, alpha, beta, delta_kappa. cbn.
  rewrite exp_0.
  assert (exp (- (1) * ((1 + 0 - 0) * ((1 + 0 - 0) * 1))) = / exp 1) as ->.
  { rewrite <- exp_Ropp. f_equal. ring. }
  pose proof (exp_ineq1 1 ltac:(lra)) as H1.
  assert (/ exp 1 * exp 1 = 1) as H2 by (apply Rinv_l; lra).
  revert H2. generalize (/ exp 1). intros q H2. nra.
Qed.

(** *** kappa over successive calls *)

Lemma Forall2_nth_le (k k' : list R) (K : nat) :
  length k = K -> length k' = K ->
  (forall j, (j < K)%nat -> nth j k 0 <= nth j k' 0) ->
  Forall2 Rle k k'.
Proof.
  revert k' K. induction k as [|x k IH]; intros [|y k'] K Hk Hk' Hle;
    cbn in Hk, Hk'; subst K; try discriminate; constructor.
  - apply (Hle 0%nat). lia.
  - apply (IH k' (length k)); [reflexivity | congruence |].
    intros j Hj. apply (Hle (S j)). lia.
Qed.

(** One call moves every component of the position state forward. *)
Lemma forward_kappa_le a h_t k_tm1 :
  length k_tm1 = n_mixtures a ->
  Forall2 Rle k_tm1 (kappa_of a h_t k_tm1).
Proof.
  intros Hk. apply (Forall2_nth_le _ _ (n_mixtures a)); [assumption | apply length_kappa_of |].
  intros j Hj. rewrite nth_kappa_of by assumption.
  pose proof (exp_pos (nth (2 * n_mixtures a + j) (linear a h_t) 0)).
  unfold delta_kappa. lra.
Qed.

(** C4. Successive calls that hand the returned kappa to the next call:
    every call returns, the kappa it returns is the carried one plus
    [exp] of a linear projection of the hidden state, and each kappa is
    component-wise at least the one before it. *)
Theorem kappa_is_nondecreasing a (calls : list (list R * Context)) (k_0 : list R) :
  length k_0 = n_mixtures a ->
  exists kappas,
    thread a calls k_0 = Ok kappas /\
    length kappas = length calls /\
    forall i h_t ctx k k',
      calls !! i = Some (h_t, ctx) ->
      (k_0 :: kappas) !! i = Some k ->
      kappas !! i = Some k' ->
      length k' = n_mixtures a /\
      (forall j, (j < n_mixtures a)%nat ->
         nth j k' 0 = nth j k 0 + exp (nth (2 * n_mixtures a + j) (linear a h_t) 0)) /\
      Forall2 Rle k k'.
Proof.
  revert k_0. induction calls as [|[h_t ctx] calls IH]; intros k_0 Hk.
  - exists []. split; [reflexivity|]. split; [reflexivity|].
    intros i ? ? ? ? Hc. rewrite lookup_nil in Hc. discriminate.
  - cbn [thread]. rewrite forward_ok by assumption. cbn [mbind result_bind].
    destruct (IH (kappa_of a h_t k_0) (length_kappa_of a h_t k_0))
      as (kappas & Hrun & Hlen & Hstep).
    rewrite Hrun. cbn [mbind result_bind].
    exists (kappa_of a h_t k_0 :: kappas).
    split; [reflexivity|]. split; [cbn; congruence|].
    intros [|i] h ctx' k k' Hc Hi Hi'; cbn in Hc, Hi, Hi'.
    + injection Hc as <- <-. injection Hi as <-. injection Hi' as <-.
      split; [apply length_kappa_of|]. split; [|now apply forward_kappa_le].
      intros j Hj. rewrite nth_kappa_of by assumption. unfold delta_kappa. ring.
    + now apply (Hstep i h ctx' k k').
Qed.

Lemma kappa_is_nondecreasing_witness :
  exists kappas,
    thread unit_attention [([], ctx_1); ([], ctx_1)] [0] = Ok kappas /\
    length kappas = length [(@nil R, ctx_1); ([], ctx_1)] /\
    forall i h_t ctx k k',
      [(@nil R, ctx_1); ([], ctx_1)] !! i = Some (h_t, ctx) ->
      ([0] :: kappas) !! i = Some k ->
      kappas !! i = Some k' ->
      length k' = n_mixtures unit_attention /\
      (forall j, (j < n_mixtures unit_attention)%nat ->
         nth j k' 0
         = nth j k 0 + exp (nth (2 * n_mixtures unit_attention + j)
                                (linear unit_attention h_t) 0)) /\
      Forall2 Rle k k'.
Proof.
  apply (kappa_is_nondecreasing unit_attention [([], ctx_1); ([], ctx_1)] [0]).
  reflexivity.
Defined.

End GaussianAttentionFacts.

(** ** Shapes of the two losses *)

Module ShapeFacts.
Import Shape.

Lemma broadcast_rev_same (s : list nat) : broadcast_rev s s = Ok s.
Proof.
  induction s as [|x s IH]; [reflexivity|].
  cbn [broadcast_rev]. rewrite IH. cbn [mbind result_bind].
  now rewrite Nat.eqb_refl.
Qed.

(** Equal shapes, and shapes that differ by a 1 on one axis. *)
Lemma broadcast_same (s : shape) : broadcast s s = Ok s.
Proof.
  unfold broadcast. rewrite broadcast_rev_same. cbn [mbind result_bind].
  now rewrite rev_involutive.
Qed.

Lemma broadcast_last_1 (s : shape) (n : nat) :
  broadcast (s ++ [n]) (s ++ [1]) = Ok (s ++ [n]).
Proof.
  unfold broadcast. rewrite !rev_unit. cbn [broadcast_rev].
  rewrite broadcast_rev_same. cbn [mbind result_bind].
  destruct (Nat.eqb_spec n 1) as [->|_]; cbn [Nat.eqb mbind result_bind rev];
    now rewrite rev_involutive.
Qed.

Lemma broadcast_1_penultimate (s : shape) (K n : nat) :
  broadcast (s ++ [1; n]) (s ++ [K; n]) = Ok (s ++ [K; n]).
Proof.
  unfold broadcast. rewrite !(rev_app_distr s). cbn [rev app broadcast_rev].
  rewrite broadcast_rev_same. cbn [mbind result_bind].
  rewrite Nat.eqb_refl. cbn [mbind result_bind].
  destruct (Nat.eqb_spec 1 K) as [<-|_]; cbn [Nat.eqb mbind result_bind rev app];
    rewrite rev_involutive, <- app_assoc; reflexivity.
Qed.

(** *** The decoder on the state of one batch size *)

Lemma broadcast_dim_same (x : nat) : broadcast_dim x x = Ok x.
Proof. unfold broadcast_dim. now rewrite Nat.eqb_refl. Qed.

Lemma broadcast_dim_1_l (y : nat) : broadcast_dim 1 y = Ok y.
Proof.
  unfold broadcast_dim. destruct (Nat.eqb_spec 1 y) as [<-|_]; reflexivity.
Qed.

Lemma broadcast_dim_1_r (x : nat) : broadcast_dim x 1 = Ok x.
Proof.
  unfold broadcast_dim. destruct (Nat.eqb_spec x 1) as [->|_]; reflexivity.
Qed.

Lemma chunk_sizes_3 (K : nat) : chunk_sizes 3 (3 * K) = [K; K; K].
Proof.
  unfold chunk_sizes.
  replace ((3 * K + 3 - 1) / 3) with K
    by (apply (Nat.div_unique _ 3 K 2); lia).
  destruct K as [|K].
  - reflexivity.
  - cbn [Nat.eqb].
    replace ((3 * S K + S K - 1) / S K) with 3
      by (apply (Nat.div_unique _ (S K) 3 K); lia).
    cbn [Nat.max seq map]. f_equal; [lia|]. f_equal; [lia|]. f_equal. lia.
Qed.

(** A hidden state of [B] rows, a position state of [B] rows and a
    context of [B] rows and any length and width. *)
Lemma attention_uniform (cfg : Config) (B L E : nat) :
  Decoder.attention cfg (B, dec_hidden_size cfg)
    (B, 1, n_mixtures_attention cfg) (B, L, E)
  = Ok ((B, E), (B, L, 1), (B, 1, n_mixtures_attention cfg)).
Proof.
  unfold Decoder.attention, linear. cbn [fst snd].
  rewrite Nat.eqb_refl. cbn [mbind result_bind].
  rewrite chunk_sizes_3.
  unfold broadcast3_inplace, broadcast3.
  repeat first [ rewrite broadcast_dim_same
               | rewrite broadcast_dim_1_l
               | rewrite broadcast_dim_1_r
               | rewrite bool_decide_eq_true_2 by reflexivity
               | progress cbn [mbind result_bind] ].
  reflexivity.
Qed.

Lemma lookup_repeat {A} (v : A) (N i : nat) :
  i < N -> repeat v N !! i = Some v.
Proof.
  revert i. induction N as [|N IH]; intros [|i] Hi; cbn; try lia; [reflexivity|].
  apply IH. lia.
Qed.

Lemma getitem_repeat {A} (v : A) (N : nat) (i : Z) :
  (- Z.of_nat N <= i < Z.of_nat N)%Z -> Py.getitem (repeat v N) i = Ok v.
Proof.
  intros Hi. unfold Py.getitem, Py.norm_index. rewrite repeat_length.
  destruct (Z.ltb_spec i 0) as [Hneg|Hpos].
  - destruct (Z.ltb_spec (i + Z.of_nat N) 0) as [?|_]; [lia|].
    rewrite lookup_repeat by lia. reflexivity.
  - destruct (Z.ltb_spec i 0) as [?|_]; [lia|].
    rewrite lookup_repeat by lia. reflexivity.
Qed.

Lemma setitem_repeat {A} (v : A) (N i : nat) :
  i < N -> Py.setitem (repeat v N) (Z.of_nat i) v = Ok (repeat v N).
Proof.
  intros Hi. rewrite PyFacts.setitem_nat by (rewrite repeat_length; lia).
  f_equal. apply list_insert_id. now apply lookup_repeat.
Qed.

Lemma cat_1_rows (B : nat) (x : shape2) (ts : list shape2) :
  fst x = B -> Forall (fun t => fst t = B) ts ->
  cat_1 (x :: ts) = Ok (B, sum_list (map snd (x :: ts))).
Proof.
  intros Hx Hts. destruct x as [B0 n]. cbn in Hx. subst B0. unfold cat_1.
  replace (forallb (fun t => fst t =? B) ts) with true; [reflexivity|].
  symmetry. apply forallb_forall. intros t Ht.
  apply Nat.eqb_eq. rewrite List.Forall_forall in Hts. now apply Hts.
Qed.

Lemma sum_list_repeat (n N : nat) : sum_list (repeat n N) = n * N.
Proof. induction N as [|N IH]; cbn in *; lia. Qed.

Lemma cat_1_repeat (B n N : nat) :
  1 <= N -> cat_1 (repeat (B, n) N) = Ok (B, n * N).
Proof.
  intros HN. destruct N as [|N]; [lia|]. cbn [repeat].
  rewrite (cat_1_rows B).
  - f_equal. f_equal. change ((B, n) :: repeat (B, n) N) with (repeat (B, n) (S N)).
    rewrite map_repeat. apply sum_list_repeat.
  - reflexivity.
  - apply List.Forall_forall. intros t Ht. apply repeat_spec in Ht. now subst t.
Qed.

Lemma stack_1_repeat (v : shape2) (T : nat) :
  1 <= T -> stack_1 (repeat v T) = Ok (fst v, T, snd v).
Proof.
  intros HT. destruct T as [|T]; [lia|]. destruct v as [B n]. cbn [repeat stack_1].
  replace (forallb _ _) with true.
  - cbn [length fst snd]. now rewrite repeat_length.
  - symmetry. apply forallb_forall. intros t Ht. apply repeat_spec in Ht. subst t.
    now apply bool_decide_eq_true_2.
Qed.

Section Uniform.
Variable cfg : Config.
Variable B : nat.

Abbreviation H := (dec_hidden_size cfg).
Abbreviation N := (dec_n_layers cfg).

(** The state [forward] starts from on a first call with [B] rows. *)
Definition uniform : Decoder.State := Decoder.entry_state cfg B None.

Lemma lstm_cell_uniform (input_size n : nat) :
  n = input_size ->
  lstm_cell input_size H (B, n) ((B, H), (B, H)) = Ok ((B, H), (B, H)).
Proof.
  intros ->. unfold lstm_cell. cbn [fst snd].
  now rewrite Nat.eqb_refl, !bool_decide_eq_true_2 by reflexivity.
Qed.

Lemma layers_loop_uniform (w : nat) zipped : forall j,
  Forall (fun z => z = (lstm_cell (3 + w + H) H, (B, H), (B, H))) zipped ->
  j + length zipped <= N ->
  Decoder.layers_loop (B, 3) (B, w) j zipped (repeat (B, H) N) (repeat (B, H) N)
  = Ok (repeat (B, H) N, repeat (B, H) N).
Proof.
  induction zipped as [|z zipped IH]; intros j Hz Hj; [reflexivity|].
  apply Forall_cons in Hz as [-> Hz']. cbn [length] in Hj.
  cbn [Decoder.layers_loop].
  rewrite getitem_repeat by lia. cbn [mbind result_bind].
  rewrite (cat_1_rows B) by (repeat constructor).
  cbn [mbind result_bind].
  rewrite lstm_cell_uniform by (cbn; lia). cbn [mbind result_bind].
  rewrite !setitem_repeat by lia. cbn [mbind result_bind].
  apply IH; [assumption | lia].
Qed.

Lemma zipped_uniform (w : nat) :
  Forall (fun z => z = (lstm_cell (3 + w + H) H, (B, H), (B, H)))
    (Py.zip3 (repeat (lstm_cell (3 + w + H) H) (dec_layer_n cfg))
             (drop 1 (repeat (B, H) N)) (drop 1 (repeat (B, H) N))).
Proof.
  unfold N, dec_n_layers. cbn [repeat drop]. unfold Py.zip3.
  induction (dec_layer_n cfg) as [|n IH]; cbn; constructor; auto.
Qed.

(** One step on a point of [B] rows leaves the shapes of the state as
    they are and gives an output row of [6 K + 1] entries per batch
    row, for a context of [B] rows of any length. *)
Lemma step_uniform (L : nat) :
  Decoder.step cfg (B, L, enc_emb_size cfg) uniform (B, 3)
  = Ok ((B, n_mixtures_output cfg * 6 + 1), uniform).
Proof.
  unfold Decoder.step, uniform, Decoder.entry_state.
  rewrite (cat_1_rows B) by (repeat constructor).
  cbn [mbind result_bind].
  assert (1 <= N) as HN by (unfold dec_n_layers; lia).
  rewrite !getitem_repeat by lia. cbn [mbind result_bind].
  rewrite lstm_cell_uniform by (cbn; lia). cbn [mbind result_bind].
  rewrite !(setitem_repeat _ _ 0) by lia. cbn [mbind result_bind].
  rewrite getitem_repeat by lia. cbn [mbind result_bind].
  rewrite attention_uniform. cbn [mbind result_bind].
  unfold Decoder.layer_n.
  rewrite layers_loop_uniform.
  - cbn [mbind result_bind]. rewrite cat_1_repeat by lia. cbn [mbind result_bind].
    unfold linear. cbn [fst snd]. rewrite Nat.eqb_refl. reflexivity.
  - apply zipped_uniform.
  - rewrite PyFacts.length_zip3, !length_drop, !repeat_length.
    unfold dec_n_layers. lia.
Qed.

Lemma steps_loop_uniform (L T : nat) : forall outputs,
  Decoder.steps_loop cfg (B, L, enc_emb_size cfg) (repeat (B, 3) T) uniform outputs
  = Ok (outputs ++ repeat (B, n_mixtures_output cfg * 6 + 1) T, uniform).
Proof.
  induction T as [|T IH]; intros outputs.
  - cbn. now rewrite app_nil_r.
  - cbn [repeat Decoder.steps_loop]. rewrite step_uniform. cbn [mbind result_bind].
    rewrite IH, <- app_assoc. reflexivity.
Qed.

(** A call on [T >= 1] points, on a first call or from the state that an
    earlier call on [B] rows returned, whatever the length of the
    context of either call. *)
Lemma forward_uniform (T L : nat) (prev_states : option Decoder.State) :
  1 <= T ->
  Decoder.entry_state cfg B prev_states = uniform ->
  Decoder.forward cfg (B, T, 3) (B, L, enc_emb_size cfg) prev_states
  = Ok ((B, T, n_mixtures_output cfg * 6 + 1), uniform).
Proof.
  intros HT Hst. unfold Decoder.forward. rewrite Hst, steps_loop_uniform.
  cbn [mbind result_bind app]. now rewrite stack_1_repeat.
Qed.

End Uniform.

Lemma dec_uniform (cfg : Config) (B T L : nat) :
  1 <= T ->
  dec cfg [B; T; 3] [B; L; enc_emb_size cfg]
  = Ok [B; T; n_mixtures_output cfg * 6 + 1].
Proof.
  intros HT. unfold dec. now rewrite (forward_uniform cfg B T L None).
Qed.

(** A carried state whose context vector has another number of rows than
    the points: the first [torch.cat] of the first step refuses them
    (with no step at all, [torch.stack] has nothing to stack). *)
Lemma forward_batch_mismatch (cfg : Config) (B T F Bw E : nat) (ctx : shape3)
    (h c : list shape2) (k : shape3) :
  Bw <> B ->
  Decoder.forward cfg (B, T, F) ctx (Some (h, c, (Bw, E), k)) = Err RuntimeError.
Proof.
  intros Hne. unfold Decoder.forward, Decoder.entry_state.
  destruct T as [|T]; [reflexivity|].
  cbn [repeat Decoder.steps_loop Decoder.step cat_1 forallb fst].
  destruct (Nat.eqb_spec Bw B) as [?|_]; [contradiction | reflexivity].
Qed.

(** C9, as the code has it. On a batch of [B] stroke sequences of
    [T >= 1] steps and [B] character sequences of [L] characters,
    [forward] returns two scalars: both losses have the 0-dimensional
    shape [()], one number for the whole batch, whatever [B] is. *)
Theorem forward_returns_two_scalars (cfg : Config) (B T L : nat) :
  1 <= T ->
  forward cfg [B; T; 3] [B; L] [B; L] = Ok ([], []).
Proof.
  intros HT. unfold forward.
  rewrite (broadcast_last_1 [B; L]). cbn [mbind result_bind app].
  rewrite dec_uniform by assumption. cbn [mbind result_bind].
  unfold split_last. cbn [last removelast app].
  set (K := n_mixtures_output cfg).
  assert (sum_list [2 * K; 2 * K; K; K; 1] = K * 6 + 1) as -> by (cbn; lia).
  rewrite Nat.eqb_refl. cbn [map mbind result_bind app take].
  unfold view, numel. cbn [fold_right].
  replace (B * (T * (2 * K * 1))) with (B * (T * (K * (2 * 1)))) by lia.
  rewrite Nat.eqb_refl. cbn [mbind result_bind].
  unfold slice_last, unsqueeze_m2. cbn [last removelast app mbind result_bind Nat.min Nat.sub].
  unfold log_prob.
  rewrite (broadcast_1_penultimate [B; T] K 2
             : broadcast [B; T; 1; 2] [B; T; K; 2] = Ok [B; T; K; 2]).
  cbn [mbind result_bind].
  repeat (rewrite broadcast_same; cbn [mbind result_bind reduce_last removelast]).
  unfold binary_cross_entropy_with_logits, mean.
  rewrite decide_True by reflexivity. reflexivity.
Qed.

(** The scenario of the specification: batch 2, 5 steps, 3 output
    components, 2 attention components, context length 4. *)
Definition scenario_A : Config :=
  {| enc_emb_size := 8; dec_hidden_size := 16; dec_layer_n := 1;
     n_mixtures_attention := 2; n_mixtures_output := 3 |}.

Lemma forward_returns_two_scalars_witness :
  forward scenario_A [2; 5; 3] [2; 4] [2; 4] = Ok ([], []).
Proof. apply (forward_returns_two_scalars scenario_A 2 5 4). lia. Defined.

(** C9 (counterexample). In that scenario neither loss has the shape
    [(batch,)], that is [[2]]. *)
Lemma losses_are_not_per_batch_element :
  forward scenario_A [2; 5; 3] [2; 4] [2; 4] = Ok ([], []) /\
  forward scenario_A [2; 5; 3] [2; 4] [2; 4] <> Ok ([2], [2]).
Proof. split; [reflexivity | discriminate]. Qed.


End ShapeFacts.

(** ** Contract violations *)

Module ContractViolations.
Import Row RowFacts GaussianAttention GaussianAttentionFacts.
Import MixtureOfBivariateNormal MixtureFacts.
Local Open Scope R_scope.

(** A carried position state of the wrong width is what the attention
    rejects; a single entry is broadcast. *)
Lemma forward_is_ok a h_t k_tm1 ctx :
  is_ok (forward a h_t k_tm1 ctx)
  = (length k_tm1 =? n_mixtures a)%nat || (length k_tm1 =? 1)%nat.
Proof.
  unfold forward. change (map exp (linear a h_t)) with (e a h_t).
  rewrite (chunk_3 _ (n_mixtures a)) by apply length_e.
  destruct (length_chunks a h_t) as (_ & _ & Ld).
  unfold broadcast_inplace. rewrite Ld, (Nat.eqb_sym (n_mixtures a)).
  destruct (length k_tm1 =? n_mixtures a)%nat; [reflexivity|].
  destruct k_tm1 as [|y [|z k]]; reflexivity.
Qed.

(** Parameters no bivariate normal distribution has: a negative and a
    zero standard deviation, a correlation of 2. *)
Definition degenerate : MixtureOfBivariateNormal.t :=
  {| log_pi := [0]; mu := [(0, 0)]; sigma := [(-1, 0)]; rho := [2] |}.

(** C10 (counterexample). Two calls of the attention sharing the position
    state, on contexts of different lengths, both return; and [log_prob]
    returns on the degenerate parameters. No error is raised. *)
Lemma violations_are_accepted :
  (exists w phi kappa w' phi' kappa',
     forward unit_attention [] [0] ctx_1 = Ok (w, phi, kappa) /\
     forward unit_attention [] kappa ctx_2 = Ok (w', phi', kappa') /\
     length (positions ctx_1) <> length (positions ctx_2)) /\
  (exists v, log_prob degenerate (0, 0) = Ok v).
Proof.
  split.
  - eexists _, _, _, _, _, _. split; [now apply forward_ok|].
    split; [apply forward_ok, length_kappa_of | discriminate].
  - eexists. now apply (log_prob_terms degenerate (0, 0) 1%nat).
Qed.

(** C10, as the code has it. The code validates nothing itself; of the
    three kinds of violation only the first is refused, by the tensor
    library. (1) A carried state whose context vector has another batch
    size than the new points - such as the state an earlier call on
    another batch size returned - makes the decoder call fail with the
    library's shape error, a [RuntimeError]. (2) A context whose length
    differs from that of the earlier call whose state is carried on is
    accepted: the call returns; the attention returns on a context of any
    length. (3) The mixture density returns on all parameters whose sizes
    along the mixture axis agree, whatever the values of sigma and rho. *)
Theorem only_a_batch_mismatch_is_refused
    (cfg : Shape.Config) (B B' T T' L L' : nat)
    (d : MixtureOfBivariateNormal.t) (x : R * R) (K : nat) :
  B' <> B -> (1 <= T)%nat -> (1 <= T')%nat ->
  length (log_pi d) = K -> length (mu d) = K ->
  length (sigma d) = K -> length (rho d) = K ->
  ((forall F ctx h c E k,
      Shape.Decoder.forward cfg (B, T', F)%nat ctx (Some (h, c, (B', E), k))
      = Err RuntimeError) /\
   (exists out st,
      Shape.Decoder.forward cfg (B', T, 3)%nat (B', L, Shape.enc_emb_size cfg) None
      = Ok (out, st) /\
      Shape.Decoder.forward cfg (B, T', 3)%nat (B, L', Shape.enc_emb_size cfg) (Some st)
      = Err RuntimeError)) /\
  ((exists out st out' st',
      Shape.Decoder.forward cfg (B, T, 3)%nat (B, L, Shape.enc_emb_size cfg) None
      = Ok (out, st) /\
      Shape.Decoder.forward cfg (B, T', 3)%nat (B, L', Shape.enc_emb_size cfg) (Some st)
      = Ok (out', st')) /\
   (forall a h_t k_tm1 ctx,
      length k_tm1 = n_mixtures a -> is_ok (forward a h_t k_tm1 ctx) = true)) /\
  is_ok (log_prob d x) = true.
Proof.
  intros Hne HT HT' Hp Hm Hs Hr. split; [split|split; [split|]].
  - intros F ctx h c E k. now apply ShapeFacts.forward_batch_mismatch.
  - eexists _, _. split; [now apply ShapeFacts.forward_uniform|].
    now apply ShapeFacts.forward_batch_mismatch.
  - eexists _, _, _, _. split; [now apply ShapeFacts.forward_uniform|].
    now apply ShapeFacts.forward_uniform.
  - intros a h_t k_tm1 ctx Hk. rewrite forward_is_ok, Hk, Nat.eqb_refl. reflexivity.
  - now rewrite (log_prob_terms d x K).
Qed.

(** Scenario A: a state of batch size 3 carried into a call on batch
    size 2; contexts of lengths 4 and 7 on batch size 2; the degenerate
    parameters. *)
Lemma only_a_batch_mismatch_is_refused_witness :
  ((forall F ctx h c E k,
      Shape.Decoder.forward ShapeFacts.scenario_A (2, 1, F)%nat ctx
        (Some (h, c, (3%nat, E), k))
      = Err RuntimeError) /\
   (exists out st,
      Shape.Decoder.forward ShapeFacts.scenario_A (3, 5, 3)%nat (3, 4, 8)%nat None
      = Ok (out, st) /\
      Shape.Decoder.forward ShapeFacts.scenario_A (2, 1, 3)%nat (2, 7, 8)%nat (Some st)
      = Err RuntimeError)) /\
  ((exists out st out' st',
      Shape.Decoder.forward ShapeFacts.scenario_A (2, 5, 3)%nat (2, 4, 8)%nat None
      = Ok (out, st) /\
      Shape.Decoder.forward ShapeFacts.scenario_A (2, 1, 3)%nat (2, 7, 8)%nat (Some st)
      = Ok (out', st')) /\
   (forall a h_t k_tm1 ctx,
      length k_tm1 = n_mixtures a -> is_ok (forward a h_t k_tm1 ctx) = true)) /\
  is_ok (log_prob degenerate (0, 0)) = true.
Proof.
  apply (only_a_batch_mismatch_is_refused ShapeFacts.scenario_A
           2%nat 3%nat 5%nat 1%nat 4%nat 7%nat degenerate (0, 0) 1%nat);
    try reflexivity; lia.
Defined.

End ContractViolations.

(** ** RNNDecoder: when a call returns, what a step computes, how calls chain *)

Module RNNDecoderMore.
Import Py PyFacts RNNDecoder RNNDecoderFacts.
Section Decoder.
Context {Tensor Rng : Type} `{!Torch Tensor Rng}.
Implicit Types (d : RNNDecoder.t Tensor) (h c : list Tensor).









(** *** What one step computes *)

(** The results of the cells of the inner loop, in order: each cell is run
    on [cat [x_t; w; prev]], [prev] being the hidden state the previous
    cell of the loop has just returned ([prev] itself for the first). *)
Fixpoint chained (x_t w prev : Tensor)
    (zipped : list (LSTMCell Tensor * Tensor * Tensor)) : list (Tensor * Tensor) :=
  match zipped with
  | [] => []
  | (layer, prev_h, prev_c) :: zipped' =>
      let r := layer (cat [x_t; w; prev]) (prev_h, prev_c) in
      r :: chained x_t w (fst r) zipped'
  end.

Lemma chained_lookup x w zipped : forall prev j layer prev_h prev_c,
  zipped !! j = Some (layer, prev_h, prev_c) ->
  exists input,
    chained x w prev zipped !! j = Some (layer (cat [x; w; input]) (prev_h, prev_c)) /\
    match j with
    | O => input = prev
    | S i => exists r, chained x w prev zipped !! i = Some r /\ input = fst r
    end.
Proof.
  induction zipped as [|[[l0 ph0] pc0] zipped IH]; intros prev j layer prev_h prev_c Hj.
  - rewrite lookup_nil in Hj. discriminate.
  - destruct j as [|j]; cbn in Hj.
    + injection Hj as -> -> ->. exists prev. split; reflexivity.
    + destruct (IH (fst (l0 (cat [x; w; prev]) (ph0, pc0))) j layer prev_h prev_c Hj)
        as (input & Hin & Hprev).
      exists input. split; [exact Hin|].
      destruct j as [|i].
      * eexists. split; [reflexivity|]. exact Hprev.
      * exact Hprev.
Qed.

(** The inner loop stores the chained results at the indices [j], [j+1],
    ... and touches nothing below [j]. *)
Lemma layers_loop_chained x w zipped : forall m j h c prev,
  length zipped = m ->
  getitem h (Z.of_nat j - 1) = Ok prev ->
  j + m < length h -> j + m < length c ->
  exists h' c',
    layers_loop x w j zipped h c = Ok (h', c') /\
    (forall i, i < j -> h' !! i = h !! i) /\
    (forall i, i < j -> c' !! i = c !! i) /\
    (forall i r, chained x w prev zipped !! i = Some r ->
       h' !! (j + i) = Some (fst r) /\ c' !! (j + i) = Some (snd r)).
Proof.
  induction zipped as [|[[layer prev_h] prev_c] zipped IH]; intros m j h c prev Hm Hp Hh Hc.
  - exists h, c. split; [reflexivity|]. split; [auto|]. split; [auto|].
    intros i r Hr. cbn in Hr. rewrite lookup_nil in Hr. discriminate.
  - destruct m as [|m]; [discriminate Hm|]. injection Hm as Hm.
    cbn [layers_loop chained]. rewrite Hp. cbn [mbind result_bind].
    destruct (layer (cat [x; w; prev]) (prev_h, prev_c)) as [h_j c_j] eqn:Hr.
    rewrite !setitem_nat by lia. cbn [mbind result_bind fst].
    destruct (IH m (S j) (<[j:=h_j]> h) (<[j:=c_j]> c) h_j) as (h' & c' & Hrun & Bh & Bc & Ch).
    { exact Hm. }
    { apply getitem_pred, list_lookup_insert_eq. lia. }
    { rewrite length_insert. lia. }
    { rewrite length_insert. lia. }
    exists h', c'. split; [exact Hrun|]. split; [|split].
    + intros i Hi. rewrite Bh by lia. apply list_lookup_insert_ne. lia.
    + intros i Hi. rewrite Bc by lia. apply list_lookup_insert_ne. lia.
    + intros [|i] r Hi; cbn in Hi.
      * injection Hi as <-. rewrite Nat.add_0_r, Bh, Bc by lia.
        split; apply list_lookup_insert_eq; lia.
      * replace (j + S i) with (S j + i) by lia. now apply Ch.
Qed.

(** X2. One time step of a decoder with [N >= 2] layers, from state lists
    of [N] entries. Layer 0 runs on [x_t] and the carried context vector
    and the attention runs on its hidden state; then, for every [j], the
    cell [layer_n[j]] runs on [x_t], the new context vector and [prev],
    where [prev] is the entry value of the last state entry for [j = 0]
    and the new entry [j - 1] otherwise, from the entry values at index
    [j + 1]; its result becomes entry [j] of the returned lists. So entry
    0 is the result of [layer_n[0]] (what layer 0 computed is kept nowhere
    in the state), and entry [N - 1] is never replaced. *)
Theorem step_data_flow d N context h c w k x (h_0 c_0 : Tensor) :
  2 <= N ->
  length (layer_n d) = N - 1 ->
  length h = N -> length c = N ->
  h !! 0 = Some h_0 -> c !! 0 = Some c_0 ->
  exists h0' c0' w' phi k' h' c',
    layer_0 d (cat [x; w]) (h_0, c_0) = (h0', c0') /\
    attention d h0' k context = (w', phi, k') /\
    step d context (h, c, w, k) x = Ok (output d (cat h'), (h', c', w', k')) /\
    h' !! (N - 1) = h !! (N - 1) /\
    c' !! (N - 1) = c !! (N - 1) /\
    forall j layer prev_h prev_c,
      layer_n d !! j = Some layer ->
      h !! (S j) = Some prev_h -> c !! (S j) = Some prev_c ->
      exists prev,
        match j with O => h !! (N - 1) | S i => h' !! i end = Some prev /\
        h' !! j = Some (fst (layer (cat [x; w'; prev]) (prev_h, prev_c))) /\
        c' !! j = Some (snd (layer (cat [x; w'; prev]) (prev_h, prev_c))).
Proof.
  intros HN Hl Hh Hc Hh0 Hc0.
  destruct (step_frame d N context h c w k x ltac:(lia) Hl Hh Hc)
    as (h' & c' & w' & k' & Hstep & _ & _ & Fh & Fc).
  revert Hstep. unfold step.
  rewrite (getitem_0 h h_0 Hh0), (getitem_0 c c_0 Hc0). cbn [mbind result_bind].
  destruct (layer_0 d _ _) as [h0' c0'] eqn:Hl0.
  rewrite (setitem_0 h), (setitem_0 c) by lia. cbn [mbind result_bind].
  rewrite (getitem_0 _ h0') by (apply list_lookup_insert_eq; lia).
  cbn [mbind result_bind].
  destruct (attention d _ _ _) as [[w1 phi] k1] eqn:Hatt.
  set (h1 := <[0:=h0']> h). set (c1 := <[0:=c0']> c).
  set (zipped := zip3 _ _ _).
  assert (length h1 = N) as Lh1 by (unfold h1; now rewrite length_insert).
  assert (length c1 = N) as Lc1 by (unfold c1; now rewrite length_insert).
  destruct (lookup_lt_is_Some_2 h (N - 1)) as [last_h Hlast]; [lia|].
  assert (h1 !! (length h1 - 1) = Some last_h) as Hlast1.
  { rewrite Lh1. unfold h1. rewrite list_lookup_insert_ne by lia. exact Hlast. }
  destruct (layers_loop_chained x w1 zipped (N - 1) 0 h1 c1 last_h)
    as (h2 & c2 & Hrun & _ & _ & Ch).
  { unfold zipped. rewrite length_zip3, !length_drop, Lh1, Lc1. lia. }
  { now apply getitem_minus_one. }
  { lia. }
  { lia. }
  rewrite Hrun. cbn [mbind result_bind]. intros Hstep.
  injection Hstep as _ <- <- <- <-.
  exists h0', c0', w1, phi, k1, h2, c2.
  split; [reflexivity|]. split; [exact Hatt|]. split; [reflexivity|].
  split; [apply Fh; lia|]. split; [apply Fc; lia|].
  intros j layer prev_h prev_c Hj Hph Hpc.
  assert (zipped !! j = Some (layer, prev_h, prev_c)) as Hz.
  { unfold zipped, zip3. apply lookup_zip_with_Some. exists (layer, prev_h), prev_c.
    split; [reflexivity|]. split.
    - apply lookup_zip_with_Some. exists layer, prev_h.
      split; [reflexivity|]. split; [exact Hj|].
      rewrite lookup_drop. unfold h1. rewrite list_lookup_insert_ne by lia. exact Hph.
    - rewrite lookup_drop. unfold c1. rewrite list_lookup_insert_ne by lia. exact Hpc. }
  destruct (chained_lookup x w1 zipped last_h j layer prev_h prev_c Hz)
    as (input & Hin & Hprev).
  destruct (Ch j _ Hin) as [Hhj Hcj]. cbn [Nat.add] in Hhj, Hcj.
  exists input. split; [|split; assumption].
  destruct j as [|i].
  - subst input. exact Hlast.
  - destruct Hprev as (r & Hr & ->). exact (proj1 (Ch i r Hr)).
Qed.

(** *** Calls chain *)

Lemma steps_loop_app d context xs ys : forall st outputs,
  steps_loop d context (xs ++ ys) st outputs
  = ('(outs, st') ← steps_loop d context xs st outputs;
     steps_loop d context ys st' outs).
Proof.
  induction xs as [|x xs IH]; intros st outputs.
  - reflexivity.
  - cbn [app steps_loop]. destruct (step d context st x) as [[o st1]|e];
      cbn [mbind result_bind]; [apply IH | reflexivity].
Qed.

Lemma steps_loop_outputs d context xs : forall st outputs outs st',
  steps_loop d context xs st [] = Ok (outs, st') ->
  steps_loop d context xs st outputs = Ok (outputs ++ outs, st').
Proof.
  induction xs as [|x xs IH] using rev_ind; intros st outputs outs st' Hrun.
  - cbn in Hrun. injection Hrun as <- <-. cbn. now rewrite app_nil_r.
  - rewrite steps_loop_app in Hrun |- *.
    destruct (steps_loop d context xs st []) as [[o1 st1]|e] eqn:H1;
      cbn [mbind result_bind] in Hrun; [|discriminate].
    rewrite (IH st outputs o1 st1 H1). cbn [mbind result_bind].
    revert Hrun. cbn [steps_loop].
    destruct (step d context st1 x) as [[o st2]|e]; cbn [mbind result_bind]; [|discriminate].
    intros Hrun. injection Hrun as <- <-. now rewrite app_assoc.
Qed.

(** X3. Running the decoder on a sequence and then, from the state it
    returns, on a second sequence, gives the outputs and the final state
    of one run on the two sequences put end to end: the carried state is
    all that a call passes to the next. *)
Theorem forward_chains d bsz xs ys context prev_states out1 st1 out2 st2 :
  forward d {| size0 := bsz; unbind1 := xs |} context prev_states = Ok (out1, st1) ->
  forward d {| size0 := bsz; unbind1 := ys |} context (Some st1) = Ok (out2, st2) ->
  forward d {| size0 := bsz; unbind1 := xs ++ ys |} context prev_states
  = Ok ({| size0 := size0 out1; unbind1 := unbind1 out1 ++ unbind1 out2 |}, st2).
Proof.
  unfold forward. cbn [size0 unbind1 entry_state].
  set (st := entry_state d bsz prev_states).
  intros H1 H2. rewrite steps_loop_app.
  destruct (steps_loop d context xs st []) as [[o1 s1]|e];
    cbn [mbind result_bind] in H1 |- *; [|discriminate].
  destruct o1 as [|a o1]; cbn [stack1 mbind result_bind] in H1; [discriminate|].
  injection H1 as <- <-.
  destruct (steps_loop d context ys s1 []) as [[o2 s2]|e] eqn:Hys;
    cbn [mbind result_bind] in H2; [|discriminate].
  destruct o2 as [|b o2]; cbn [stack1 mbind result_bind] in H2; [discriminate|].
  injection H2 as <- <-.
  rewrite (steps_loop_outputs d context ys s1 (a :: o1) _ _ Hys).
  cbn [mbind result_bind stack1 app unbind1 size0]. reflexivity.
Qed.

End Decoder.
End RNNDecoderMore.

(** The decoder extras on symbolic tensors. *)
Module RNNDecoderMoreRuns.
Import RNNDecoder RNNDecoderMore RNNDecoderRuns.
Local Open Scope string_scope.


(** A decoder built with no layer raises [IndexError] on its first step. *)
Lemma decoder_without_layers_fails :
  forward (Sym.decoder 0) (Sym.one_step x) ctx None = Err IndexError.
Proof. reflexivity. Qed.

Lemma step_data_flow_witness :
  exists h0' c0' w' phi k' h' c',
    layer_0 (Sym.decoder 3) (cat [x; W0]) (H 0, C 0) = (h0', c0') /\
    attention (Sym.decoder 3) h0' K0 ctx = (w', phi, k') /\
    step (Sym.decoder 3) ctx ([H 0; H 1; H 2], [C 0; C 1; C 2], W0, K0) x
      = Ok (output (Sym.decoder 3) (cat h'), (h', c', w', k')) /\
    h' !! (3 - 1) = [H 0; H 1; H 2] !! (3 - 1) /\
    c' !! (3 - 1) = [C 0; C 1; C 2] !! (3 - 1) /\
    forall j layer prev_h prev_c,
      layer_n (Sym.decoder 3) !! j = Some layer ->
      [H 0; H 1; H 2] !! (S j) = Some prev_h -> [C 0; C 1; C 2] !! (S j) = Some prev_c ->
      exists prev,
        match j with O => [H 0; H 1; H 2] !! (3 - 1) | S i => h' !! i end = Some prev /\
        h' !! j = Some (fst (layer (cat [x; w'; prev]) (prev_h, prev_c))) /\
        c' !! j = Some (snd (layer (cat [x; w'; prev]) (prev_h, prev_c))).
Proof.
  apply (step_data_flow (Sym.decoder 3) 3 ctx [H 0; H 1; H 2] [C 0; C 1; C 2] W0 K0 x
           (H 0) (C 0)).
  - lia.
  - reflexivity.
  - reflexivity.
  - reflexivity.
  - reflexivity.
  - reflexivity.
Defined.

Definition y : Sym.tensor := Sym.Leaf "y".

Lemma forward_chains_witness :
  exists out1 st1 out2 st2,
    forward (Sym.decoder 2) {| size0 := 1; unbind1 := [x] |} ctx None = Ok (out1, st1) /\
    forward (Sym.decoder 2) {| size0 := 1; unbind1 := [y] |} ctx (Some st1) = Ok (out2, st2) /\
    forward (Sym.decoder 2) {| size0 := 1; unbind1 := [x] ++ [y] |} ctx None
    = Ok ({| size0 := size0 out1; unbind1 := unbind1 out1 ++ unbind1 out2 |}, st2).
Proof.
  eexists _, _, _, _. split; [reflexivity|]. split; [reflexivity|].
  eapply (forward_chains (Sym.decoder 2) 1 [x] [y] ctx None); reflexivity.
Defined.

End RNNDecoderMoreRuns.

(** ** Seq2Seq.sample: failures, and longer runs *)

Module Seq2SeqMore.
Import RNNDecoder RNNDecoderFacts RNNDecoderMore Seq2Seq Seq2SeqFacts.
Section Model.
Context {Tensor Rng : Type} `{!Torch Tensor Rng}.
Variable mixture_sample : Tensor -> Tensor -> Tensor -> Tensor -> Rng -> Tensor * Rng.
Variable m : Seq2Seq.t Tensor.
Variable ctx : Tensor.

Abbreviation sample_body := (Seq2Seq.sample_body mixture_sample m ctx).
Abbreviation sample_loop := (Seq2Seq.sample_loop mixture_sample m ctx).

Lemma sample_loop_add n k : forall l,
  sample_loop (n + k) l = (l' ← sample_loop n l; sample_loop k l').
Proof.
  induction n as [|n IH]; intros l; [reflexivity|].
  cbn [Nat.add Seq2Seq.sample_loop].
  destruct (sample_body l) as [l1|e]; cbn [mbind result_bind]; [apply IH | reflexivity].
Qed.

(** An iteration appends the point it was given; nothing is ever removed
    from [strokes]. *)
Lemma sample_body_strokes l l' :
  sample_body l = Ok l' -> strokes l' = strokes l ++ [x_t l].
Proof.
  unfold Seq2Seq.sample_body.
  destruct (Seq2Seq.next_point mixture_sample m ctx l) as [[[x' st] g]|e];
    cbn [mbind result_bind]; [|discriminate].
  intros Hl. injection Hl as <-. reflexivity.
Qed.

Lemma sample_loop_strokes k : forall l l',
  sample_loop k l = Ok l' ->
  exists rest, strokes l' = strokes l ++ rest /\ length rest = k.
Proof.
  induction k as [|k IH]; intros l l' Hrun.
  - cbn in Hrun. injection Hrun as <-. exists []. now rewrite app_nil_r.
  - cbn [Seq2Seq.sample_loop] in Hrun.
    destruct (sample_body l) as [l1|e] eqn:Hb; cbn [mbind result_bind] in Hrun; [|discriminate].
    destruct (IH l1 l' Hrun) as (rest & Hs & Hlen).
    exists (x_t l :: rest). rewrite Hs, (sample_body_strokes l l1 Hb), <- app_assoc.
    split; [reflexivity | cbn; lia].
Qed.


End Model.


(** X5. With the same inputs and the same random source, a longer
    generation extends a shorter one: the [n] steps of a run with
    [maxlen = n] are the first [n] steps of a run with [maxlen = n + k],
    which adds [k] steps. *)
Theorem longer_sample_extends_shorter
    {Tensor Rng : Type} `{!Torch Tensor Rng}
    (mixture_sample : Tensor -> Tensor -> Tensor -> Tensor -> Rng -> Tensor * Rng)
    (m : Seq2Seq.t Tensor) (n_layers : nat) (chars chars_mask : Tensor)
    (n k : nat) (g : Rng) :
  1 <= n ->
  1 <= n_layers ->
  built_with n_layers (dec m) ->
  exists out g1 out' g2 rest,
    sample mixture_sample m chars chars_mask n g = Ok (out, g1) /\
    sample mixture_sample m chars chars_mask (n + k) g = Ok (out', g2) /\
    size0 out' = size0 out /\
    unbind1 out' = unbind1 out ++ rest /\
    length rest = k.
Proof.
  intros Hn1 Hn Hb. unfold sample.
  set (ctx := encode m chars chars_mask).
  assert (loop_inv n_layers (sample_init ctx g)) as H0.
  { split; [eexists; reflexivity | exact I]. }
  destruct (sample_loop_ok mixture_sample m n_layers ctx Hn Hb _ H0 n)
    as (l1 & Hrun1 & Hinv1 & Len1 & _).
  destruct (sample_loop_ok mixture_sample m n_layers ctx Hn Hb _ Hinv1 k)
    as (l2 & Hrun2 & _ & _ & _ & New).
  destruct (sample_loop_strokes mixture_sample m ctx k l1 l2 Hrun2) as (extra & Hs & Hlen).
  rewrite sample_loop_add, Hrun1. cbn [mbind result_bind]. rewrite Hrun2.
  cbn [mbind result_bind].
  destruct (strokes l1) as [|s0 ss] eqn:Hs1; [cbn in Len1; lia|].
  rewrite Hs. cbn [cat1 app mbind result_bind].
  eexists _, _, _, _, (concat (map unbind1 extra)).
  split; [reflexivity|]. split; [reflexivity|]. split; [reflexivity|].
  cbn [unbind1]. split.
  - change (s0 :: ss ++ extra) with ((s0 :: ss) ++ extra).
    now rewrite map_app, concat_app.
  - assert (Forall (one_point (Tensor:=Tensor)) extra) as Hone.
    { apply Forall_lookup_2. intros i s Hi.
      destruct (New i) as (li & _ & [Hp _] & Hli).
      - apply lookup_lt_Some in Hi. lia.
      - rewrite Hs, lookup_app_r in Hli by lia.
        replace (length (s0 :: ss) + i - length (s0 :: ss)) with i in Hli by lia.
        rewrite Hli in Hi. injection Hi as <-. exact Hp. }
    destruct (concat_one_point extra Hone) as [Lc _]. lia.
Qed.


Lemma longer_sample_extends_shorter_witness :
  exists out g1 out' g2 rest,
    sample Sym.mixture_sample (Sym.model 1 1) (Sym.Leaf "chars") (Sym.Leaf "mask") 1 0
      = Ok (out, g1) /\
    sample Sym.mixture_sample (Sym.model 1 1) (Sym.Leaf "chars") (Sym.Leaf "mask") (1 + 2) 0
      = Ok (out', g2) /\
    size0 out' = size0 out /\
    unbind1 out' = unbind1 out ++ rest /\
    length rest = 2.
Proof.
  apply (longer_sample_extends_shorter Sym.mixture_sample (Sym.model 1 1) 1).
  - lia.
  - lia.
  - repeat split; reflexivity.
Defined.

End Seq2SeqMore.

(** ** GaussianAttention: what the window depends on *)

Module GaussianAttentionMore.
Import Row RowFacts GaussianAttention GaussianAttentionFacts.
Local Open Scope R_scope.

(** X6. The window weights and the new position state do not depend on
    what the context holds, only on how many positions it has: two
    contexts of the same length get the same [phi] and the same [kappa]. *)
Theorem window_ignores_context_content a h_t k_tm1 ctx ctx' w phi kappa :
  length (positions ctx) = length (positions ctx') ->
  forward a h_t k_tm1 ctx = Ok (w, phi, kappa) ->
  exists w', forward a h_t k_tm1 ctx' = Ok (w', phi, kappa).
Proof.
  intros Hlen. unfold forward. change (map exp (linear a h_t)) with (e a h_t).
  rewrite (chunk_3 _ (n_mixtures a)) by apply length_e.
  destruct (broadcast_inplace _ _ _) as [kappa1|err]; cbn [mbind result_bind]; [|discriminate].
  rewrite Hlen. intros Hrun. injection Hrun as _ <- <-.
  eexists. reflexivity.
Qed.

(** X8. On a context with no position the call still returns: the context
    vector is the zero vector of the context's width, there is no window
    weight, and the position state advances as usual. *)
Theorem forward_on_empty_context a h_t k_tm1 (E : nat) :
  length k_tm1 = n_mixtures a ->
  exists kappa,
    forward a h_t k_tm1 {| enc_size := E; positions := [] |} = Ok (repeat 0 E, [], kappa) /\
    length kappa = n_mixtures a /\
    forall j, (j < n_mixtures a)%nat ->
      nth j kappa 0 = nth j k_tm1 0 + exp (nth (2 * n_mixtures a + j) (linear a h_t) 0).
Proof.
  intros Hk. exists (kappa_of a h_t k_tm1).
  split; [now rewrite forward_ok|]. split; [apply length_kappa_of|].
  intros j Hj. rewrite nth_kappa_of by assumption. unfold delta_kappa. ring.
Qed.

Lemma window_ignores_context_content_witness :
  exists w', forward unit_attention [] [0] ctx_1
             = Ok (w', phi_of unit_attention [] (kappa_of unit_attention [] [0]) 1,
                   kappa_of unit_attention [] [0]).
Proof.
  apply (window_ignores_context_content unit_attention [] [0]
           {| enc_size := 1; positions := [[5]] |} ctx_1
           (weighted_sum {| enc_size := 1; positions := [[5]] |}
              (phi_of unit_attention [] (kappa_of unit_attention [] [0]) 1))).
  - reflexivity.
  - now apply forward_ok.
Defined.

Lemma forward_on_empty_context_witness :
  exists kappa,
    forward unit_attention [] [0] {| enc_size := 2; positions := [] |}
      = Ok (repeat 0 2, [], kappa) /\
    length kappa = n_mixtures unit_attention /\
    forall j, (j < n_mixtures unit_attention)%nat ->
      nth j kappa 0
      = nth j [0] 0 + exp (nth (2 * n_mixtures unit_attention + j)
                               (linear unit_attention []) 0).
Proof.
  apply (forward_on_empty_context unit_attention [] [0] 2). reflexivity.
Defined.

End GaussianAttentionMore.

(** ** SimpleEncoder: the masked context and the attention over it *)

Module EncoderMore.
Import Row RowFacts PyFacts SimpleEncoder GaussianAttention GaussianAttentionFacts.
Local Open Scope R_scope.

Lemma emb_ok enc (src : list nat) :
  Forall (fun token => (token < vocab_size enc)%nat) src ->
  emb enc src = Ok (map (fun token => nth token (weight enc) []) src).
Proof.
  induction 1 as [|token src Ht _ IH]; [reflexivity|].
  cbn [emb map].
  destruct (lookup_lt_is_Some_2 (weight enc) token Ht) as [row Hrow].
  rewrite (getitem_nat _ _ _ Hrow), IH. cbn [mbind result_bind].
  now rewrite (nth_lookup_Some _ _ _ _ Hrow).
Qed.

Lemma getitem_out_of_range {A} (l : list A) (i : nat) :
  (length l <= i)%nat -> Py.getitem l (Z.of_nat i) = Err IndexError.
Proof.
  intros Hi. unfold Py.getitem, Py.norm_index.
  destruct (Z.ltb_spec (Z.of_nat i) 0) as [?|_]; [lia|].
  destruct (Z.ltb_spec (Z.of_nat i) 0) as [?|_]; [lia|].
  rewrite Nat2Z.id, (lookup_ge_None_2 l i Hi). reflexivity.
Qed.

Lemma getitem_error {A} (l : list A) (i : Z) (err : error) :
  Py.getitem l i = Err err -> err = IndexError.
Proof.
  unfold Py.getitem. destruct (_ <? 0)%Z; [congruence|].
  destruct (l !! _); congruence.
Qed.

Lemma emb_out_of_vocabulary enc (src : list nat) :
  Exists (fun token => (vocab_size enc <= token)%nat) src ->
  emb enc src = Err IndexError.
Proof.
  induction 1 as [token src Ht | token src _ IH]; cbn [emb].
  - now rewrite getitem_out_of_range.
  - rewrite IH. destruct (Py.getitem _ _) as [row|err] eqn:Hg; [reflexivity|].
    now rewrite (getitem_error _ _ _ Hg).
Qed.

Lemma masked_context_eq enc chars chars_mask :
  Forall (fun token => (token < vocab_size enc)%nat) chars ->
  length chars_mask = length chars ->
  masked_context enc chars chars_mask
  = Ok {| enc_size := emb_size enc;
          positions :=
            map (fun u => map (fun y => y * nth u chars_mask 0)
                              (nth (nth u chars 0%nat) (weight enc) []))
                (seq 0 (length chars)) |}.
Proof.
  intros Hv Hlen. unfold masked_context, SimpleEncoder.forward.
  rewrite (emb_ok enc chars Hv). cbn [mbind result_bind].
  rewrite (broadcast_nth _ _ _ [] 0 (length chars)) by (rewrite ?length_map; auto).
  cbn [mbind result_bind]. do 2 f_equal.
  apply map_ext_in. intros u Hu. apply in_seq in Hu.
  rewrite (MixtureFacts.nth_map_lt _ chars u 0%nat) by lia. reflexivity.
Qed.

(** The context [masked_context] returns, written out. *)
Definition masked (enc : SimpleEncoder.t) (chars : list nat) (chars_mask : list R)
    : Context :=
  {| enc_size := emb_size enc;
     positions :=
       map (fun u => map (fun y => y * nth u chars_mask 0)
                         (nth (nth u chars 0%nat) (weight enc) []))
           (seq 0 (length chars)) |}.

Lemma masked_well_shaped enc chars chars_mask :
  SimpleEncoder.well_shaped enc ->
  Forall (fun token => (token < vocab_size enc)%nat) chars ->
  GaussianAttention.well_shaped (masked enc chars chars_mask).
Proof.
  intros Hw Hv. apply Forall_forall. intros p (u & -> & Hu)%list_elem_of_fmap.
  apply list_elem_of_In, in_seq in Hu. rewrite length_map.
  apply (proj1 (List.Forall_nth _ _) Hw).
  apply (proj1 (List.Forall_nth _ _) Hv). lia.
Qed.

(** X9. The context built from a row of characters and its mask: every
    character must be a row of the embedding table, else [IndexError];
    position [u] is then the embedding of character [u] multiplied by
    [mask[u]], so it is the embedding itself where the mask is 1 and the
    zero vector where the mask is 0. *)
Theorem masked_context_positions enc chars chars_mask :
  SimpleEncoder.well_shaped enc ->
  length chars_mask = length chars ->
  (Exists (fun token => (vocab_size enc <= token)%nat) chars ->
     masked_context enc chars chars_mask = Err IndexError) /\
  (Forall (fun token => (token < vocab_size enc)%nat) chars ->
     exists ctx,
       masked_context enc chars chars_mask = Ok ctx /\
       enc_size ctx = emb_size enc /\
       GaussianAttention.well_shaped ctx /\
       length (positions ctx) = length chars /\
       forall u token mask_u row,
         chars !! u = Some token -> chars_mask !! u = Some mask_u ->
         weight enc !! token = Some row ->
         positions ctx !! u = Some (map (fun y => y * mask_u) row) /\
         (mask_u = 1 -> positions ctx !! u = Some row) /\
         (mask_u = 0 -> positions ctx !! u = Some (repeat 0 (emb_size enc)))).
Proof.
  intros Hw Hlen. split.
  - intros Hx. unfold masked_context, SimpleEncoder.forward.
    now rewrite emb_out_of_vocabulary.
  - intros Hv. eexists. split; [now apply masked_context_eq|].
    split; [reflexivity|]. split; [|split].
    + now apply (masked_well_shaped enc chars chars_mask).
    + cbn [positions]. now rewrite length_map, length_seq.
    + intros u token mask_u row Hc Hm Hr.
      pose proof (lookup_lt_Some _ _ _ Hc) as Hu.
      assert (map (fun u => map (fun y => y * nth u chars_mask 0)
                                (nth (nth u chars 0%nat) (weight enc) []))
                  (seq 0 (length chars)) !! u
              = Some (map (fun y => y * mask_u) row)) as Hpos.
      { rewrite list_lookup_fmap, lookup_seq_lt by assumption.
        cbn. rewrite (nth_lookup_Some _ _ _ _ Hc), (nth_lookup_Some _ _ _ _ Hm),
          (nth_lookup_Some _ _ _ _ Hr). reflexivity. }
      cbn [positions].
      split; [exact Hpos|]. split; intros ->; rewrite Hpos; f_equal.
      * rewrite <- (map_id row) at 2. apply map_ext. intros y. ring.
      * assert (length row = emb_size enc) as <-.
        { apply (proj1 (Forall_forall _ _) Hw). eapply list_elem_of_lookup_2, Hr. }
        clear. induction row as [|y row IH]; cbn; [reflexivity|].
        rewrite IH. f_equal. ring.
Qed.

Lemma sum_app (v v' : list R) : sum (v ++ v') = sum v + sum v'.
Proof. unfold sum. induction v as [|y v IH]; cbn; [ring | rewrite IH; ring]. Qed.

Lemma sum_map_zero {A} (f : A -> R) (l : list A) :
  (forall a, In a l -> f a = 0) -> sum (map f l) = 0.
Proof.
  unfold sum. induction l as [|a l IH]; intros H; cbn; [reflexivity|].
  rewrite (H a), IH; [ring | | now left]. intros b Hb. apply H. now right.
Qed.

(** X10. Padding contributes nothing to the attended context: when the
    mask is 0 from position [L] on, the context vector the attention
    computes over the masked context is the weighted sum over the first
    [L] positions only - although window weights are computed for the
    padded positions too. *)
Theorem padding_contributes_nothing a h_t k_tm1 enc chars chars_mask (L : nat) :
  SimpleEncoder.well_shaped enc ->
  Forall (fun token => (token < vocab_size enc)%nat) chars ->
  length chars_mask = length chars ->
  length k_tm1 = n_mixtures a ->
  (L <= length chars)%nat ->
  (forall u, (L <= u)%nat -> (u < length chars)%nat -> nth u chars_mask 0 = 0) ->
  exists ctx w phi kappa,
    masked_context enc chars chars_mask = Ok ctx /\
    forward a h_t k_tm1 ctx = Ok (w, phi, kappa) /\
    length phi = length chars /\
    forall j, (j < emb_size enc)%nat ->
      nth j w 0
      = sum (map (fun u => nth u phi 0
                           * (nth j (nth (nth u chars 0%nat) (weight enc) []) 0
                              * nth u chars_mask 0))
                 (seq 0 L)).
Proof.
  intros Hw Hv Hlen Hk HL Hpad.
  pose proof (masked_well_shaped enc chars chars_mask Hw Hv) as Hws.
  assert (length (positions (masked enc chars chars_mask)) = length chars) as HT.
  { cbn [masked positions]. now rewrite length_map, length_seq. }
  exists (masked enc chars chars_mask).
  eexists _, _, _. split; [now apply masked_context_eq|].
  split; [now apply forward_ok|]. rewrite HT.
  split; [unfold phi_of; now rewrite length_map, length_seq|].
  intros j Hj.
  assert (length (phi_of a h_t (kappa_of a h_t k_tm1) (length chars))
          = length (positions (masked enc chars chars_mask))) as Hphi.
  { rewrite HT. unfold phi_of. now rewrite !length_map, !length_seq. }
  destruct (weighted_sum_at _ _ j Hws Hphi Hj) as [_ ->].
  rewrite HT. cbn [masked positions].
  set (F := fun u => map (fun y => y * nth u chars_mask 0)
                         (nth (nth u chars 0%nat) (weight enc) [])).
  set (phi := phi_of a h_t (kappa_of a h_t k_tm1) (length chars)).
  assert (forall u, nth j (F u) 0
                    = nth j (nth (nth u chars 0%nat) (weight enc) []) 0 * nth u chars_mask 0)
    as HF.
  { intros u. unfold F.
    destruct (Nat.lt_ge_cases j (length (nth (nth u chars 0%nat) (weight enc) []))) as [Hin|Hout].
    - now rewrite (MixtureFacts.nth_map_lt _ _ j 0) by assumption.
    - rewrite !nth_overflow by (rewrite ?length_map; assumption). ring. }
  transitivity (sum (map (fun u => nth u phi 0 * nth j (F u) 0) (seq 0 (length chars)))).
  { apply sum_map_ext_in. intros u Hu. apply in_seq in Hu.
    now rewrite nth_map_seq by lia. }
  assert (seq 0 (length chars) = seq 0 L ++ seq L (length chars - L)) as ->.
  { rewrite <- seq_app. f_equal. lia. }
  rewrite map_app, sum_app.
  rewrite (sum_map_zero _ (seq L (length chars - L))).
  - rewrite Rplus_0_r. apply sum_map_ext_in. intros u _. now rewrite HF.
  - intros u Hu. apply in_seq in Hu. rewrite HF, Hpad by lia. ring.
Qed.

(** A table of two characters, embedded in two dimensions. *)
Definition table : SimpleEncoder.t :=
  {| emb_size := 2; weight := [[1; 2]; [3; 4]] |}.

Lemma table_well_shaped : SimpleEncoder.well_shaped table.
Proof. repeat constructor. Defined.

Lemma masked_context_positions_witness :
  (Exists (fun token => (vocab_size table <= token)%nat) [1; 0]%nat ->
     masked_context table [1; 0]%nat [1; 0] = Err IndexError) /\
  (Forall (fun token => (token < vocab_size table)%nat) [1; 0]%nat ->
     exists ctx,
       masked_context table [1; 0]%nat [1; 0] = Ok ctx /\
       enc_size ctx = emb_size table /\
       GaussianAttention.well_shaped ctx /\
       length (positions ctx) = length [1; 0]%nat /\
       forall u token mask_u row,
         [1; 0]%nat !! u = Some token -> [1; 0] !! u = Some mask_u ->
         weight table !! token = Some row ->
         positions ctx !! u = Some (map (fun y => y * mask_u) row) /\
         (mask_u = 1 -> positions ctx !! u = Some row) /\
         (mask_u = 0 -> positions ctx !! u = Some (repeat 0 (emb_size table)))).
Proof.
  apply (masked_context_positions table [1; 0]%nat [1; 0]).
  - exact table_well_shaped.
  - reflexivity.
Defined.

Lemma padding_contributes_nothing_witness :
  exists ctx w phi kappa,
    masked_context table [1; 0]%nat [1; 0] = Ok ctx /\
    forward unit_attention [] [0] ctx = Ok (w, phi, kappa) /\
    length phi = length [1; 0]%nat /\
    forall j, (j < emb_size table)%nat ->
      nth j w 0
      = sum (map (fun u => nth u phi 0
                           * (nth j (nth (nth u [1; 0]%nat 0%nat) (weight table) []) 0
                              * nth u [1; 0] 0))
                 (seq 0 1)).
Proof.
  apply (padding_contributes_nothing unit_attention [] [0] table [1; 0]%nat [1; 0] 1).
  - exact table_well_shaped.
  - repeat constructor.
  - reflexivity.
  - reflexivity.
  - cbn. lia.
  - intros [|[|u]] H1 H2; cbn in *; try lia. reflexivity.
Defined.

End EncoderMore.

(** ** The width of the decoder output row *)

Module Seq2SeqRowMore.
Import Row RowFacts Seq2SeqRow Seq2SeqRowFacts.
Local Open Scope R_scope.

(** X11. The decoder output row is accepted exactly when it has
    [6 K + 1] entries; any other width is refused by [split] with a
    [RuntimeError]. *)
Theorem mixture_params_returns_iff (K : nat) (out : list R) :
  is_ok (mixture_params K out) = (length out =? 6 * K + 1)%nat /\
  (length out <> (6 * K + 1)%nat -> mixture_params K out = Err RuntimeError).
Proof.
  destruct (Nat.eqb_spec (length out) (6 * K + 1)) as [Heq|Hne].
  - rewrite (mixture_params_ok K out Heq). split; [reflexivity | congruence].
  - assert (mixture_params K out = Err RuntimeError) as ->; [|split; auto].
    unfold mixture_params, split. rewrite sum_list_widths.
    destruct (Nat.eqb_spec (6 * K + 1) (length out)) as [Heq|_]; [congruence | reflexivity].
Qed.

Lemma mixture_params_returns_iff_witness :
  length [0; 0; 0] <> (6 * 1 + 1)%nat /\ mixture_params 1 [0; 0; 0] = Err RuntimeError.
Proof.
  split; [cbn; lia|].
  apply (proj2 (mixture_params_returns_iff 1 [0; 0; 0])). cbn. lia.
Defined.

End Seq2SeqRowMore.

(** ** RNNEncoder: sort and unsort *)

Module RNNEncoderFacts.
Import PyFacts RNNEncoder.
Local Open Scope R_scope.

#[local] Instance value_le_total : Total value_le.
Proof. intros p q. unfold value_le. lia. Qed.

#[local] Instance value_ge_total : Total value_ge.
Proof. intros p q. unfold value_ge. destruct (Rle_or_lt (fst p) (fst q)); [right | left]; lra. Qed.

Lemma Sorted_le_seq (j n : nat) : Sorted le (seq j n).
Proof.
  revert j. induction n as [|n IH]; intros j; cbn; constructor; [apply IH|].
  destruct n; cbn; constructor. lia.
Qed.

(** The entries of [indexed v] pair a value with its own position. *)
Lemma elem_of_indexed {A} (v : list A) (x : A) (j : nat) :
  (x, j) ∈ indexed v -> v !! j = Some x.
Proof.
  intros (i & Hi)%list_elem_of_lookup_1. unfold indexed in Hi.
  apply lookup_zip_with_Some in Hi as (x' & j' & Heq & Hx & Hj).
  injection Heq as -> ->. apply lookup_seq in Hj as [-> _]. exact Hx.
Qed.

Lemma snd_indexed {A} (v : list A) : (indexed v).*2 = seq 0 (length v).
Proof. unfold indexed. apply snd_zip. now rewrite length_seq. Qed.

Lemma fst_indexed {A} (v : list A) : (indexed v).*1 = v.
Proof. unfold indexed. apply fst_zip. now rewrite length_seq. Qed.

(** [gather] returns when every position is inside [src]. *)
Lemma gather_ok {A} (src : list A) (idx : list nat) :
  Forall (fun i => (i < length src)%nat) idx ->
  exists rows,
    gather src idx = Ok rows /\
    length rows = length idx /\
    forall i j, idx !! i = Some j -> rows !! i = src !! j.
Proof.
  induction 1 as [|j idx Hj _ (rows & Hg & Hl & Hrows)].
  - exists []. split; [reflexivity|]. split; [reflexivity|].
    intros i j Hi. rewrite lookup_nil in Hi. discriminate.
  - destruct (lookup_lt_is_Some_2 src j Hj) as [row Hrow].
    exists (row :: rows). cbn [gather].
    rewrite (getitem_nat _ _ _ Hrow), Hg. cbn [mbind result_bind].
    split; [reflexivity|]. split; [cbn; congruence|].
    intros [|i] j' Hi; cbn in Hi |- *.
    + injection Hi as <-. now rewrite Hrow.
    + now apply Hrows.
Qed.

(** [argsort] of a permutation of [0 .. n-1] is its inverse. *)
Lemma argsort_inverse (p : list nat) (n : nat) :
  p ≡ₚ seq 0 n ->
  length (argsort p) = n /\
  forall k j, argsort p !! k = Some j -> p !! j = Some k.
Proof.
  intros Hp. unfold argsort.
  set (s := merge_sort value_le (indexed p)).
  assert (s ≡ₚ indexed p) as Hs by apply merge_sort_Permutation.
  assert (length p = n) as Hn by (rewrite Hp; apply length_seq).
  assert (s.*1 = seq 0 n) as Hfst.
  { apply (Sorted_unique le).
    - apply (Sorted_fmap _ value_le le); [auto | apply Sorted_merge_sort; apply _].
    - apply Sorted_le_seq.
    - rewrite Hs, fst_indexed. exact Hp. }
  split.
  - rewrite length_fmap, <- (length_fmap fst), Hfst. apply length_seq.
  - intros k j Hk. apply list_lookup_fmap_Some in Hk as ([k' j'] & -> & Hsk).
    cbn [snd].
    pose proof (eq_trans (list_lookup_fmap fst s k) (f_equal (fmap fst) Hsk)) as Hk'.
    cbn in Hk'.
    rewrite Hfst in Hk'. apply lookup_seq in Hk' as [-> _].
    apply elem_of_indexed. rewrite <- Hs. eapply list_elem_of_lookup_2, Hsk.
Qed.

(** Reordering the rows by a permutation and unsorting with the same
    permutation gives the rows back. *)
Lemma unsort_gather {A} (src : list A) (idx : list nat) :
  idx ≡ₚ seq 0 (length src) ->
  exists rows, gather src idx = Ok rows /\ unsort rows idx = Ok src.
Proof.
  intros Hp.
  assert (length idx = length src) as Hlen by (rewrite Hp; apply length_seq).
  assert (Forall (fun i => (i < length src)%nat) idx) as Hin.
  { rewrite Hp. apply Forall_seq. lia. }
  destruct (gather_ok src idx Hin) as (rows & Hg & Hl & Hrows).
  exists rows. split; [exact Hg|]. unfold unsort.
  destruct (argsort_inverse idx (length src) Hp) as [Lq Hq].
  destruct (gather_ok rows (argsort idx)) as (back & Hb & Lb & Hback).
  { apply Forall_forall. intros j (k & Hk)%list_elem_of_lookup_1.
    apply Hq, lookup_lt_Some in Hk. lia. }
  rewrite Hb. f_equal. apply list_eq. intros k.
  destruct (argsort idx !! k) as [j|] eqn:Hk.
  - rewrite (Hback k j Hk), (Hrows j k (Hq k j Hk)). reflexivity.
  - apply lookup_ge_None in Hk.
    rewrite (lookup_ge_None_2 back), (lookup_ge_None_2 src) by lia. reflexivity.
Qed.

(** What [torch.sort] returns in this model. *)
Lemma sort_descending_spec (v : list R) :
  let '(values, idx) := sort_descending v in
  idx ≡ₚ seq 0 (length v) /\
  Sorted (fun a b => b <= a) values /\
  length values = length idx /\
  forall i j, idx !! i = Some j -> values !! i = v !! j.
Proof.
  unfold sort_descending.
  set (s := merge_sort value_ge (indexed v)).
  assert (s ≡ₚ indexed v) as Hs by apply merge_sort_Permutation.
  split; [|split; [|split]].
  - change (s.*2 ≡ₚ seq 0 (length v)). rewrite Hs. now rewrite snd_indexed.
  - apply (Sorted_fmap _ value_ge); [auto | apply Sorted_merge_sort; apply _].
  - now rewrite !length_map.
  - intros i j Hi. apply list_lookup_fmap_Some in Hi as ([x j'] & -> & Hsi). cbn [snd].
    change ((fst <$> s) !! i = v !! j').
    rewrite (eq_trans (list_lookup_fmap fst s i) (f_equal (fmap fst) Hsi)). cbn. symmetry.
    apply elem_of_indexed. rewrite <- Hs. eapply list_elem_of_lookup_2, Hsi.
Qed.

(** X13. A batch sorted by [sort] and handed to [unsort] with the indices
    [sort] returned comes back in its original order. *)
Theorem unsort_undoes_sort {A} (src : list A) (mask : list (list R)) :
  length mask = length src ->
  exists sorted lengths idx,
    sort src mask = Ok (sorted, lengths, idx) /\
    unsort sorted idx = Ok src.
Proof.
  intros Hlen. unfold sort.
  pose proof (sort_descending_spec (map Row.sum mask)) as Hspec.
  destruct (sort_descending (map Row.sum mask)) as [lengths idx].
  destruct Hspec as (Hp & _). rewrite length_map, Hlen in Hp.
  destruct (unsort_gather src idx Hp) as (rows & Hg & Hu).
  exists rows, lengths, idx. rewrite Hg. split; [reflexivity | exact Hu].
Qed.

(** X14. [sort] returns the rows of the batch reordered so that their
    lengths (the row sums of the mask) never increase: the indices are a
    permutation of the batch positions, row [i] of the result is row
    [idx[i]] of the input, and [lengths[i]] is the sum of row [idx[i]] of
    the mask. *)
Theorem sort_orders_by_length {A} (src : list A) (mask : list (list R)) :
  length mask = length src ->
  exists sorted lengths idx,
    sort src mask = Ok (sorted, lengths, idx) /\
    idx ≡ₚ seq 0 (length src) /\
    Sorted (fun a b => b <= a) lengths /\
    length sorted = length src /\ length lengths = length src /\
    forall i j, idx !! i = Some j ->
      sorted !! i = src !! j /\ lengths !! i = Row.sum <$> mask !! j.
Proof.
  intros Hlen. unfold sort.
  pose proof (sort_descending_spec (map Row.sum mask)) as Hspec.
  destruct (sort_descending (map Row.sum mask)) as [lengths idx].
  destruct Hspec as (Hp & Hsorted & Hl & Hvals). rewrite length_map, Hlen in Hp.
  assert (length idx = length src) as Lidx by (rewrite Hp; apply length_seq).
  destruct (gather_ok src idx) as (rows & Hg & Lr & Hrows).
  { rewrite Hp. apply Forall_seq. lia. }
  exists rows, lengths, idx. rewrite Hg. cbn [mbind result_bind].
  split; [reflexivity|]. split; [exact Hp|]. split; [exact Hsorted|].
  split; [lia|]. split; [lia|].
  intros i j Hi. split; [now apply Hrows|].
  rewrite (Hvals i j Hi). apply list_lookup_fmap.
Qed.

Lemma unsort_undoes_sort_witness :
  exists sorted lengths idx,
    sort [10; 20; 30]%nat [[1; 0]; [1; 1]; [0; 0]] = Ok (sorted, lengths, idx) /\
    unsort sorted idx = Ok [10; 20; 30]%nat.
Proof. apply (unsort_undoes_sort [10; 20; 30]%nat [[1; 0]; [1; 1]; [0; 0]]). reflexivity. Defined.

Lemma sort_orders_by_length_witness :
  exists sorted lengths idx,
    sort [10; 20; 30]%nat [[1; 0]; [1; 1]; [0; 0]] = Ok (sorted, lengths, idx) /\
    idx ≡ₚ seq 0 (length [10; 20; 30]%nat) /\
    Sorted (fun a b => b <= a) lengths /\
    length sorted = length [10; 20; 30]%nat /\ length lengths = length [10; 20; 30]%nat /\
    forall i j, idx !! i = Some j ->
      sorted !! i = [10; 20; 30]%nat !! j /\
      lengths !! i = Row.sum <$> [[1; 0]; [1; 1]; [0; 0]] !! j.
Proof. apply (sort_orders_by_length [10; 20; 30]%nat [[1; 0]; [1; 1]; [0; 0]]). reflexivity. Defined.

End RNNEncoderFacts.

(** ** utils.concatenate_dict *)

Module ConcatenateDictFacts.
Import Utils.
Section Facts.
Context {K V : Type} `{Countable K}.
Implicit Types (main_dict : dict_of_lists K) (new_dict : gmap K V) (hp : heap V).

(** The values appended to the list object [l]: those of the keys that
    refer to [l], in iteration order. *)
Definition appended main_dict new_dict (l : nat) : list V :=
  omap (fun '(key, l') => if decide (l' = l) then new_dict !! key else None) main_dict.

Lemma concatenate_dict_app pre post new_dict hp :
  concatenate_dict (pre ++ post) new_dict hp
  = match concatenate_dict pre new_dict hp with
    | (hp', None) => concatenate_dict post new_dict hp'
    | (hp', Some key) => (hp', Some key)
    end.
Proof.
  revert hp. induction pre as [|[key l] pre IH]; intros hp; [reflexivity|].
  cbn [app concatenate_dict]. destruct (new_dict !! key); [apply IH | reflexivity].
Qed.

Lemma concatenate_dict_all_present main_dict new_dict hp :
  Forall (fun entry => is_Some (new_dict !! fst entry)) main_dict ->
  snd (concatenate_dict main_dict new_dict hp) = None.
Proof.
  intros Hall. revert hp.
  induction Hall as [|[key l] main_dict [v Hv] _ IH]; intros hp; [reflexivity|].
  cbn [concatenate_dict fst] in *. rewrite Hv. apply IH.
Qed.

Lemma concatenate_dict_heap main_dict new_dict : forall hp hp',
  concatenate_dict main_dict new_dict hp = (hp', None) ->
  forall l, hp' !! l = (fun old => old ++ appended main_dict new_dict l) <$> hp !! l.
Proof.
  induction main_dict as [|[key l0] main_dict IH]; intros hp hp' Hrun l.
  - cbn in Hrun. injection Hrun as <-. cbn.
    destruct (hp !! l); cbn; [now rewrite app_nil_r | reflexivity].
  - cbn [concatenate_dict] in Hrun. unfold appended. cbn [omap list_omap].
    destruct (new_dict !! key) as [v|] eqn:Hv; [|discriminate].
    rewrite (IH _ _ Hrun l). destruct (decide (l0 = l)) as [->|Hne].
    + rewrite lookup_alter_eq. destruct (hp !! l); cbn; [|reflexivity].
      now rewrite <- app_assoc.
    + rewrite lookup_alter_ne by assumption. reflexivity.
Qed.

(** X15. [concatenate_dict] ends normally exactly when every key of
    [main_dict] is a key of [new_dict] (keys that only [new_dict] has are
    ignored); otherwise it raises [KeyError] for the first key of
    [main_dict], in iteration order, that [new_dict] lacks. *)
Theorem concatenate_dict_outcome main_dict new_dict hp :
  (snd (concatenate_dict main_dict new_dict hp) = None
   <-> Forall (fun entry => is_Some (new_dict !! fst entry)) main_dict) /\
  (forall pre key l post,
     main_dict = pre ++ (key, l) :: post ->
     Forall (fun entry => is_Some (new_dict !! fst entry)) pre ->
     new_dict !! key = None ->
     snd (concatenate_dict main_dict new_dict hp) = Some key).
Proof.
  split.
  - split; [|apply concatenate_dict_all_present].
    revert hp. induction main_dict as [|[key l] main_dict IH]; intros hp Hrun; [constructor|].
    cbn [concatenate_dict] in Hrun. destruct (new_dict !! key) as [v|] eqn:Hv; [|discriminate].
    constructor; [cbn; rewrite Hv; eauto | eapply IH, Hrun].
  - intros pre key l post -> Hpre Hkey. rewrite concatenate_dict_app.
    pose proof (concatenate_dict_all_present pre new_dict hp Hpre) as Hok.
    destruct (concatenate_dict pre new_dict hp) as [hp1 r]. cbn in Hok. subst r.
    cbn [concatenate_dict]. now rewrite Hkey.
Qed.

(** X16. After a normal return every list object holds what it held
    before followed by the values of the keys that refer to it, in
    iteration order; list objects no key refers to are unchanged. When
    the keys refer to distinct lists, the list of each key has grown by
    exactly one entry, its value in [new_dict]; a list shared by several
    keys has received the values of all of them. *)
Theorem concatenate_dict_appends main_dict new_dict hp hp' :
  concatenate_dict main_dict new_dict hp = (hp', None) ->
  (forall l, hp' !! l = (fun old => old ++ appended main_dict new_dict l) <$> hp !! l) /\
  (forall l, l ∉ main_dict.*2 -> hp' !! l = hp !! l) /\
  (NoDup (main_dict.*2) ->
   forall key l v, (key, l) ∈ main_dict -> new_dict !! key = Some v ->
     hp' !! l = (fun old => old ++ [v]) <$> hp !! l).
Proof.
  intros Hrun. pose proof (concatenate_dict_heap _ _ _ _ Hrun) as Hheap.
  split; [exact Hheap|]. split.
  - intros l Hl. rewrite Hheap.
    assert (appended main_dict new_dict l = []) as ->.
    { clear -Hl. induction main_dict as [|[key l0] main_dict IH]; [reflexivity|].
      unfold appended. cbn [omap list_omap]. cbn in Hl.
      apply not_elem_of_cons in Hl as [Hne Hl].
      destruct (decide (l0 = l)); [congruence|]. now apply IH. }
    destruct (hp !! l); cbn; [now rewrite app_nil_r | reflexivity].
  - intros Hnd key l v Hin Hv. rewrite Hheap. f_equal.
    clear -Hnd Hin Hv. induction main_dict as [|[key0 l0] main_dict IH].
    + apply elem_of_nil in Hin. contradiction.
    + unfold appended. cbn [omap list_omap]. cbn in Hnd.
      apply NoDup_cons in Hnd as [Hfresh Hnd].
      apply elem_of_cons in Hin as [Heq | Hin].
      * injection Heq as <- <-. rewrite decide_True by reflexivity. rewrite Hv.
        assert (appended main_dict new_dict l = []) as Hnil.
        { clear -Hfresh. induction main_dict as [|[k1 l1] main_dict IH]; [reflexivity|].
          unfold appended. cbn [omap list_omap]. cbn in Hfresh.
          apply not_elem_of_cons in Hfresh as [Hne Hfresh].
          destruct (decide (l1 = l)); [congruence|]. now apply IH. }
        unfold appended in Hnil. now rewrite Hnil.
      * destruct (decide (l0 = l)) as [->|Hne].
        -- exfalso. apply Hfresh. apply list_elem_of_fmap. exists (key, l). auto.
        -- now apply IH.
Qed.

(** X17. When the call raises [KeyError] for a key, the lists of the keys
    before it have already been extended and stay so: the heap is the one
    a normal call on those earlier keys alone leaves; the lists of the
    later keys have not been touched by this call. *)
Theorem concatenate_dict_partial_update pre key l post new_dict hp :
  Forall (fun entry => is_Some (new_dict !! fst entry)) pre ->
  new_dict !! key = None ->
  exists hp',
    concatenate_dict pre new_dict hp = (hp', None) /\
    concatenate_dict (pre ++ (key, l) :: post) new_dict hp = (hp', Some key) /\
    forall l', hp' !! l' = (fun old => old ++ appended pre new_dict l') <$> hp !! l'.
Proof.
  intros Hpre Hkey.
  pose proof (concatenate_dict_all_present pre new_dict hp Hpre) as Hok.
  destruct (concatenate_dict pre new_dict hp) as [hp1 r] eqn:Hrun. cbn in Hok. subst r.
  exists hp1. split; [reflexivity|]. split.
  - rewrite concatenate_dict_app, Hrun. cbn [concatenate_dict]. now rewrite Hkey.
  - now apply concatenate_dict_heap.
Qed.

End Facts.

(** Two keys sharing one list, a third with its own. *)
Definition shared : dict_of_lists nat := [(1, 0); (2, 0); (3, 1)].
Definition fresh : gmap nat nat := {[ 1 := 10; 2 := 20; 3 := 30 ]}.
Definition two_lists : heap nat := {[ 0 := [7]; 1 := [] ]}.

Lemma concatenate_dict_appends_witness :
  (forall l, (fst (concatenate_dict shared fresh two_lists)) !! l
             = (fun old => old ++ appended shared fresh l) <$> two_lists !! l) /\
  (forall l, l ∉ shared.*2 ->
             (fst (concatenate_dict shared fresh two_lists)) !! l = two_lists !! l) /\
  (NoDup (shared.*2) ->
   forall key l v, (key, l) ∈ shared -> fresh !! key = Some v ->
     (fst (concatenate_dict shared fresh two_lists)) !! l
     = (fun old => old ++ [v]) <$> two_lists !! l).
Proof.
  apply (concatenate_dict_appends shared fresh two_lists). reflexivity.
Defined.

(** The shared list has received both values. *)
Lemma shared_list_gets_both_values :
  fst (concatenate_dict shared fresh two_lists) !! 0 = Some [7; 10; 20] /\
  fst (concatenate_dict shared fresh two_lists) !! 1 = Some [30].
Proof. split; reflexivity. Qed.

Lemma concatenate_dict_partial_update_witness :
  exists hp',
    concatenate_dict [(1, 0)] fresh two_lists = (hp', None) /\
    concatenate_dict ([(1, 0)] ++ (9, 1) :: [(3, 1)]) fresh two_lists = (hp', Some 9) /\
    forall l', hp' !! l' = (fun old => old ++ appended [(1, 0)] fresh l') <$> two_lists !! l'.
Proof.
  apply (concatenate_dict_partial_update [(1, 0)] 9 1 [(3, 1)] fresh two_lists).
  - repeat constructor. cbn. eexists. reflexivity.
  - reflexivity.
Defined.

End ConcatenateDictFacts.

(** ** utils.draw *)

Module DrawFacts.
Import Utils.
Local Open Scope R_scope.

(** The flag and the point of a row. *)
Definition flag (row : Row3) : R := fst (fst row).
Definition point (row : Row3) : R * R := (snd (fst row), snd row).

(** The points of the recorded calls of [ax.plot], in order. *)
Definition plotted (plots : list (list R * list R)) : list (R * R) :=
  concat (map (fun p => zip (fst p) (snd p)) plots).

Definition proper (p : list R * list R) : Prop :=
  fst p <> [] /\ length (fst p) = length (snd p).

Lemma zip_map_fst_snd (s : list (R * R)) : zip (map fst s) (map snd s) = s.
Proof. exact (zip_fst_snd s). Qed.

Lemma plot_ok (s : list (R * R)) :
  s <> [] -> plot s = Ok (map fst s, map snd s) /\ proper (map fst s, map snd s).
Proof.
  intros Hs. destruct s as [|q s]; [congruence|]. split; [reflexivity|].
  split; [discriminate | cbn; now rewrite !length_map].
Qed.

Lemma plotted_snoc plots (s : list (R * R)) :
  plotted (plots ++ [(map fst s, map snd s)]) = plotted plots ++ s.
Proof.
  unfold plotted. rewrite map_app, concat_app. cbn [map concat fst snd].
  now rewrite zip_map_fst_snd, app_nil_r.
Qed.

(** The number of rows whose flag is 1. *)
Fixpoint count_eos (flags : list R) : nat :=
  match flags with
  | [] => 0
  | eos :: flags' => (if Req_dec_T eos 1 then 1 else 0) + count_eos flags'
  end.

(** Whether a stroke is under way after the rows, [b] telling whether one
    was before them. *)
Fixpoint under_way (flags : list R) (b : bool) : bool :=
  match flags with
  | [] => b
  | eos :: flags' => under_way flags' (if Req_dec_T eos 1 then false else true)
  end.

Lemma under_way_last (flags : list R) (b : bool) :
  under_way flags b
  = match last flags with
    | None => b
    | Some eos => if Req_dec_T eos 1 then false else true
    end.
Proof.
  revert b. induction flags as [|eos flags IH]; intros b; [reflexivity|].
  cbn [under_way]. rewrite IH, last_cons. destruct (last flags); reflexivity.
Qed.

(** The loop never fails; it plots every finished stroke and keeps the
    unfinished one. *)
Lemma draw_loop_spec (rows : list Row3) : forall stroke plots,
  Forall proper plots ->
  exists stroke' plots',
    draw_loop rows stroke plots = Ok (stroke', plots') /\
    Forall proper plots' /\
    plotted plots' ++ stroke' = plotted plots ++ stroke ++ map point rows /\
    length plots' = (length plots + count_eos (map flag rows))%nat /\
    (stroke' <> [] <-> under_way (map flag rows) (bool_decide (stroke <> [])) = true).
Proof.
  induction rows as [|[[eos x] y] rows IH]; intros stroke plots Hp.
  - exists stroke, plots. cbn. rewrite app_nil_r.
    split; [reflexivity|]. split; [exact Hp|]. split; [reflexivity|]. split; [lia|].
    rewrite bool_decide_eq_true. tauto.
  - cbn [draw_loop map flag point fst snd count_eos under_way].
    destruct (Req_dec_T eos 1) as [Heos|Heos].
    + destruct (plot_ok (stroke ++ [(x, y)])) as [-> Hproper].
      { destruct stroke; discriminate. }
      cbn [mbind result_bind].
      destruct (IH [] (plots ++ [(map fst (stroke ++ [(x, y)]), map snd (stroke ++ [(x, y)]))]))
        as (stroke' & plots' & Hrun & Hp' & Hpts & Hlen & Hway).
      { apply Forall_app. split; [exact Hp | now constructor]. }
      exists stroke', plots'. split; [exact Hrun|]. split; [exact Hp'|].
      rewrite plotted_snoc in Hpts. rewrite length_app in Hlen. cbn [length] in Hlen.
      split; [|split].
      * rewrite Hpts. cbn [app]. now rewrite <- !app_assoc.
      * lia.
      * rewrite Hway. now rewrite bool_decide_eq_false_2 by auto.
    + destruct (IH (stroke ++ [(x, y)]) plots Hp)
        as (stroke' & plots' & Hrun & Hp' & Hpts & Hlen & Hway).
      exists stroke', plots'. split; [exact Hrun|]. split; [exact Hp'|].
      split; [|split].
      * rewrite Hpts. now rewrite <- !app_assoc.
      * lia.
      * rewrite Hway. rewrite bool_decide_eq_true_2; [reflexivity|].
        destruct stroke; discriminate.
Qed.

Lemma length_cumsum_from (xy : list (R * R)) : forall acc,
  length (cumsum_from acc xy) = length xy.
Proof.
  induction xy as [|[dx dy] xy IH]; intros acc; [reflexivity|].
  cbn. now rewrite IH.
Qed.

Lemma flags_positions (offsets : list Row3) :
  map flag (positions offsets) = map flag offsets.
Proof.
  unfold positions.
  generalize (cumsum_from (0, 0) (map (fun row => (snd (fst row), snd row)) offsets))
             (length_cumsum_from (map (fun row => (snd (fst row), snd row)) offsets) (0, 0)).
  rewrite length_map. intros cums Hlen. revert cums Hlen.
  induction offsets as [|row offsets IH]; intros [|p cums] Hlen; cbn in Hlen; try discriminate;
    [reflexivity|].
  cbn. f_equal. apply IH. congruence.
Qed.

(** X18. [draw] never fails on the stroke loop, and it plots every point
    exactly once and in order: the calls of [ax.plot], put end to end, are
    the sequence of the positions of all rows, a trailing stroke without
    end flag included; no call gets an empty list of points. *)
Theorem draw_plots_every_point_once (offsets : list Row3) :
  exists plots,
    draw offsets = Ok plots /\
    Forall proper plots /\
    plotted plots = map point (positions offsets).
Proof.
  unfold draw.
  destruct (draw_loop_spec (positions offsets) [] []) as (stroke & plots & -> & Hp & Hpts & _);
    [constructor|].
  cbn [mbind result_bind]. cbn [plotted map concat app] in Hpts.
  destruct stroke as [|q stroke].
  - exists plots. rewrite app_nil_r in Hpts. auto.
  - destruct (plot_ok (q :: stroke)) as [Hplot Hproper]; [discriminate|].
    rewrite Hplot. cbn [mbind result_bind]. eexists. split; [reflexivity|].
    split; [apply Forall_app; split; [exact Hp | now constructor]|].
    now rewrite plotted_snoc.
Qed.

(** X19. The number of strokes drawn is the number of rows whose flag is
    1, plus one when the last row's flag is not 1 (the trailing stroke);
    no row gives no stroke. *)
Theorem draw_stroke_count (offsets : list Row3) :
  exists plots,
    draw offsets = Ok plots /\
    length plots
    = (count_eos (map flag offsets)
       + match last offsets with
         | None => 0
         | Some row => if Req_dec_T (flag row) 1 then 0 else 1
         end)%nat.
Proof.
  unfold draw.
  destruct (draw_loop_spec (positions offsets) [] [])
    as (stroke & plots & -> & _ & _ & Hlen & Hway); [constructor|].
  cbn [mbind result_bind]. rewrite flags_positions in Hlen, Hway.
  rewrite under_way_last in Hway. cbn [length] in Hlen.
  rewrite bool_decide_eq_false_2 in Hway by auto.
  assert (last (map flag offsets) = flag <$> last offsets) as Hlast.
  { change (map flag offsets) with (flag <$> offsets). apply fmap_last. }
  rewrite Hlast in Hway.
  destruct stroke as [|q stroke].
  - exists plots. split; [reflexivity|]. rewrite Hlen.
    destruct (last offsets) as [row|]; cbn in *; [|lia].
    destruct (Req_dec_T (flag row) 1); [lia|].
    exfalso. assert (@nil (R * R) <> []) by now apply Hway. congruence.
  - destruct (plot_ok (q :: stroke)) as [Hplot _]; [discriminate|].
    rewrite Hplot. cbn [mbind result_bind]. eexists. split; [reflexivity|].
    rewrite length_app, Hlen. cbn [length].
    assert (match flag <$> last offsets with
            | Some eos => if Req_dec_T eos 1 then false else true
            | None => false
            end = true) as Htrue by (apply Hway; discriminate).
    destruct (last offsets) as [row|]; cbn in *; [|discriminate].
    destruct (Req_dec_T (flag row) 1); [discriminate | lia].
Qed.

Lemma cumsum_from_lookup (xy : list (R * R)) : forall acc i d,
  xy !! i = Some d ->
  cumsum_from acc xy !! i
  = Some (fst acc + Row.sum (map fst (take (S i) xy)),
          snd acc + Row.sum (map snd (take (S i) xy))).
Proof.
  induction xy as [|[dx dy] xy IH]; intros acc i d Hi.
  - rewrite lookup_nil in Hi. discriminate.
  - destruct i as [|i]; cbn [cumsum_from].
    + cbn. unfold Row.sum. change (take 0 xy) with (@nil (R * R)). cbn.
      f_equal. f_equal; ring.
    + cbn in Hi. cbn [lookup list_lookup]. rewrite (IH _ i d Hi). cbn [fst snd].
      change (take (S (S i)) ((dx, dy) :: xy)) with ((dx, dy) :: take (S i) xy).
      unfold Row.sum. cbn. do 2 f_equal; ring.
Qed.

(** X20. The position plotted for row [i] is the sum of the offsets of the
    rows 0 to [i], in x and in y; the flag of the row is its column 0,
    unchanged. *)
Theorem positions_are_running_sums (offsets : list Row3) (i : nat) (row : Row3) :
  offsets !! i = Some row ->
  positions offsets !! i
  = Some (flag row,
          Row.sum (map (fun r => fst (point r)) (take (S i) offsets)),
          Row.sum (map (fun r => snd (point r)) (take (S i) offsets))).
Proof.
  intros Hi. unfold positions. apply lookup_zip_with_Some.
  set (xy := map (fun row => (snd (fst row), snd row)) offsets).
  assert (xy !! i = Some (point row)) as Hxy.
  { unfold xy. apply list_lookup_fmap_Some. exists row. split; [reflexivity | exact Hi]. }
  eexists row, _. split; [|split; [exact Hi | exact (cumsum_from_lookup xy (0, 0) i _ Hxy)]].
  cbn [fst snd]. unfold xy. rewrite <- !firstn_map, !map_map. cbn [fst snd point].
  unfold flag. rewrite !Rplus_0_l. reflexivity.
Qed.

Lemma positions_are_running_sums_witness :
  positions [(0, 1, 2); (1, 3, 4)] !! 1%nat
  = Some (flag (1, 3, 4),
          Row.sum (map (fun r => fst (point r)) (take 2 [(0, 1, 2); (1, 3, 4)])),
          Row.sum (map (fun r => snd (point r)) (take 2 [(0, 1, 2); (1, 3, 4)]))).
Proof.
  apply (positions_are_running_sums [(0, 1, 2); (1, 3, 4)] 1%nat (1, 3, 4)). reflexivity.
Defined.

End DrawFacts.

(** ** Generation and the teacher-forced pass *)

Module GenerationReplay.
Import RNNDecoder RNNDecoderMore Seq2Seq Seq2SeqMore.
Section Model.
Context {Tensor Rng : Type} `{!Torch Tensor Rng}.
Variable mixture_sample : Tensor -> Tensor -> Tensor -> Tensor -> Rng -> Tensor * Rng.
Variable m : Seq2Seq.t Tensor.
Variable ctx : Tensor.

Abbreviation sample_body := (Seq2Seq.sample_body mixture_sample m ctx).
Abbreviation sample_loop := (Seq2Seq.sample_loop mixture_sample m ctx).

Lemma steps_loop_length (d : RNNDecoder.t Tensor) xs : forall st outputs outs st',
  steps_loop d ctx xs st outputs = Ok (outs, st') ->
  length outs = length outputs + length xs.
Proof.
  induction xs as [|x xs IH]; intros st outputs outs st' Hrun.
  - cbn in Hrun. injection Hrun as <- _. cbn. lia.
  - cbn [steps_loop] in Hrun.
    destruct (step d ctx st x) as [[o st1]|e]; cbn [mbind result_bind] in Hrun; [|discriminate].
    apply IH in Hrun. rewrite length_app in Hrun. cbn [length] in *. lia.
Qed.

(** The steps of all the points appended so far, run in one go from the
    initial state, end in the state the loop carries. *)
Definition replayed (l : Seq2Seq.Loop Tensor Rng) : Prop :=
  exists outs,
    steps_loop (dec m) ctx (concat (map unbind1 (strokes l)))
      (entry_state (dec m) (rows ctx) None) []
    = Ok (outs, entry_state (dec m) (size0 (x_t l)) (prev_states l)).

Lemma replayed_init g : replayed (sample_init ctx g).
Proof. exists []. reflexivity. Qed.

Lemma replayed_body l l' :
  sample_body l = Ok l' -> replayed l ->
  replayed l' /\ is_Some (prev_states l').
Proof.
  unfold Seq2Seq.sample_body, next_point. intros Hb [outs Hrun].
  destruct (forward (dec m) (x_t l) ctx (prev_states l)) as [[out st]|e] eqn:Hf;
    cbn [mbind result_bind] in Hb; [|discriminate].
  destruct (squeeze1 out) as [o|e]; cbn [mbind result_bind] in Hb; [|discriminate].
  destruct (split5 _ o) as [[[[mu sigma] pi] rho] eos].
  destruct (mixture_sample _ _ _ _ _) as [xy g1].
  destruct (bernoulli _ g1) as [pen g2].
  injection Hb as <-. unfold replayed. cbn [prev_states strokes x_t]. split; [|eauto].
  unfold forward in Hf.
  destruct (steps_loop (dec m) ctx (unbind1 (x_t l)) _ []) as [[outs1 st1]|e] eqn:H1;
    cbn [mbind result_bind] in Hf; [|discriminate].
  destruct (stack1 outs1); cbn [mbind result_bind] in Hf; [|discriminate].
  injection Hf as _ <-.
  exists (outs ++ outs1).
  rewrite map_app, concat_app. cbn [map concat]. rewrite app_nil_r.
  rewrite steps_loop_app, Hrun. cbn [mbind result_bind entry_state].
  now apply steps_loop_outputs.
Qed.

Lemma replayed_loop n : forall l l',
  sample_loop n l = Ok l' -> replayed l ->
  replayed l' /\ (1 <= n -> is_Some (prev_states l')).
Proof.
  induction n as [|n IH] using nat_ind; intros l l' Hrun Hl.
  - cbn in Hrun. injection Hrun as <-. split; [exact Hl | lia].
  - replace (S n) with (n + 1) in Hrun by lia. rewrite sample_loop_add in Hrun.
    destruct (sample_loop n l) as [l1|e] eqn:H1; cbn [mbind result_bind] in Hrun; [|discriminate].
    destruct (IH l l1 H1 Hl) as [Hl1 _].
    cbn [Seq2Seq.sample_loop] in Hrun.
    destruct (sample_body l1) as [l2|e] eqn:H2; cbn [mbind result_bind] in Hrun; [|discriminate].
    injection Hrun as <-.
    destruct (replayed_body l1 l2 H2 Hl1) as [Hl2 Hs]. split; [exact Hl2 | auto].
Qed.

End Model.

(** X21. Generation and the teacher-forced pass agree: one call of the
    decoder on the whole returned sequence, from no state, runs through
    and ends in exactly the state the generation loop carried after its
    last iteration (and has one output per returned step). *)
Theorem generated_sequence_replays
    {Tensor Rng : Type} `{!Torch Tensor Rng}
    (mixture_sample : Tensor -> Tensor -> Tensor -> Tensor -> Rng -> Tensor * Rng)
    (m : Seq2Seq.t Tensor) (chars chars_mask : Tensor) (maxlen : nat) (g g' : Rng)
    (out : Seq Tensor) :
  sample mixture_sample m chars chars_mask maxlen g = Ok (out, g') ->
  let ctx := encode m chars chars_mask in
  exists final outputs st,
    sample_loop mixture_sample m ctx maxlen (sample_init ctx g) = Ok final /\
    forward (dec m) out ctx None = Ok (outputs, st) /\
    prev_states final = Some st /\
    length (unbind1 outputs) = length (unbind1 out).
Proof.
  intros Hs ctx. unfold sample in Hs. fold ctx in Hs.
  destruct (sample_loop mixture_sample m ctx maxlen (sample_init ctx g)) as [final|e] eqn:Hrun;
    cbn [mbind result_bind] in Hs; [|discriminate].
  destruct maxlen as [|n].
  { cbn in Hrun. injection Hrun as <-. discriminate Hs. }
  destruct (replayed_loop mixture_sample m ctx (S n) _ _ Hrun (replayed_init m ctx g))
    as [[outs Hrep] Hsome].
  destruct Hsome as [st Hst]; [lia|].
  (* the first entry of [strokes] is the start point *)
  cbn [sample_loop] in Hrun.
  destruct (sample_body mixture_sample m ctx (sample_init ctx g)) as [l1|e] eqn:Hb;
    cbn [mbind result_bind] in Hrun; [|discriminate].
  pose proof (sample_body_strokes mixture_sample m ctx _ _ Hb) as Hs1.
  destruct (sample_loop_strokes mixture_sample m ctx n l1 final Hrun) as (rest & Hs2 & _).
  rewrite Hs1 in Hs2. cbn [sample_init strokes x_t app] in Hs2.
  rewrite Hs2 in Hs, Hrep. cbn [cat1 mbind result_bind size0] in Hs.
  injection Hs as <- _.
  exists final, {| size0 := rows (hd (zeros 0 0) outs); unbind1 := outs |}, st.
  split; [reflexivity|]. rewrite Hst in Hrep. cbn [entry_state] in Hrep.
  pose proof (steps_loop_length ctx (dec m) _ _ _ _ _ Hrep) as Hlen.
  cbn [map concat unbind1 app] in Hrep, Hlen.
  unfold forward. cbn [size0 unbind1 entry_state]. rewrite Hrep. cbn [mbind result_bind].
  destruct outs as [|o outs].
  { cbn in Hlen. lia. }
  cbn [stack1 mbind result_bind hd unbind1].
  split; [reflexivity|]. split; [exact Hst|]. cbn [length] in *. lia.
Qed.

Lemma generated_sequence_replays_witness :
  let m := Sym.model 2 1 in
  let ctx := encode m (Sym.Leaf "chars") (Sym.Leaf "mask") in
  exists out g' final outputs st,
    sample Sym.mixture_sample m (Sym.Leaf "chars") (Sym.Leaf "mask") 2 0 = Ok (out, g') /\
    sample_loop Sym.mixture_sample m ctx 2 (sample_init ctx 0) = Ok final /\
    forward (dec m) out ctx None = Ok (outputs, st) /\
    prev_states final = Some st /\
    length (unbind1 outputs) = length (unbind1 out).
Proof.
  cbv zeta. eexists _, _.
  assert (sample Sym.mixture_sample (Sym.model 2 1) (Sym.Leaf "chars") (Sym.Leaf "mask") 2 0
          = Ok (_, _)) as Hs by reflexivity.
  destruct (generated_sequence_replays _ _ _ _ _ _ _ _ Hs) as (final & outputs & st & H1 & H2 & H3 & H4).
  exists final, outputs, st. split; [exact Hs|]. auto.
Defined.

End GenerationReplay.
